(** * Protonium: a shallow embedding of the parser and the tree-walking
    evaluator

    The development follows [src/Parser.cpp] and [src/Interpreter.cpp].
    Every C++ member function that matters for the properties below has
    a definition of the same name; member variables keep their [m_]
    names.

    Modelling decisions, stated once:
    - [long double] numbers are rationals ([Q]): arithmetic is exact,
      there is no rounding, no infinity and no NaN; [std::lround]
      returns an unbounded integer. Where a property turns on an
      infinity, the code concerned is stated a second time over IEEE
      754 operands ([isEqual_ld], [comparison_ld]).
    - [std::shared_ptr] values (lists, callables, environments) are
      addresses into arenas kept in the interpreter state, so aliasing
      and in-place mutation are visible.
    - C++ exceptions are an explicit result: [Throw e]. Behaviour the
      C++ standard leaves undefined, and exceptions nobody catches
      ([std::out_of_range], [std::bad_variant_access]), are [Fatal].
    - Loops and recursion of the evaluator take fuel; running out of it
      is [Fatal OutOfFuel]. *)

From Stdlib Require Import QArith Qabs Qround ZArith Lia Lqa String Ascii List Bool.
From Stdlib Require SpecFloat.
From stdpp Require Import base gmap strings list option pretty.

Open Scope string_scope.

(** ** Numbers *)

(** Modelled from the spec: [epsilon] is declared in a header that is
    not part of the sources at hand; the spec fixes it to [1e-12]. *)
Definition epsilon : Q := 1 # 1000000000000.

Definition Qltb (x y : Q) : bool := negb (Qle_bool y x).

(** [std::lround]: round to nearest, halfway cases away from zero. The
    result is unbounded here, where the code has a [long]. *)
Definition lround (d : Q) : Z :=
  if Qle_bool 0 d then Qfloor (d + (1 # 2)) else (- Qfloor (- d + (1 # 2)))%Z.

(** ** Tokens *)

Module TokenType.
Inductive t :=
| LPAREN | RPAREN | LBRACE | RBRACE | LSQRBRKT | RSQRBRKT | COMMA | SEMICOLON
| PLUS | MINUS | PRODUCT | DIVISON | EXPONENTATION | NOT
| EQUAL | BT_EQUAL | EQ_EQUAL | NOT_EQUAL
| GREATER | GT_EQUAL | LESS | LT_EQUAL
| PLUS_EQUAL | MINUS_EQUAL | PROD_EQUAL | DIV_EQUAL | DOT_DOT
| AND | OR | IF | ELSE | WHILE | FOR | BREAK | CONTINUE | FUNCTION | RETURN
| IN | CLASS | TRUE | FALSE | NIX | NUMBER | STRING | IDENTIFIER | EOF_.

(** The enumeration order, used to decide equality of token types. *)
Definition code (k : t) : nat :=
  match k with
  | LPAREN => 0 | RPAREN => 1 | LBRACE => 2 | RBRACE => 3 | LSQRBRKT => 4
  | RSQRBRKT => 5 | COMMA => 6 | SEMICOLON => 7 | PLUS => 8 | MINUS => 9
  | PRODUCT => 10 | DIVISON => 11 | EXPONENTATION => 12 | NOT => 13
  | EQUAL => 14 | BT_EQUAL => 15 | EQ_EQUAL => 16 | NOT_EQUAL => 17
  | GREATER => 18 | GT_EQUAL => 19 | LESS => 20 | LT_EQUAL => 21
  | PLUS_EQUAL => 22 | MINUS_EQUAL => 23 | PROD_EQUAL => 24 | DIV_EQUAL => 25
  | DOT_DOT => 26 | AND => 27 | OR => 28 | IF => 29 | ELSE => 30 | WHILE => 31
  | FOR => 32 | BREAK => 33 | CONTINUE => 34 | FUNCTION => 35 | RETURN => 36
  | IN => 37 | CLASS => 38 | TRUE => 39 | FALSE => 40 | NIX => 41
  | NUMBER => 42 | STRING => 43 | IDENTIFIER => 44 | EOF_ => 45
  end.

Definition eqb (a b : t) : bool := Nat.eqb (code a) (code b).
End TokenType.

Module LiteralType.
Inductive t := NONE | NUM | STR | NIX | TRUE | FALSE.
End LiteralType.

Record Token := mkToken {
  getType : TokenType.t;
  str : string;
  getLine : nat;
  getLiteralType : LiteralType.t
}.

(** ** Values *)

(** The alternatives of the [Value] variant. *)
Inductive Variant := NixV | BoolV | NumV | StrV | ListV | CallableV.

(** [list_t::Type]: the variant index of the elements, or the marker
    999 of the empty literal. *)
Inductive ListType := emptyList | elemType (v : Variant).

Definition numList : ListType := elemType NumV.

Definition list_ptr := nat.
Definition Callable_ptr := nat.
Definition Env_ptr := nat.

Inductive Value :=
| VNix
| VBool (b : bool)
| VNum (d : Q)
| VStr (s : string)
| VList (l : list_ptr)
| VCallable (c : Callable_ptr).

(** [Value::index()] *)
Definition Value_index (v : Value) : Variant :=
  match v with
  | VNix => NixV | VBool _ => BoolV | VNum _ => NumV | VStr _ => StrV
  | VList _ => ListV | VCallable _ => CallableV
  end.

Definition Variant_eqb (a b : Variant) : bool :=
  match a, b with
  | NixV, NixV | BoolV, BoolV | NumV, NumV | StrV, StrV
  | ListV, ListV | CallableV, CallableV => true
  | _, _ => false
  end.

Definition ListType_eqb (a b : ListType) : bool :=
  match a, b with
  | emptyList, emptyList => true
  | elemType x, elemType y => Variant_eqb x y
  | _, _ => false
  end.

Record list_t := mkList {
  m_list : list Value;
  m_type : ListType
}.

(** ** Syntax trees

    A null [Expr_ptr] or [Stmt_ptr] is [NullExpr] or [NullStmt]: the
    parser stores a null step in a two-operand range, a null else
    branch, and [Parser::statement] returns a null statement after a
    parse error. *)

#[warnings="-register-all"]
Inductive Expr :=
| NullExpr
| Binary (m_left : Expr) (m_op : Token) (m_right : Expr)
| Unary (m_op : Token) (m_right : Expr)
| ParenGroup (m_enclosedExpr : Expr)
| Literal (m_tok : Token)
| Variable_ (m_name : Token)
| Logical (m_left : Expr) (m_op : Token) (m_right : Expr)
| Assign (m_name : Token) (m_op : Token) (m_val : Expr)
| Call (m_callee : Expr) (m_paren : Token) (m_args : list Expr)
| Lambda (m_params : list Token) (m_body : list Stmt)
| ListExpr (m_exprs : list Expr) (m_brkt : Token)
| Index (m_indexOp : Token) (m_list : Expr) (m_index : Expr)
| RangeExpr (m_first : Expr) (m_step : Expr) (m_end : Expr) (m_op : Token)
| IndexAssign (m_list : Expr) (m_index : Expr) (m_indexOp : Token)
              (m_op : Token) (m_val : Expr)
| InExpr (m_name : Token) (m_inKeyword : Token) (m_iterable : Expr)
with Stmt :=
| NullStmt
| Expression (m_expr : Expr)
| Block (m_stmts : list Stmt)
| If (m_condition : Expr) (m_thenBranch : Stmt) (m_elseBranch : Stmt)
| While (m_condition : Expr) (m_body : Stmt)
| For (m_init : Expr) (m_condition : Expr) (m_increment : Expr) (m_body : Stmt)
| RangedFor (m_inexpr : Expr) (m_body : Stmt)
| Break
| Continue
| Func (m_name : Token) (m_params : list Token) (m_body : list Stmt)
| Return (m_keyword : Token) (m_val : Expr).

Abbreviation Stmts := (list Stmt).

(** ** Literals *)

(** [Lexer::isDigit] *)
Definition isDigit (c : ascii) : bool :=
  ((48 <=? nat_of_ascii c) && (nat_of_ascii c <=? 57))%nat.

Fixpoint digits (s : string) (acc : N) (count : nat) : N * nat * string :=
  match s with
  | String c rest =>
      if isDigit c
      then digits rest (acc * 10 + (N_of_ascii c - 48))%N (S count)
      else (acc, count, s)
  | EmptyString => (acc, count, s)
  end.

(** Modelled from the spec: the number a lexeme stands for. Lexemes
    have the shape the lexer accepts: digits, an optional fraction, an
    optional exponent. *)
Definition strtold (s : string) : Q :=
  let '(ip, _, r1) := digits s 0%N 0%nat in
  let '(fp, fn, r2) :=
    match r1 with
    | String "."%char r => digits r 0%N 0%nat
    | _ => (0%N, 0%nat, r1)
    end in
  let mantissa : Q :=
    ((Z.of_N ip # 1) + (Z.of_N fp # Z.to_pos (10 ^ Z.of_nat fn)))%Q in
  match r2 with
  | String "e"%char (String "-"%char r) =>
      let '(e, _, _) := digits r 0%N 0%nat in
      (mantissa * Qpower (10 # 1) (- Z.of_N e))%Q
  | String "e"%char (String "+"%char r) =>
      let '(e, _, _) := digits r 0%N 0%nat in
      (mantissa * Qpower (10 # 1) (Z.of_N e))%Q
  | String "e"%char r =>
      let '(e, _, _) := digits r 0%N 0%nat in
      (mantissa * Qpower (10 # 1) (Z.of_N e))%Q
  | _ => mantissa
  end.

(** Modelled from the spec: the constructor of [Literal] (in
    [Expressions.cpp], not part of the sources at hand) turns the token
    of a literal into its value. *)
Definition literalValue (t : Token) : Value :=
  match getLiteralType t with
  | LiteralType.NUM => VNum (Qred (strtold (str t)))
  | LiteralType.STR => VStr (str t)
  | LiteralType.TRUE => VBool true
  | LiteralType.FALSE => VBool false
  | LiteralType.NIX | LiteralType.NONE => VNix
  end.

(** ** The interpreter state *)

(** Modelled from the spec: [Environment] (its source is not at hand)
    is a parent link and a mapping from names to values. *)
Record Environment := mkEnvironment {
  m_parent : option Env_ptr;
  m_values : gmap string Value
}.

(** Modelled from the spec: the callables are the four foreign
    functions bound at start-up and user functions; a [ProtoFunction]
    keeps the environment that was current when it was created (the
    class declarations are not part of the sources at hand). *)
Inductive Callable :=
| Read
| Print
| Println
| Copy
| ProtoFunction (name : string) (params : list Token) (body : Stmts)
                (closure : Env_ptr).

(** What the foreign functions did, in order. *)
Inductive IOEvent :=
| Wrote (newline : bool) (v : Value)
| ReadLine (s : string).

Inductive FatalKind :=
| OutOfFuel
| NullPointer
| OutOfBounds
| OutOfRange
| BadVariantAccess
| BadCast
| OutsideModel.

Inductive Thrown :=
| RuntimeError (m_tok : Token) (m_error : string)
| BreakThrow
| ContinueThrow
| ReturnThrow (v : Value)
| Fatal (k : FatalKind).

(** The members of [Interpreter], the three arenas the shared pointers
    point into, the [Proto] singleton's runtime diagnostics and the
    console. [m_locals] is keyed by node in C++ (by address); here it
    is keyed by the node's content. *)
Record Interpreter := mkInterpreter {
  m_val : Value;
  m_env : Env_ptr;
  m_global : Env_ptr;
  m_locals : Expr -> option nat;
  environments : list Environment;
  lists : list list_t;
  callables : list Callable;
  m_hitRuntimeError : bool;
  reported : list (Token * string);
  console : list IOEvent;
  input : list string
}.

Definition set_val (v : Value) (i : Interpreter) : Interpreter :=
  mkInterpreter v (m_env i) (m_global i) (m_locals i) (environments i)
    (lists i) (callables i) (m_hitRuntimeError i) (reported i) (console i)
    (input i).

Definition set_env (e : Env_ptr) (i : Interpreter) : Interpreter :=
  mkInterpreter (m_val i) e (m_global i) (m_locals i) (environments i)
    (lists i) (callables i) (m_hitRuntimeError i) (reported i) (console i)
    (input i).

Definition set_environments (es : list Environment) (i : Interpreter)
  : Interpreter :=
  mkInterpreter (m_val i) (m_env i) (m_global i) (m_locals i) es
    (lists i) (callables i) (m_hitRuntimeError i) (reported i) (console i)
    (input i).

Definition set_lists (ls : list list_t) (i : Interpreter) : Interpreter :=
  mkInterpreter (m_val i) (m_env i) (m_global i) (m_locals i) (environments i)
    ls (callables i) (m_hitRuntimeError i) (reported i) (console i) (input i).

Definition set_callables (cs : list Callable) (i : Interpreter) : Interpreter :=
  mkInterpreter (m_val i) (m_env i) (m_global i) (m_locals i) (environments i)
    (lists i) cs (m_hitRuntimeError i) (reported i) (console i) (input i).

Definition set_console (c : list IOEvent) (inp : list string) (i : Interpreter)
  : Interpreter :=
  mkInterpreter (m_val i) (m_env i) (m_global i) (m_locals i) (environments i)
    (lists i) (callables i) (m_hitRuntimeError i) (reported i) c inp.

(** Modelled from the spec: [Proto::runtimeError] (its source is not at
    hand) hands the error to the diagnostic sink and sets the session
    flag. *)
Definition runtimeError (t : Token) (msg : string) (i : Interpreter)
  : Interpreter :=
  mkInterpreter (m_val i) (m_env i) (m_global i) (m_locals i) (environments i)
    (lists i) (callables i) true (reported i ++ [(t, msg)]) (console i)
    (input i).

(** ** The evaluation monad: state and exceptions *)

Inductive Res (A : Type) :=
| Ok (a : A)
| Throw (e : Thrown).

Arguments Ok {A} a.
Arguments Throw {A} e.

Definition M (A : Type) : Type := Interpreter -> Res A * Interpreter.

Definition ret {A} (a : A) : M A := fun i => (Ok a, i).

Definition bind {A B} (m : M A) (f : A -> M B) : M B :=
  fun i =>
    match m i with
    | (Ok a, i') => f a i'
    | (Throw e, i') => (Throw e, i')
    end.

Definition throw {A} (e : Thrown) : M A := fun i => (Throw e, i).

Definition get {A} (f : Interpreter -> A) : M A := fun i => (Ok (f i), i).

Definition modify (f : Interpreter -> Interpreter) : M unit :=
  fun i => (Ok tt, f i).

Declare Scope eval_scope.
Delimit Scope eval_scope with eval.
Notation "x <- c ;; k" := (bind c (fun x => k))
  (at level 100, c at next level, right associativity) : eval_scope.
Notation "c ;;; k" := (bind c (fun _ => k))
  (at level 100, right associativity) : eval_scope.
Open Scope eval_scope.

(** [try { body } catch (...)]: [handler] says what a thrown value turns
    into; [None] lets it pass. *)
Definition try_catch {A} (body : M A) (handler : Thrown -> option (M A)) : M A :=
  fun i =>
    match body i with
    | (Ok a, i') => (Ok a, i')
    | (Throw e, i') =>
        match handler e with
        | Some h => h i'
        | None => (Throw e, i')
        end
    end.

(** Allocation in the arenas ([std::make_shared]). *)
Definition new_list (l : list_t) : M list_ptr :=
  fun i => (Ok (length (lists i)), set_lists (lists i ++ [l]) i).

Definition new_callable (c : Callable) : M Callable_ptr :=
  fun i => (Ok (length (callables i)), set_callables (callables i ++ [c]) i).

Definition new_environment (parent : Env_ptr) : M Env_ptr :=
  fun i =>
    (Ok (length (environments i)),
     set_environments (environments i ++ [mkEnvironment (Some parent) ∅]) i).

(** Dereferencing a [list_ptr]; the arena never shrinks, so a pointer
    handed out by [new_list] is always valid. *)
Definition deref_list (l : list_ptr) : M list_t :=
  fun i =>
    match lists i !! l with
    | Some x => (Ok x, i)
    | None => (Throw (Fatal NullPointer), i)
    end.

Definition store_list (l : list_ptr) (x : list_t) : M unit :=
  modify (fun i => set_lists (<[l := x]> (lists i)) i).

(** ** Environments

    The member functions of [Environment]; their source is not at
    hand. *)

(** Modelled from the spec: a depth selects one ancestor exactly. *)
Fixpoint ancestor (envs : list Environment) (e : Env_ptr) (distance : nat)
  : option Env_ptr :=
  match distance with
  | O => Some e
  | S d =>
      match envs !! e with
      | Some env =>
          match m_parent env with
          | Some p => ancestor envs p d
          | None => None
          end
      | None => None
      end
  end.

(** Modelled from the spec: lookups descend through the ancestors. *)
Fixpoint lookup_chain (fuel : nat) (envs : list Environment) (e : Env_ptr)
  (name : string) : option Value :=
  match fuel with
  | O => None
  | S n =>
      match envs !! e with
      | Some env =>
          match m_values env !! name with
          | Some v => Some v
          | None =>
              match m_parent env with
              | Some p => lookup_chain n envs p name
              | None => None
              end
          end
      | None => None
      end
  end.

(** Modelled from the spec: reading, or strictly assigning, a name that
    has no binding is a runtime error on the name's token. The text of
    the message is not known; this one is a placeholder. *)
Definition undefined_variable (t : Token) : Thrown :=
  RuntimeError t ("Undefined variable '" ++ str t ++ "'.").

(** Modelled from the spec: [Environment::get]. *)
Definition Environment_get (e : Env_ptr) (t : Token) : M Value :=
  fun i =>
    match lookup_chain (S (length (environments i))) (environments i) e (str t) with
    | Some v => (Ok v, i)
    | None => (Throw (undefined_variable t), i)
    end.

(** Modelled from the spec: [Environment::assign], the lazy assignment,
    creates or overwrites the slot. *)
Definition Environment_assign (e : Env_ptr) (name : string) (v : Value)
  : M unit :=
  fun i =>
    match environments i !! e with
    | Some env =>
        (Ok tt,
         set_environments
           (<[e := mkEnvironment (m_parent env) (<[name := v]> (m_values env))]>
              (environments i)) i)
    | None => (Throw (Fatal NullPointer), i)
    end.

(** Modelled from the spec: [Environment::strictAssign] needs the slot
    to exist in this environment. *)
Definition Environment_strictAssign (e : Env_ptr) (t : Token) (v : Value)
  : M unit :=
  fun i =>
    match environments i !! e with
    | Some env =>
        match m_values env !! str t with
        | Some _ => Environment_assign e (str t) v i
        | None => (Throw (undefined_variable t), i)
        end
    | None => (Throw (Fatal NullPointer), i)
    end.

(** Modelled from the spec: [Environment::getAt]. *)
Definition Environment_getAt (e : Env_ptr) (t : Token) (depth : nat) : M Value :=
  fun i =>
    match ancestor (environments i) e depth with
    | Some a =>
        match environments i !! a with
        | Some env =>
            match m_values env !! str t with
            | Some v => (Ok v, i)
            | None => (Throw (undefined_variable t), i)
            end
        | None => (Throw (Fatal NullPointer), i)
        end
    | None => (Throw (Fatal NullPointer), i)
    end.

(** Modelled from the spec: [Environment::assignAt]. *)
Definition Environment_assignAt (e : Env_ptr) (name : string) (v : Value)
  (depth : nat) : M unit :=
  fun i =>
    match ancestor (environments i) e depth with
    | Some a => Environment_assign a name v i
    | None => (Throw (Fatal NullPointer), i)
    end.

(** Modelled from the spec: [Environment::strictAssignAt]. *)
Definition Environment_strictAssignAt (e : Env_ptr) (t : Token) (v : Value)
  (depth : nat) : M unit :=
  fun i =>
    match ancestor (environments i) e depth with
    | Some a => Environment_strictAssign a t v i
    | None => (Throw (Fatal NullPointer), i)
    end.

(** ** [Interpreter]: construction and the value predicates *)

(** [Interpreter::Interpreter]: the global environment holds the four
    foreign functions; the depth map is empty until the resolver fills
    it. *)
Definition Interpreter_new : Interpreter :=
  mkInterpreter VNix 0 0 (fun _ => None)
    [mkEnvironment None
       (<["copy" := VCallable 3]>
          (<["println" := VCallable 2]>
             (<["print" := VCallable 1]> (<["read" := VCallable 0]> ∅))))]
    [] [Read; Print; Println; Copy] false [] [] [].

Definition isNum (val : Value) : bool :=
  match val with VNum _ => true | _ => false end.

Definition isNix (val : Value) : bool :=
  match val with VNix => true | _ => false end.

Definition isStr (val : Value) : bool :=
  match val with VStr _ => true | _ => false end.

Definition isBool (val : Value) : bool :=
  match val with VBool _ => true | _ => false end.

Definition isCallable (val : Value) : bool :=
  match val with VCallable _ => true | _ => false end.

Definition isList (val : Value) : bool :=
  match val with VList _ => true | _ => false end.

(** [Interpreter::isEqual(long double, long double)], on the finite
    numbers; [isEqual_ld] below has the infinities and NaN. *)
Definition isEqual_num (left right : Q) : bool :=
  Qltb (Qabs (left - right)) epsilon.

(** [long double] also has two infinities and NaN, which [Q] has
    not. For them [isEqual] and the comparisons of
    [visit(const Binary&)] are stated over IEEE 754 operands, for any
    precision [prec] and exponent range [emax]; [epsilon_ld] is
    [epsilon] as such a number. *)
Section LongDouble.

Variables prec emax : Z.
Variable epsilon_ld : SpecFloat.spec_float.

(** [Interpreter::isEqual(long double, long double)]:
    [std::fabs(left - right) < epsilon]. *)
Definition isEqual_ld (left right : SpecFloat.spec_float) : bool :=
  SpecFloat.SFltb
    (SpecFloat.SFabs (SpecFloat.SFsub prec emax left right)) epsilon_ld.

(** The cases [GT_EQUAL], [LT_EQUAL], [LESS] and [GREATER] of
    [Interpreter::visit(const Binary&)] on two numbers: the value left
    in [m_val]. *)
Definition comparison_ld (k : TokenType.t)
  (left right : SpecFloat.spec_float) : option bool :=
  match k with
  | TokenType.GT_EQUAL =>
      Some (if isEqual_ld left right then true
            else if SpecFloat.SFltb right left then true else false)
  | TokenType.LT_EQUAL =>
      Some (if isEqual_ld left right then true
            else if SpecFloat.SFltb left right then true else false)
  | TokenType.LESS =>
      Some (if isEqual_ld left right then false
            else if SpecFloat.SFltb left right then true else false)
  | TokenType.GREATER =>
      Some (if isEqual_ld left right then false
            else if SpecFloat.SFltb right left then true else false)
  | _ => None
  end.

End LongDouble.

Definition isTrue (val : Value) : bool :=
  match val with
  | VNix => false
  | VBool b => b
  | VNum d => negb (isEqual_num d 0)
  | _ => true
  end.

(** [operator==] of the variant: same alternative, equal payload;
    shared pointers compare by address. *)
Definition Value_eqb (a b : Value) : bool :=
  match a, b with
  | VNix, VNix => true
  | VBool x, VBool y => Bool.eqb x y
  | VNum x, VNum y => Qeq_bool x y
  | VStr x, VStr y => String.eqb x y
  | VList x, VList y => Nat.eqb x y
  | VCallable x, VCallable y => Nat.eqb x y
  | _, _ => false
  end.

(** The element loop of [isEqual] on two lists of the same size. *)
Fixpoint isEqual_elements (eq : Value -> Value -> option bool)
  (leftList rightList : list Value) : option bool :=
  match leftList, rightList with
  | x :: xs, y :: ys =>
      match eq x y with
      | Some true => isEqual_elements eq xs ys
      | r => r
      end
  | _, _ => Some true
  end.

(** [Interpreter::isEqual(const Value&, const Value&)]; the recursion
    through nested lists takes fuel, a list can contain itself. *)
Fixpoint isEqual (fuel : nat) (heap : list list_t) (left right : Value)
  : option bool :=
  match left, right with
  | VNum a, VNum b => Some (isEqual_num a b)
  | VList l, VList r =>
      match fuel with
      | O => None
      | S n =>
          match heap !! l, heap !! r with
          | Some leftList, Some rightList =>
              if negb (ListType_eqb (m_type leftList) (m_type rightList))
              then Some false
              else if negb (Nat.eqb (length (m_list leftList))
                                    (length (m_list rightList)))
              then Some false
              else isEqual_elements (isEqual n heap)
                     (m_list leftList) (m_list rightList)
          | _, _ => None
          end
      end
  | _, _ => Some (Value_eqb left right)
  end.

(** [Interpreter::lookUpVariable] *)
Definition lookUpVariable (e : Expr) (t : Token) : M Value :=
  locals <- get m_locals ;;
  match locals e with
  | Some depth => env <- get m_env ;; Environment_getAt env t depth
  | None => g <- get m_global ;; Environment_get g t
  end.

(** The three tests [verifyIndices] applies to one index [d] of a list
    with [size] elements; the source writes them out twice, once for a
    list of indices and once for a single index. *)
Definition verifyIndex (size : nat) (indexOp : Token) (d : Q) : M unit :=
  if negb (Qltb (Qabs (d - inject_Z (lround d))) epsilon)
  then throw (RuntimeError indexOp "Indices must be positive, non-zero integers.")
  else if (lround d <=? 0)%Z
  then throw (RuntimeError indexOp "Indices can't be negative or zero.")
  else if (size <? Z.to_nat (lround d))%nat
  then throw (RuntimeError indexOp
         "One or more of the indices is greater than the length of the list.")
  else ret tt.

(** The loop of [verifyIndices] over a list of indices. [std::get] on
    an element that is not a number throws [std::bad_variant_access]. *)
Fixpoint verifyIndices_loop (size : nat) (indexOp : Token) (elems : list Value)
  : M unit :=
  match elems with
  | [] => ret tt
  | VNum d :: rest =>
      verifyIndex size indexOp d ;;; verifyIndices_loop size indexOp rest
  | _ :: _ => throw (Fatal BadVariantAccess)
  end.

(** [Interpreter::verifyIndices] *)
Definition verifyIndices (lst : list_ptr) (idx : Value) (indexOp : Token)
  : M unit :=
  match idx with
  | VList li =>
      listIndex <- deref_list li ;;
      match m_type listIndex with
      | emptyList => ret tt
      | elemType NumV =>
          target <- deref_list lst ;;
          verifyIndices_loop (length (m_list target)) indexOp (m_list listIndex)
      | _ => throw (RuntimeError indexOp "The indexing list must contain numbers.")
      end
  | VNum d =>
      target <- deref_list lst ;;
      verifyIndex (length (m_list target)) indexOp d
  | _ => throw (RuntimeError indexOp "The index must be a list or a number.")
  end.

(** ** Expressions

    Each [visit_*] takes [accept], the dispatch on sub-expressions
    ([expr->accept(this)]), and leaves its result in [m_val]. *)

Section Visitors.

Variable accept : Expr -> M unit.

(** Fuel for the recursion of [isEqual] and for the loops. *)
Variable fuel : nat.

(** Modelled from the spec: [std::pow] is exact here for an integral
    exponent, without rounding or overflow to an infinity, and lies
    outside the rational model otherwise. *)
Definition pow (x y : Q) : M Value :=
  if Qeq_bool y (inject_Z (Qfloor y))
  then ret (VNum (Qpower x (Qfloor y)))
  else throw (Fatal OutsideModel).

Definition operands_must_be_numbers (op : Token) : Thrown :=
  RuntimeError op "Operands must be numbers.".

Definition set_m_val (v : Value) : M unit := modify (set_val v).

(** [Interpreter::visit(const Binary&)] *)
Definition visit_Binary (m_left : Expr) (m_op : Token) (m_right : Expr)
  : M unit :=
  accept m_left ;;;
  left <- get m_val ;;
  accept m_right ;;;
  right <- get m_val ;;
  match getType m_op with
  | TokenType.PLUS =>
      match left, right with
      | VNum a, VNum b => set_m_val (VNum (a + b))
      | VStr a, VStr b => set_m_val (VStr (a ++ b))
      | _, _ => throw (RuntimeError m_op
                  "Both of the operands must be numbers or strings.")
      end
  | TokenType.MINUS =>
      match left, right with
      | VNum a, VNum b => set_m_val (VNum (a - b))
      | _, _ => throw (operands_must_be_numbers m_op)
      end
  | TokenType.PRODUCT =>
      match left, right with
      | VNum a, VNum b => set_m_val (VNum (a * b))
      | _, _ => throw (operands_must_be_numbers m_op)
      end
  | TokenType.DIVISON =>
      match left, right with
      | VNum a, VNum b =>
          if isEqual_num b 0
          then throw (RuntimeError m_op "Cannot divide by 0!")
          else set_m_val (VNum (a / b))
      | _, _ => throw (operands_must_be_numbers m_op)
      end
  | TokenType.EXPONENTATION =>
      match left, right with
      | VNum a, VNum b => v <- pow a b ;; set_m_val v
      | _, _ => throw (operands_must_be_numbers m_op)
      end
  | TokenType.GT_EQUAL =>
      match left, right with
      | VNum a, VNum b =>
          set_m_val (VBool (if isEqual_num a b then true
                            else if Qltb b a then true else false))
      | _, _ => throw (operands_must_be_numbers m_op)
      end
  | TokenType.LT_EQUAL =>
      match left, right with
      | VNum a, VNum b =>
          set_m_val (VBool (if isEqual_num a b then true
                            else if Qltb a b then true else false))
      | _, _ => throw (operands_must_be_numbers m_op)
      end
  | TokenType.LESS =>
      match left, right with
      | VNum a, VNum b =>
          set_m_val (VBool (if isEqual_num a b then false
                            else if Qltb a b then true else false))
      | _, _ => throw (operands_must_be_numbers m_op)
      end
  | TokenType.GREATER =>
      match left, right with
      | VNum a, VNum b =>
          set_m_val (VBool (if isEqual_num a b then false
                            else if Qltb b a then true else false))
      | _, _ => throw (operands_must_be_numbers m_op)
      end
  | TokenType.NOT_EQUAL =>
      heap <- get lists ;;
      match isEqual fuel heap left right with
      | Some b => set_m_val (VBool (negb b))
      | None => throw (Fatal OutOfFuel)
      end
  | TokenType.EQ_EQUAL =>
      heap <- get lists ;;
      match isEqual fuel heap left right with
      | Some b => set_m_val (VBool b)
      | None => throw (Fatal OutOfFuel)
      end
  | _ => set_m_val VNix
  end.

(** [Interpreter::visit(const Unary&)] *)
Definition visit_Unary (m_op : Token) (m_right : Expr) : M unit :=
  accept m_right ;;;
  v <- get m_val ;;
  match getType m_op with
  | TokenType.MINUS =>
      match v with
      | VNum d => set_m_val (VNum (- d))
      | _ => throw (RuntimeError m_op "Operand must be a number.")
      end
  | TokenType.NOT => set_m_val (VBool (negb (isTrue v)))
  | _ => ret tt
  end.

(** [Interpreter::visit(const ParenGroup&)] *)
Definition visit_ParenGroup (m_enclosedExpr : Expr) : M unit :=
  accept m_enclosedExpr.

(** [Interpreter::visit(const Literal&)] *)
Definition visit_Literal (m_tok : Token) : M unit :=
  set_m_val (literalValue m_tok).

(** [Interpreter::visit(const Variable&)] *)
Definition visit_Variable (var : Expr) (m_name : Token) : M unit :=
  v <- lookUpVariable var m_name ;; set_m_val v.

(** [Interpreter::visit(const Logical&)] *)
Definition visit_Logical (m_left : Expr) (m_op : Token) (m_right : Expr)
  : M unit :=
  accept m_left ;;;
  l <- get m_val ;;
  match getType m_op with
  | TokenType.OR =>
      if isTrue l then set_m_val (VBool true)
      else
        accept m_right ;;;
        r <- get m_val ;;
        if isTrue r then set_m_val (VBool true) else set_m_val (VBool false)
  | _ =>
      if negb (isTrue l) then set_m_val (VBool false)
      else
        accept m_right ;;;
        r <- get m_val ;;
        if isTrue r then set_m_val (VBool true) else set_m_val (VBool false)
  end.

(** [Interpreter::visit(const Assign&)] *)
Definition visit_Assign (expr : Expr) (m_name : Token) (m_op : Token)
  (m_val' : Expr) : M unit :=
  accept m_val' ;;;
  v <- get m_val ;;
  let isStrictAssign := TokenType.eqb (getType m_op) TokenType.BT_EQUAL in
  let isLazyAssign := TokenType.eqb (getType m_op) TokenType.EQUAL in
  locals <- get m_locals ;;
  match locals expr with
  | Some dist =>
      env <- get m_env ;;
      if isLazyAssign then Environment_assignAt env (str m_name) v dist
      else if isStrictAssign then Environment_strictAssignAt env m_name v dist
      else ret tt
  | None =>
      g <- get m_global ;;
      if isLazyAssign then Environment_assign g (str m_name) v
      else if isStrictAssign then Environment_strictAssign g m_name v
      else ret tt
  end.

(** The argument loop of a call and the element loops: evaluate each
    expression and collect [m_val]. *)
Fixpoint accept_all (es : list Expr) : M (list Value) :=
  match es with
  | [] => ret []
  | e :: rest =>
      accept e ;;;
      v <- get m_val ;;
      vs <- accept_all rest ;;
      ret (v :: vs)
  end.

(** Modelled from the spec: [Callable::arity]. *)
Definition arity (c : Callable) : nat :=
  match c with
  | Read => 0
  | Print | Println | Copy => 1
  | ProtoFunction _ params _ _ => length params
  end.

Definition deref_callable (c : Callable_ptr) : M Callable :=
  fun i =>
    match callables i !! c with
    | Some x => (Ok x, i)
    | None => (Throw (Fatal NullPointer), i)
    end.

(** [std::to_string] on an unsigned number. *)
Definition to_string (n : nat) : string := pretty n.

(** [Interpreter::visit(const Call&)]; [call] is [Callable::call]. *)
Definition visit_Call (call : Callable -> list Value -> M Value)
  (m_callee : Expr) (m_paren : Token) (m_args : list Expr) : M unit :=
  accept m_callee ;;;
  callee <- get m_val ;;
  args <- accept_all m_args ;;
  match callee with
  | VCallable c =>
      fn <- deref_callable c ;;
      if negb (Nat.eqb (arity fn) (length args))
      then throw (RuntimeError m_paren
             ("Expected " ++ to_string (arity fn) ++ " argument(s) but got "
              ++ to_string (length args) ++ " argument(s)."))
      else v <- call fn args ;; set_m_val v
  | _ => throw (RuntimeError m_paren "Provided object is not callable.")
  end.

(** [Interpreter::visit(const Lambda&)] *)
Definition visit_Lambda (m_params : list Token) (m_body : Stmts) : M unit :=
  env <- get m_env ;;
  fn <- new_callable (ProtoFunction EmptyString m_params m_body env) ;;
  set_m_val (VCallable fn).

(** The loop of [visit(const ListExpr&)]: [type] is fixed by the first
    element and every element is compared with it. *)
Fixpoint ListExpr_loop (m_brkt : Token) (es : list Expr) (values : list Value)
  (type : ListType) (first : bool) : M (list Value * ListType) :=
  match es with
  | [] => ret (values, type)
  | exp :: rest =>
      accept exp ;;;
      v <- get m_val ;;
      let type' := if first then elemType (Value_index v) else type in
      if negb (ListType_eqb type' (elemType (Value_index v)))
      then throw (RuntimeError m_brkt
             "Lists are homogenous and can't contain different types.")
      else ListExpr_loop m_brkt rest (values ++ [v]) type' false
  end.

(** [Interpreter::visit(const ListExpr&)] *)
Definition visit_ListExpr (m_exprs : list Expr) (m_brkt : Token) : M unit :=
  r <- ListExpr_loop m_brkt m_exprs [] emptyList true ;;
  l <- new_list (mkList (fst r) (snd r)) ;;
  set_m_val (VList l).

(** [v[i]] on a [std::vector]: outside the bounds the behaviour is
    undefined. *)
Definition subscript (elems : list Value) (i : Z) : M Value :=
  if (i <? 0)%Z then throw (Fatal OutOfBounds)
  else match elems !! Z.to_nat i with
       | Some v => ret v
       | None => throw (Fatal OutOfBounds)
       end.

(** [v.at(i)]: outside the bounds it throws [std::out_of_range]. *)
Definition at_ (elems : list Value) (i : Z) : M Value :=
  if (i <? 0)%Z then throw (Fatal OutOfRange)
  else match elems !! Z.to_nat i with
       | Some v => ret v
       | None => throw (Fatal OutOfRange)
       end.

(** [list->m_list.at(i) = value] *)
Definition assign_at (lst : list_ptr) (i : Z) (value : Value) : M unit :=
  target <- deref_list lst ;;
  if (i <? 0)%Z then throw (Fatal OutOfRange)
  else if (Z.to_nat i <? length (m_list target))%nat
  then store_list lst
         (mkList (<[Z.to_nat i := value]> (m_list target)) (m_type target))
  else throw (Fatal OutOfRange).

(** The gather loop of [visit(const Index&)]. *)
Fixpoint gather (elems : list Value) (indices : list Value) : M (list Value) :=
  match indices with
  | [] => ret []
  | VNum d :: rest =>
      x <- subscript elems (lround d - 1) ;;
      xs <- gather elems rest ;;
      ret (x :: xs)
  | _ :: _ => throw (Fatal BadVariantAccess)
  end.

(** [Interpreter::visit(const Index&)] *)
Definition visit_Index (m_indexOp : Token) (m_list' : Expr) (m_index : Expr)
  : M unit :=
  accept m_list' ;;;
  v <- get m_val ;;
  match v with
  | VList lst =>
      accept m_index ;;;
      idx <- get m_val ;;
      verifyIndices lst idx m_indexOp ;;;
      match idx with
      | VList li =>
          listIndex <- deref_list li ;;
          target <- deref_list lst ;;
          val <- gather (m_list target) (m_list listIndex) ;;
          l <- new_list (mkList val (m_type target)) ;;
          set_m_val (VList l)
      | VNum d =>
          target <- deref_list lst ;;
          x <- subscript (m_list target) (lround d - 1) ;;
          set_m_val x
      | _ => ret tt
      end
  | _ => throw (RuntimeError m_indexOp
           "The index operator can only be used on lists.")
  end.

(** The loop [for (auto i = first; i <= end; i += step)] of
    [visit(const RangeExpr&)]; [None] when the fuel does not suffice.
    Every [i += step] is exact here; [long double] rounds each sum, so
    the loop of the code agrees with this one where the sums are
    representable (whole numbers of moderate size, for one). *)
Fixpoint rangeLoop (n : nat) (i end_ step : Q) (rangeList : list Value)
  : option (list Value) :=
  match n with
  | O => None
  | S n' =>
      if Qle_bool i end_
      then rangeLoop n' (i + step) end_ step (rangeList ++ [VNum i])
      else Some rangeList
  end.

Definition numeric_descriptors (op : Token) : Thrown :=
  RuntimeError op "Ranges can only contain numeric descriptors.".

(** [Interpreter::visit(const RangeExpr&)] *)
Definition visit_RangeExpr (m_first m_step m_end : Expr) (m_op : Token)
  : M unit :=
  accept m_first ;;;
  v <- get m_val ;;
  match v with
  | VNum first =>
      step <-
        match m_step with
        | NullExpr => ret 1%Q
        | _ =>
            accept m_step ;;;
            s <- get m_val ;;
            match s with
            | VNum step =>
                if isEqual_num step 0
                then throw (RuntimeError m_op "Range step cannot be 0.")
                else ret step
            | _ => throw (numeric_descriptors m_op)
            end
        end ;;
      accept m_end ;;;
      e <- get m_val ;;
      match e with
      | VNum end_ =>
          match rangeLoop fuel first end_ step [] with
          | Some rangeList =>
              l <- new_list (mkList rangeList numList) ;;
              set_m_val (VList l)
          | None => throw (Fatal OutOfFuel)
          end
      | _ => throw (numeric_descriptors m_op)
      end
  | _ => throw (numeric_descriptors m_op)
  end.

(** The scatter loop of [visit(const IndexAssign&)]. The three lists
    may be one and the same object, so each round reads them again. *)
Fixpoint scatter (lst indexList valueList : list_ptr) (positions : list nat)
  : M unit :=
  match positions with
  | [] => ret tt
  | i :: rest =>
      il <- deref_list indexList ;;
      iv <- subscript (m_list il) (Z.of_nat i) ;;
      match iv with
      | VNum d =>
          vl <- deref_list valueList ;;
          x <- at_ (m_list vl) (Z.of_nat i) ;;
          assign_at lst (lround d - 1) x ;;;
          scatter lst indexList valueList rest
      | _ => throw (Fatal BadVariantAccess)
      end
  end.

Definition type_mismatch (t : Token) : Thrown :=
  RuntimeError t "Type mismatch for list assignment.".

(** [Interpreter::visit(const IndexAssign&)] *)
Definition visit_IndexAssign (m_list' m_index : Expr) (m_indexOp m_op : Token)
  (m_val' : Expr) : M unit :=
  accept m_list' ;;;
  v <- get m_val ;;
  match v with
  | VList lst =>
      accept m_index ;;;
      idx <- get m_val ;;
      verifyIndices lst idx m_indexOp ;;;
      accept m_val' ;;;
      value <- get m_val ;;
      match idx with
      | VList il =>
          match value with
          | VList vl =>
              indexList <- deref_list il ;;
              valueList <- deref_list vl ;;
              if negb (Nat.eqb (length (m_list indexList))
                               (length (m_list valueList)))
              then throw (RuntimeError m_op
                     "The value list's length must be equal to the number of indices accessed.")
              else if negb (ListType_eqb (m_type indexList) (m_type valueList))
              then throw (type_mismatch m_op)
              else scatter lst il vl (seq 0 (length (m_list indexList)))
          | _ => throw (RuntimeError m_op "The value must be a list.")
          end
      | VNum d =>
          let i := lround d in
          target <- deref_list lst ;;
          second <- subscript (m_list target) 1 ;;
          if negb (Variant_eqb (Value_index value) (Value_index second))
          then throw (type_mismatch m_indexOp)
          else assign_at lst (i - 1) value
      | _ => ret tt
      end
  | _ => throw (RuntimeError m_indexOp
           "The index operator can only be used on lists.")
  end.

(** [Interpreter::visit(const InExpr&)] *)
Definition visit_InExpr (m_inKeyword : Token) (m_iterable : Expr) : M unit :=
  accept m_iterable ;;;
  v <- get m_val ;;
  if isList v then ret tt
  else throw (RuntimeError m_inKeyword
         "The specified object for the in-expression isn't an iterable.").

(** ** Statements

    [execute] is the dispatch on statements ([stmt->accept(this)]). *)

Variable execute : Stmt -> M unit.

(** The loop [for (auto stmt : stmts) execute(stmt)]. *)
Fixpoint execute_all (stmts : Stmts) : M unit :=
  match stmts with
  | [] => ret tt
  | stmt :: rest => execute stmt ;;; execute_all rest
  end.

(** [Interpreter::executeBlock]: a [RuntimeError] is caught here, the
    environment is put back and the error is reported; a [ReturnThrow]
    is thrown again after the environment is put back; nothing else is
    caught. *)
Definition executeBlock (stmts : Stmts) (env : Env_ptr) : M unit :=
  parent <- get m_env ;;
  try_catch
    (modify (set_env env) ;;;
     execute_all stmts ;;;
     modify (set_env parent))
    (fun e =>
       match e with
       | RuntimeError t msg =>
           Some (modify (set_env parent) ;;; modify (runtimeError t msg))
       | ReturnThrow v =>
           Some (modify (set_env parent) ;;; throw (ReturnThrow v))
       | _ => None
       end).

(** [Interpreter::visit(const Expression&)] *)
Definition visit_Expression (m_expr : Expr) : M unit := accept m_expr.

(** [Interpreter::visit(const Block&)] *)
Definition visit_Block (m_stmts : Stmts) : M unit :=
  cur <- get m_env ;;
  env <- new_environment cur ;;
  executeBlock m_stmts env.

(** [Interpreter::visit(const If&)] *)
Definition visit_If (m_condition : Expr) (m_thenBranch m_elseBranch : Stmt)
  : M unit :=
  accept m_condition ;;;
  v <- get m_val ;;
  if isTrue v then execute m_thenBranch
  else match m_elseBranch with
       | NullStmt => ret tt
       | _ => execute m_elseBranch
       end.

(** [catch (const ContinueThrow&) {}] *)
Definition catch_continue (body : M unit) : M unit :=
  try_catch body
    (fun e => match e with ContinueThrow => Some (ret tt) | _ => None end).

(** [catch (const BreakThrow&) {}] *)
Definition catch_break (body : M unit) : M unit :=
  try_catch body
    (fun e => match e with BreakThrow => Some (ret tt) | _ => None end).

(** The loop [while (isTrue(m_val))] of [visit(const While&)]. *)
Fixpoint while_loop (n : nat) (m_condition : Expr) (m_body : Stmt) : M unit :=
  match n with
  | O => throw (Fatal OutOfFuel)
  | S n' =>
      v <- get m_val ;;
      if isTrue v then
        catch_continue (execute m_body) ;;;
        accept m_condition ;;;
        while_loop n' m_condition m_body
      else ret tt
  end.

(** [Interpreter::visit(const While&)] *)
Definition visit_While (m_condition : Expr) (m_body : Stmt) : M unit :=
  accept m_condition ;;;
  catch_break (while_loop fuel m_condition m_body).

(** The body of a [for]: a block body runs in the loop's own
    environment, without a scope of its own. *)
Definition loop_body (m_body : Stmt) : M unit :=
  match m_body with
  | Block stmts => env <- get m_env ;; executeBlock stmts env
  | _ => execute m_body
  end.

Definition accept_if_present (e : Expr) : M unit :=
  match e with
  | NullExpr => ret tt
  | _ => accept e
  end.

(** The loop of [visit(const For&)]. *)
Fixpoint for_loop (n : nat) (m_condition m_increment : Expr) (m_body : Stmt)
  : M unit :=
  match n with
  | O => throw (Fatal OutOfFuel)
  | S n' =>
      v <- get m_val ;;
      if isTrue v then
        catch_continue (loop_body m_body) ;;;
        accept_if_present m_increment ;;;
        accept m_condition ;;;
        for_loop n' m_condition m_increment m_body
      else ret tt
  end.

(** [Interpreter::visit(const For&)] *)
Definition visit_For (m_init m_condition m_increment : Expr) (m_body : Stmt)
  : M unit :=
  parent <- get m_env ;;
  env <- new_environment parent ;;
  modify (set_env env) ;;;
  accept_if_present m_init ;;;
  accept m_condition ;;;
  catch_break (for_loop fuel m_condition m_increment m_body) ;;;
  modify (set_env parent).

(** The loop of [visit(const RangedFor&)]; the size and the element
    are read from the shared list in every round. *)
Fixpoint rangedFor_loop (n : nat) (iterable : list_ptr) (name : string)
  (dist : nat) (m_body : Stmt) (i : nat) : M unit :=
  match n with
  | O => throw (Fatal OutOfFuel)
  | S n' =>
      it <- deref_list iterable ;;
      if (i <? length (m_list it))%nat then
        element <- subscript (m_list it) (Z.of_nat i) ;;
        env <- get m_env ;;
        Environment_assignAt env name element dist ;;;
        catch_continue (loop_body m_body) ;;;
        rangedFor_loop n' iterable name dist m_body (S i)
      else ret tt
  end.

(** [Interpreter::visit(const RangedFor&)] *)
Definition visit_RangedFor (m_inexpr : Expr) (m_body : Stmt) : M unit :=
  parent <- get m_env ;;
  env <- new_environment parent ;;
  modify (set_env env) ;;;
  accept m_inexpr ;;;
  v <- get m_val ;;
  match v with
  | VList iterable =>
      locals <- get m_locals ;;
      match locals m_inexpr with
      | Some dist =>
          match m_inexpr with
          | InExpr m_name _ _ =>
              catch_break
                (rangedFor_loop fuel iterable (str m_name) dist m_body 0) ;;;
              modify (set_env parent)
          | _ => throw (Fatal BadCast)
          end
      | None => throw (Fatal OutOfRange)
      end
  | _ => throw (Fatal BadVariantAccess)
  end.

(** [Interpreter::visit(const Break&)] *)
Definition visit_Break : M unit := throw BreakThrow.

(** [Interpreter::visit(const Continue&)] *)
Definition visit_Continue : M unit := throw ContinueThrow.

(** [Interpreter::visit(const Func&)] *)
Definition visit_Func (m_name : Token) (m_params : list Token) (m_body : Stmts)
  : M unit :=
  env <- get m_env ;;
  fn <- new_callable (ProtoFunction (str m_name) m_params m_body env) ;;
  Environment_assign env (str m_name) (VCallable fn).

(** [Interpreter::visit(const Return&)] *)
Definition visit_Return (m_val' : Expr) : M unit :=
  match m_val' with
  | NullExpr => set_m_val VNix
  | _ => accept m_val'
  end ;;;
  v <- get m_val ;;
  throw (ReturnThrow v).

(** [Interpreter::interpret(const Stmts&)]: one handler around the
    whole loop over the top-level statements. *)
Definition interpret (stmts : Stmts) : M unit :=
  try_catch (execute_all stmts)
    (fun e =>
       match e with
       | RuntimeError t msg => Some (modify (runtimeError t msg))
       | _ => None
       end).

(** ** Calls

    [ProtoFunction::call] and the foreign functions; their sources are
    not at hand. *)

(** Modelled from the spec: the parameters are bound to the arguments
    in the environment of the call. *)
Fixpoint bind_parameters (env : Env_ptr) (params : list Token)
  (args : list Value) : M unit :=
  match params, args with
  | p :: ps, a :: as_ =>
      Environment_assign env (str p) a ;;; bind_parameters env ps as_
  | _, _ => ret tt
  end.

Fixpoint map_M {A B} (f : A -> M B) (l : list A) : M (list B) :=
  match l with
  | [] => ret []
  | x :: xs => y <- f x ;; ys <- map_M f xs ;; ret (y :: ys)
  end.

(** Modelled from the spec: [copy] clones lists deeply, gives scalars
    back as they are and shares callables. *)
Fixpoint deep_copy (n : nat) (v : Value) : M Value :=
  match v with
  | VList l =>
      match n with
      | O => throw (Fatal OutOfFuel)
      | S n' =>
          src <- deref_list l ;;
          elems <- map_M (deep_copy n') (m_list src) ;;
          c <- new_list (mkList elems (m_type src)) ;;
          ret (VList c)
      end
  | _ => ret v
  end.

(** Modelled from the spec: [Callable::call]. A user function runs its
    body, by [executeBlock], in a fresh environment whose parent is the
    closure; a [return] gives the value, falling off the end gives
    [nix]. [print] and [println] write their argument, [read] takes a
    line of input. *)
Definition Callable_call (fn : Callable) (args : list Value) : M Value :=
  match fn with
  | Read =>
      fun i =>
        match input i with
        | s :: rest => (Ok (VStr s), set_console (console i ++ [ReadLine s]) rest i)
        | [] => (Ok (VStr EmptyString), set_console (console i ++ [ReadLine EmptyString]) [] i)
        end
  | Print =>
      match args with
      | x :: _ =>
          modify (fun i => set_console (console i ++ [Wrote false x]) (input i) i) ;;;
          ret VNix
      | [] => throw (Fatal OutOfBounds)
      end
  | Println =>
      match args with
      | x :: _ =>
          modify (fun i => set_console (console i ++ [Wrote true x]) (input i) i) ;;;
          ret VNix
      | [] => throw (Fatal OutOfBounds)
      end
  | Copy =>
      match args with
      | x :: _ => deep_copy fuel x
      | [] => throw (Fatal OutOfBounds)
      end
  | ProtoFunction _ params body closure =>
      env <- new_environment closure ;;
      bind_parameters env params args ;;;
      try_catch (executeBlock body env ;;; ret VNix)
        (fun e => match e with ReturnThrow v => Some (ret v) | _ => None end)
  end.

End Visitors.

(** ** The dispatch

    [accept] and [execute] tie the visitors together. Every level of
    the recursion takes one unit of fuel, and the loops inside one
    visitor run on what is left. *)

Fixpoint accept (fuel : nat) (e : Expr) {struct fuel} : M unit :=
  match fuel with
  | O => throw (Fatal OutOfFuel)
  | S n =>
      match e with
      | NullExpr => throw (Fatal NullPointer)
      | Binary l op r => visit_Binary (accept n) n l op r
      | Unary op r => visit_Unary (accept n) op r
      | ParenGroup x => visit_ParenGroup (accept n) x
      | Literal t => visit_Literal t
      | Variable_ name => visit_Variable e name
      | Logical l op r => visit_Logical (accept n) l op r
      | Assign name op v => visit_Assign (accept n) e name op v
      | Call callee paren args =>
          visit_Call (accept n) (Callable_call n (execute n)) callee paren args
      | Lambda params body => visit_Lambda params body
      | ListExpr es brkt => visit_ListExpr (accept n) es brkt
      | Index op l i => visit_Index (accept n) op l i
      | RangeExpr a s b op => visit_RangeExpr (accept n) n a s b op
      | IndexAssign l i iop op v => visit_IndexAssign (accept n) l i iop op v
      | InExpr _ kw it => visit_InExpr (accept n) kw it
      end
  end
with execute (fuel : nat) (s : Stmt) {struct fuel} : M unit :=
  match fuel with
  | O => throw (Fatal OutOfFuel)
  | S n =>
      match s with
      | NullStmt => throw (Fatal NullPointer)
      | Expression x => visit_Expression (accept n) x
      | Block stmts => visit_Block (execute n) stmts
      | If c t f => visit_If (accept n) (execute n) c t f
      | While c b => visit_While (accept n) n (execute n) c b
      | For i c u b => visit_For (accept n) n (execute n) i c u b
      | RangedFor x b => visit_RangedFor (accept n) n (execute n) x b
      | Break => visit_Break
      | Continue => visit_Continue
      | Func name params body => visit_Func name params body
      | Return _ v => visit_Return (accept n) v
      end
  end.

(** A whole script: [Interpreter::interpret(const Stmts&)] on a fresh
    interpreter. *)
Definition run_script (fuel : nat) (stmts : Stmts) : Res unit * Interpreter :=
  interpret (execute fuel) stmts Interpreter_new.

(** * The parser ([src/Parser.cpp]) *)

Module Parser.

(** The members of [Parser], and the error flag and the messages the
    [Proto] singleton got from it. *)
Record state := mkParser {
  m_tokens : list Token;
  m_current : nat;
  m_allowExpr : bool;
  m_foundExpr : bool;
  m_loopDepth : nat;
  m_hitError : bool;
  errors : list (nat * string)
}.

(** [Parser::Parser] *)
Definition new (tokens : list Token) (parseRepl : bool) : state :=
  mkParser tokens 0 parseRepl false 0 false [].

Definition set_current (c : nat) (p : state) : state :=
  mkParser (m_tokens p) c (m_allowExpr p) (m_foundExpr p) (m_loopDepth p)
    (m_hitError p) (errors p).

Definition set_allowExpr (b : bool) (p : state) : state :=
  mkParser (m_tokens p) (m_current p) b (m_foundExpr p) (m_loopDepth p)
    (m_hitError p) (errors p).

Definition set_foundExpr (b : bool) (p : state) : state :=
  mkParser (m_tokens p) (m_current p) (m_allowExpr p) b (m_loopDepth p)
    (m_hitError p) (errors p).

Definition set_loopDepth (d : nat) (p : state) : state :=
  mkParser (m_tokens p) (m_current p) (m_allowExpr p) (m_foundExpr p) d
    (m_hitError p) (errors p).

(** Modelled from the spec: [Proto::error] (source not at hand) hands
    the line and the message to the diagnostic sink and marks the
    session as errored. *)
Definition Proto_error (line : nat) (msg : string) (p : state) : state :=
  mkParser (m_tokens p) (m_current p) (m_allowExpr p) (m_foundExpr p)
    (m_loopDepth p) true (errors p ++ [(line, msg)]).

Inductive Thrown :=
| ParseError (m_error : string)
| Fatal (k : FatalKind).

Inductive Res (A : Type) :=
| Ok (a : A)
| Throw (e : Thrown).

Arguments Ok {A} a.
Arguments Throw {A} e.

Definition P (A : Type) : Type := state -> Res A * state.

Definition ret {A} (a : A) : P A := fun p => (Ok a, p).

Definition bind {A B} (m : P A) (f : A -> P B) : P B :=
  fun p =>
    match m p with
    | (Ok a, p') => f a p'
    | (Throw e, p') => (Throw e, p')
    end.

Definition throw {A} (e : Thrown) : P A := fun p => (Throw e, p).

Definition get {A} (f : state -> A) : P A := fun p => (Ok (f p), p).

Definition modify (f : state -> state) : P unit := fun p => (Ok tt, f p).

Declare Scope parse_scope.
Delimit Scope parse_scope with parse.
Notation "x <- c ;; k" := (bind c (fun x => k))
  (at level 100, c at next level, right associativity) : parse_scope.
Notation "c ;;; k" := (bind c (fun _ => k))
  (at level 100, right associativity) : parse_scope.
#[local] Open Scope parse_scope.

(** ** Helpers *)

(** [m_tokens.at(i)] *)
Definition token_at (i : nat) : P Token :=
  fun p =>
    match m_tokens p !! i with
    | Some t => (Ok t, p)
    | None => (Throw (Fatal OutOfRange), p)
    end.

Definition peek : P Token := c <- get m_current ;; token_at c.

Definition previous : P Token :=
  c <- get m_current ;;
  match c with
  | O => throw (Fatal OutOfRange)
  | S c' => token_at c'
  end.

Definition isAtEnd : P bool :=
  t <- peek ;; ret (TokenType.eqb (getType t) TokenType.EOF_).

Definition isNextType (type : TokenType.t) : P bool :=
  e <- isAtEnd ;;
  if e then ret false
  else t <- peek ;; ret (TokenType.eqb (getType t) type).

Definition isNextNextType (type : TokenType.t) : P bool :=
  e <- isAtEnd ;;
  if e then ret false
  else
    c <- get m_current ;;
    t <- token_at (c + 1) ;;
    if TokenType.eqb (getType t) TokenType.EOF_ then ret false
    else ret (TokenType.eqb (getType t) type).

Definition advance : P Token :=
  e <- isAtEnd ;;
  (if e then ret tt else modify (fun p => set_current (S (m_current p)) p)) ;;;
  previous.

(** [Parser::match(const std::list<TokenType>&)] *)
Fixpoint match_any (types : list TokenType.t) : P bool :=
  match types with
  | [] => ret false
  | type :: rest =>
      b <- isNextType type ;;
      if b then advance ;;; ret true else match_any rest
  end.

(** [Parser::match(TokenType)] *)
Definition match_ (type : TokenType.t) : P bool :=
  b <- isNextType type ;;
  if b then advance ;;; ret true else ret false.

(** [Parser::error]: reports, and returns the exception for the caller
    to throw or to drop. *)
Definition error (t : Token) (msg : string) : P Thrown :=
  modify (Proto_error (getLine t) msg) ;;; ret (ParseError msg).

Definition matchWithErr (type : TokenType.t) (err : string) : P bool :=
  b <- isNextType type ;;
  if b then advance ;;; ret true
  else t <- peek ;; e <- error t err ;; throw e.

(** The loop of [Parser::sync]. *)
Fixpoint sync_loop (n : nat) : P unit :=
  match n with
  | O => throw (Fatal OutOfFuel)
  | S n' =>
      e <- isAtEnd ;;
      if e then ret tt
      else
        prev <- previous ;;
        if TokenType.eqb (getType prev) TokenType.SEMICOLON then ret tt
        else
          t <- peek ;;
          match getType t with
          | TokenType.CLASS | TokenType.IF | TokenType.WHILE | TokenType.FOR
          | TokenType.FUNCTION | TokenType.RETURN => ret tt
          | _ => advance ;;; sync_loop n'
          end
  end.

Definition sync (n : nat) : P unit := advance ;;; sync_loop n.

(** [try { body } catch (const ParseError&)] *)
Definition catch_ParseError {A} (body : P A) (handler : P A) : P A :=
  fun p =>
    match body p with
    | (Throw (ParseError _), p') => handler p'
    | r => r
    end.

(** ** Production rules

    [expression] and [statement] stand for the two rules every other
    rule can come back to; the loops and the rules that call
    themselves run on [fuel]. *)

Section Productions.

Variable expression : P Expr.
Variable statement : P Stmt.
Variable fuel : nat.

Definition tooMany (count : nat) (msg : string) : P unit :=
  if (127 <=? count)%nat
  then t <- peek ;; modify (Proto_error (getLine t) msg)
  else ret tt.

(** The loop of [Parser::block]. *)
Fixpoint block_loop (n : nat) (statements : Stmts) : P Stmts :=
  match n with
  | O => throw (Fatal OutOfFuel)
  | S n' =>
      b <- isNextType TokenType.RBRACE ;;
      e <- isAtEnd ;;
      if negb b && negb e
      then s <- statement ;; block_loop n' (statements ++ [s])%list
      else ret statements
  end.

(** [Parser::block] *)
Definition block : P Stmts :=
  statements <- block_loop fuel [] ;;
  matchWithErr TokenType.RBRACE "Expected a '}' at the end of the block." ;;;
  ret statements.

(** The [do ... while (match(COMMA))] loop over parameter names. *)
Fixpoint params_loop (n : nat) (msg : string) (params : list Token)
  : P (list Token) :=
  match n with
  | O => throw (Fatal OutOfFuel)
  | S n' =>
      tooMany (length params) msg ;;;
      matchWithErr TokenType.IDENTIFIER "Expected a parameter name after ','." ;;;
      t <- previous ;;
      b <- match_ TokenType.COMMA ;;
      if b then params_loop n' msg (params ++ [t])%list else ret (params ++ [t])%list
  end.

(** The [do ... while (match(COMMA))] loop over expressions. *)
Fixpoint expressions_loop (n : nat) (msg : option string) (es : list Expr)
  : P (list Expr) :=
  match n with
  | O => throw (Fatal OutOfFuel)
  | S n' =>
      match msg with
      | Some m => tooMany (length es) m
      | None => ret tt
      end ;;;
      e <- expression ;;
      b <- match_ TokenType.COMMA ;;
      if b then expressions_loop n' msg (es ++ [e])%list else ret (es ++ [e])%list
  end.

(** [Parser::list] *)
Definition list_ : P Expr :=
  lsqrbrkt <- previous ;;
  b <- isNextType TokenType.RSQRBRKT ;;
  expressions <- (if b then ret [] else expressions_loop fuel None []) ;;
  matchWithErr TokenType.RSQRBRKT "Expected a ']' after list end." ;;;
  ret (ListExpr expressions lsqrbrkt).

(** [Parser::primary] *)
Definition primary : P Expr :=
  b <- match_any [TokenType.TRUE; TokenType.FALSE; TokenType.NIX;
                  TokenType.NUMBER; TokenType.STRING] ;;
  if b then t <- previous ;; ret (Literal t) else
  b <- match_ TokenType.LPAREN ;;
  if b then
    expr <- expression ;;
    matchWithErr TokenType.RPAREN "Expected ')' after expression." ;;;
    ret (ParenGroup expr)
  else
  b <- match_ TokenType.IDENTIFIER ;;
  if b then t <- previous ;; ret (Variable_ t) else
  b <- match_ TokenType.FUNCTION ;;
  if b then
    matchWithErr TokenType.LPAREN "Expected a '(' after fn" ;;;
    b <- isNextType TokenType.RPAREN ;;
    params <- (if b then ret []
               else params_loop fuel
                      "Cannot have more than 127 parameters in a lambda." []) ;;
    matchWithErr TokenType.RPAREN "Expected a ')' after lambda parameters." ;;;
    matchWithErr TokenType.LBRACE "Expected a '{' before lambda body." ;;;
    body <- block ;;
    ret (Lambda params body)
  else
  b <- match_ TokenType.LSQRBRKT ;;
  if b then list_ else
  t <- peek ;; e <- error t "Invalid Syntax." ;; throw e.

(** The loop of [Parser::index_or_call]. *)
Fixpoint index_or_call_loop (n : nat) (expr : Expr) : P Expr :=
  match n with
  | O => throw (Fatal OutOfFuel)
  | S n' =>
      b <- match_ TokenType.LPAREN ;;
      if b then
        b <- isNextType TokenType.RPAREN ;;
        args <- (if b then ret []
                 else expressions_loop fuel
                        (Some "Cannot have more than 127 arguments.") []) ;;
        matchWithErr TokenType.RPAREN "Expected a ')' after function arguments." ;;;
        paren <- previous ;;
        index_or_call_loop n' (Call expr paren args)
      else
      b <- match_ TokenType.LSQRBRKT ;;
      if b then
        tok <- previous ;;
        b <- match_ TokenType.LSQRBRKT ;;
        expr' <- (if b then listIndex <- list_ ;; ret (Index tok expr listIndex)
                  else idx <- expression ;; ret (Index tok expr idx)) ;;
        matchWithErr TokenType.RSQRBRKT "Expected a ']' after index end." ;;;
        index_or_call_loop n' expr'
      else ret expr
  end.

(** [Parser::index_or_call] *)
Definition index_or_call : P Expr :=
  expr <- primary ;; index_or_call_loop fuel expr.

(** [Parser::exponentiation] *)
Fixpoint exponentiation (n : nat) : P Expr :=
  match n with
  | O => throw (Fatal OutOfFuel)
  | S n' =>
      base <- index_or_call ;;
      b <- match_ TokenType.EXPONENTATION ;;
      if b then
        op <- previous ;;
        power <- exponentiation n' ;;
        ret (Binary base op power)
      else ret base
  end.

(** [Parser::unary] *)
Fixpoint unary (n : nat) : P Expr :=
  match n with
  | O => throw (Fatal OutOfFuel)
  | S n' =>
      b <- match_any [TokenType.NOT; TokenType.MINUS] ;;
      if b then
        op <- previous ;;
        right <- unary n' ;;
        ret (Unary op right)
      else exponentiation fuel
  end.

(** The loop [while (match(types))] shared by the left-associative
    binary rules: [operand] parses the right operand and [node] builds
    the tree. *)
Fixpoint binary_loop (n : nat) (types : list TokenType.t) (operand : P Expr)
  (node : Expr -> Token -> Expr -> Expr) (expr : Expr) : P Expr :=
  match n with
  | O => throw (Fatal OutOfFuel)
  | S n' =>
      b <- match_any types ;;
      if b then
        op <- previous ;;
        right <- operand ;;
        binary_loop n' types operand node (node expr op right)
      else ret expr
  end.

(** [Parser::product] *)
Definition product : P Expr :=
  expr <- unary fuel ;;
  binary_loop fuel [TokenType.PRODUCT; TokenType.DIVISON] (unary fuel) Binary expr.

(** [Parser::addition] *)
Definition addition : P Expr :=
  expr <- product ;;
  binary_loop fuel [TokenType.PLUS; TokenType.MINUS] product Binary expr.

(** [Parser::range] *)
Definition range : P Expr :=
  expr <- addition ;;
  b <- match_ TokenType.DOT_DOT ;;
  if b then
    op <- previous ;;
    expr2 <- addition ;;
    b <- match_ TokenType.DOT_DOT ;;
    if b then
      expr3 <- addition ;;
      ret (RangeExpr expr expr2 expr3 op)
    else ret (RangeExpr expr NullExpr expr2 op)
  else ret expr.

(** [Parser::comparision] *)
Definition comparision : P Expr :=
  expr <- range ;;
  binary_loop fuel
    [TokenType.GREATER; TokenType.GT_EQUAL; TokenType.LESS; TokenType.LT_EQUAL]
    range Binary expr.

(** [Parser::equality] *)
Definition equality : P Expr :=
  expr <- comparision ;;
  binary_loop fuel [TokenType.NOT_EQUAL; TokenType.EQ_EQUAL] comparision
    Binary expr.

(** [Parser::land] *)
Definition land : P Expr :=
  expr <- equality ;;
  binary_loop fuel [TokenType.AND] equality Logical expr.

(** [Parser::lor] *)
Definition lor : P Expr :=
  expr <- land ;;
  binary_loop fuel [TokenType.OR] land Logical expr.

(** The token the desugaring of a compound assignment puts in place of
    [+=], [-=], [*=], [/=]; any other token is left as it is. *)
Definition desugared_operator (op : Token) : option Token :=
  match getType op with
  | TokenType.PLUS_EQUAL =>
      Some (mkToken TokenType.PLUS "+" (getLine op) LiteralType.NONE)
  | TokenType.MINUS_EQUAL =>
      Some (mkToken TokenType.MINUS "-" (getLine op) LiteralType.NONE)
  | TokenType.PROD_EQUAL =>
      Some (mkToken TokenType.PRODUCT "*" (getLine op) LiteralType.NONE)
  | TokenType.DIV_EQUAL =>
      Some (mkToken TokenType.DIVISON "/" (getLine op) LiteralType.NONE)
  | _ => None
  end.

(** [Parser::assignment]. An inner [Some] is a [return] from inside one
    of the three [if] blocks; [None] falls through to the next one. *)
Fixpoint assignment (n : nat) : P Expr :=
  match n with
  | O => throw (Fatal OutOfFuel)
  | S n' =>
      expr <- lor ;;
      b <- match_any [TokenType.EQUAL; TokenType.BT_EQUAL] ;;
      r <- (if b then
              op <- previous ;;
              val <- assignment n' ;;
              match expr with
              | Variable_ name => ret (Some (Assign name op val))
              | Index indexOp l i => ret (Some (IndexAssign l i indexOp op val))
              | _ => error op "Invalid assignment location." ;;; ret None
              end
            else ret None) ;;
      match r with
      | Some e => ret e
      | None =>
      b <- match_any [TokenType.PROD_EQUAL; TokenType.DIV_EQUAL;
                      TokenType.PLUS_EQUAL; TokenType.MINUS_EQUAL] ;;
      r <- (if b then
              op <- previous ;;
              val <- assignment n' ;;
              match expr with
              | Variable_ name =>
                  let (op', val') :=
                    match desugared_operator op with
                    | Some o => (o, Binary expr o val)
                    | None => (op, val)
                    end in
                  let op'' :=
                    mkToken TokenType.BT_EQUAL "`=" (getLine op')
                      LiteralType.NONE in
                  ret (Some (Assign name op'' val'))
              | _ => error op "Invalid assignment location." ;;; ret None
              end
            else ret None) ;;
      match r with
      | Some e => ret e
      | None =>
      b <- match_ TokenType.IN ;;
      r <- (if b then
              in_ <- previous ;;
              iterable <- assignment n' ;;
              match expr with
              | Variable_ name => ret (Some (InExpr name in_ iterable))
              | _ =>
                  error in_ "Missing identifier for iterating variable." ;;;
                  ret None
              end
            else ret None) ;;
      match r with
      | Some e => ret e
      | None => ret expr
      end
      end
      end
  end.

(** [Parser::expression] *)
Definition expression_rule : P Expr := assignment fuel.

(** [Parser::ifstmt] *)
Definition ifstmt : P Stmt :=
  matchWithErr TokenType.LPAREN "Expected a '(' after 'if'." ;;;
  condition <- expression ;;
  matchWithErr TokenType.RPAREN "Expected a ')' after if condition." ;;;
  then_ <- statement ;;
  b <- match_ TokenType.ELSE ;;
  elseBranch <- (if b then statement else ret NullStmt) ;;
  ret (If condition then_ elseBranch).

(** [m_loopDepth++; auto body = statement(); m_loopDepth--;] *)
Definition loop_statement : P Stmt :=
  modify (fun p => set_loopDepth (S (m_loopDepth p)) p) ;;;
  body <- statement ;;
  modify (fun p => set_loopDepth (Nat.pred (m_loopDepth p)) p) ;;;
  ret body.

(** [Parser::whilestmt] *)
Definition whilestmt : P Stmt :=
  matchWithErr TokenType.LPAREN "Expected a '(' after 'while'." ;;;
  condition <- expression ;;
  matchWithErr TokenType.RPAREN "Expected a ')' after while condition." ;;;
  body <- loop_statement ;;
  ret (While condition body).

(** The three clauses and the body of a C-style [for], after the
    initialisation clause. *)
Definition forstmt_rest (init : Expr) : P Stmt :=
  b <- isNextType TokenType.SEMICOLON ;;
  condition <- (if b then ret NullExpr else expression) ;;
  matchWithErr TokenType.SEMICOLON "Expected a ';' after for-loop condition." ;;;
  b <- isNextType TokenType.RPAREN ;;
  increment <- (if b then ret NullExpr else expression) ;;
  matchWithErr TokenType.RPAREN "Expected a ')' after for-loop clauses." ;;;
  body <- loop_statement ;;
  let condition' :=
    match condition with
    | NullExpr =>
        Literal (mkToken TokenType.TRUE "true" 0 LiteralType.TRUE)
    | _ => condition
    end in
  ret (For init condition' increment body).

(** [Parser::forstmt] *)
Definition forstmt : P Stmt :=
  matchWithErr TokenType.LPAREN "Expected a '(' after 'for'." ;;;
  b <- match_ TokenType.SEMICOLON ;;
  if b then forstmt_rest NullExpr
  else
    init <- expression ;;
    match init with
    | InExpr _ _ _ =>
        matchWithErr TokenType.RPAREN
          "Expected a ')' after the ranged for loop clause." ;;;
        body <- loop_statement ;;
        ret (RangedFor init body)
    | _ =>
        matchWithErr TokenType.SEMICOLON
          "Expected a ';' after for-loop initialization clause." ;;;
        forstmt_rest init
    end.

(** [Parser::breakstmt] *)
Definition breakstmt : P Stmt :=
  d <- get m_loopDepth ;;
  (if Nat.eqb d 0
   then t <- previous ;; error t "Cannot use 'break' outside of a loop." ;;; ret tt
   else ret tt) ;;;
  matchWithErr TokenType.SEMICOLON "Expected a ';' after 'break'." ;;;
  ret Break.

(** [Parser::contstmt] *)
Definition contstmt : P Stmt :=
  d <- get m_loopDepth ;;
  (if Nat.eqb d 0
   then t <- previous ;; error t "Cannot use 'continue' outside of a loop." ;;; ret tt
   else ret tt) ;;;
  matchWithErr TokenType.SEMICOLON "Expected a ';' after 'continue'." ;;;
  ret Continue.

(** [Parser::exprstmt] *)
Definition exprstmt : P Stmt :=
  expr <- expression ;;
  allow <- get m_allowExpr ;;
  e <- (if allow then isAtEnd else ret false) ;;
  (if e then modify (set_foundExpr true)
   else matchWithErr TokenType.SEMICOLON
          "Invalid Syntax. Did you miss a ';' after the expression?" ;;; ret tt) ;;;
  ret (Expression expr).

(** [Parser::fndefn] *)
Definition fndefn : P Stmt :=
  matchWithErr TokenType.IDENTIFIER "A function name was expected." ;;;
  name <- previous ;;
  matchWithErr TokenType.LPAREN
    "Expected a '(' after function name in definition." ;;;
  b <- isNextType TokenType.RPAREN ;;
  params <- (if b then ret []
             else params_loop fuel
                    "Cannot have more than 127 parameters in a function." []) ;;
  matchWithErr TokenType.RPAREN "Expected a ')' after function parameters." ;;;
  matchWithErr TokenType.LBRACE "Expected a '{' before function body." ;;;
  body <- block ;;
  ret (Func name params body).

(** [Parser::returnstmt] *)
Definition returnstmt : P Stmt :=
  keyword <- previous ;;
  b <- isNextType TokenType.SEMICOLON ;;
  val <- (if b then ret NullExpr else expression) ;;
  matchWithErr TokenType.SEMICOLON "Expected a ';' after return value." ;;;
  ret (Return keyword val).

(** [Parser::statement] *)
Definition statement_rule : P Stmt :=
  catch_ParseError
    (b <- match_ TokenType.RETURN ;;
     if b then returnstmt else
     b <- isNextType TokenType.FUNCTION ;;
     b <- (if b then isNextNextType TokenType.IDENTIFIER else ret false) ;;
     if b then advance ;;; fndefn else
     b <- match_ TokenType.LBRACE ;;
     if b then stmts <- block ;; ret (Block stmts) else
     b <- match_ TokenType.IF ;;
     if b then ifstmt else
     b <- match_ TokenType.WHILE ;;
     if b then whilestmt else
     b <- match_ TokenType.FOR ;;
     if b then forstmt else
     b <- match_ TokenType.BREAK ;;
     if b then breakstmt else
     b <- match_ TokenType.CONTINUE ;;
     if b then contstmt else
     exprstmt)
    (sync fuel ;;; ret NullStmt).

End Productions.

(** The two rules the others come back to; every level of the descent
    takes one unit of fuel. *)
Fixpoint expression (fuel : nat) (p : state) {struct fuel} : Res Expr * state :=
  match fuel with
  | O => (Throw (Fatal OutOfFuel), p)
  | S n => expression_rule (expression n) (statement n) n p
  end
with statement (fuel : nat) (p : state) {struct fuel} : Res Stmt * state :=
  match fuel with
  | O => (Throw (Fatal OutOfFuel), p)
  | S n => statement_rule (expression n) (statement n) n p
  end.

(** The loop of [Parser::parse]. *)
Fixpoint parse_loop (n fuel : nat) (statements : Stmts) : P (Stmts + Expr) :=
  match n with
  | O => throw (Fatal OutOfFuel)
  | S n' =>
      e <- isAtEnd ;;
      if e then ret (inl statements)
      else
        s <- statement fuel ;;
        found <- get m_foundExpr ;;
        r <- (if found then
                match s with
                | Expression a => ret (Some a)
                | NullStmt => ret None
                | _ => throw (Fatal BadCast)
                end
              else ret None) ;;
        match r with
        | Some a => ret (inr a)
        | None =>
            modify (set_allowExpr false) ;;;
            parse_loop n' fuel (statements ++ [s])%list
        end
  end.

(** [Parser::parse] *)
Definition parse (fuel : nat) : P (Stmts + Expr) := parse_loop fuel fuel [].

End Parser.

(** * Sample programs

    Syntax trees as the parser builds them, all tokens on line 1. *)

Module Sample.

Definition tok (k : TokenType.t) (lexeme : string) : Token :=
  mkToken k lexeme 1 LiteralType.NONE.

Definition number (lexeme : string) : Expr :=
  Literal (mkToken TokenType.NUMBER lexeme 1 LiteralType.NUM).

Definition text (s : string) : Expr :=
  Literal (mkToken TokenType.STRING s 1 LiteralType.STR).

Definition true_ : Expr :=
  Literal (mkToken TokenType.TRUE "true" 1 LiteralType.TRUE).

Definition ident (name : string) : Token := tok TokenType.IDENTIFIER name.

Definition var (name : string) : Expr := Variable_ (ident name).

Definition lazy_assign (name : string) (e : Expr) : Expr :=
  Assign (ident name) (tok TokenType.EQUAL "=") e.

Definition brkt : Token := tok TokenType.LSQRBRKT "[".

Definition dots : Token := tok TokenType.DOT_DOT "..".

Definition list_of (es : list Expr) : Expr := ListExpr es brkt.

Definition index_assign (l i v : Expr) : Expr :=
  IndexAssign l i brkt (tok TokenType.EQUAL "=") v.

Definition divide (a b : Expr) : Expr :=
  Binary a (tok TokenType.DIVISON "/") b.

Definition negate (e : Expr) : Expr := Unary (tok TokenType.MINUS "-") e.

(** [while (true) { break; }] *)
Definition while_break : Stmts := [While true_ (Block [Break])].

(** [{ { 1 / 0; } x = 5; } y = 7;] *)
Definition error_in_inner_block : Stmts :=
  [Block [Block [Expression (divide (number "1") (number "0"))];
          Expression (lazy_assign "x" (number "5"))];
   Expression (lazy_assign "y" (number "7"))].

(** [1 / 0; y = 7;] *)
Definition error_at_top_level : Stmts :=
  [Expression (divide (number "1") (number "0"));
   Expression (lazy_assign "y" (number "7"))].

(** [x = [1]; x[1] = 2;] *)
Definition assign_into_singleton : Stmts :=
  [Expression (lazy_assign "x" (list_of [number "1"]));
   Expression (index_assign (var "x") (number "1") (number "2"))].

(** [x = ["a", "b"]; x[[2]] = [5]; x[1] = "z";] *)
Definition assign_after_scatter : Stmts :=
  [Expression (lazy_assign "x" (list_of [text "a"; text "b"]));
   Expression (index_assign (var "x") (list_of [number "2"]) (list_of [number "5"]));
   Expression (index_assign (var "x") (number "1") (text "z"))].

(** [x = ["a", "b"]; x[[1]] = ["c"];] *)
Definition scatter_strings : Stmts :=
  [Expression (lazy_assign "x" (list_of [text "a"; text "b"]));
   Expression (index_assign (var "x") (list_of [number "1"]) (list_of [text "c"]))].

(** [x = ["a", "b"]; x[[1]] = [5];] *)
Definition scatter_number_into_strings : Stmts :=
  [Expression (lazy_assign "x" (list_of [text "a"; text "b"]));
   Expression (index_assign (var "x") (list_of [number "1"]) (list_of [number "5"]))].

(** [x = [1, 2, 3]; x[[2, 3]] = [20, 30];] *)
Definition scatter_numbers : Stmts :=
  [Expression (lazy_assign "x" (list_of [number "1"; number "2"; number "3"]));
   Expression (index_assign (var "x") (list_of [number "2"; number "3"])
                 (list_of [number "20"; number "30"]))].


(** [1..-1..2] and [1..2..9] *)
Definition descending_range : Expr :=
  RangeExpr (number "1") (negate (number "1")) (number "2") dots.

Definition odd_numbers : Expr :=
  RangeExpr (number "1") (number "2") (number "9") dots.

(** The value of the global [name]. *)
Definition global (name : string) (i : Interpreter) : option Value :=
  match environments i !! m_global i with
  | Some env => m_values env !! name
  | None => None
  end.

(** The token streams of [a += 2 * 3;] and of [a `= a + 2 * 3;]. *)
Definition compound_tokens : list Token :=
  [ident "a"; tok TokenType.PLUS_EQUAL "+=";
   mkToken TokenType.NUMBER "2" 1 LiteralType.NUM; tok TokenType.PRODUCT "*";
   mkToken TokenType.NUMBER "3" 1 LiteralType.NUM;
   tok TokenType.SEMICOLON ";"; tok TokenType.EOF_ EmptyString].

Definition strict_tokens : list Token :=
  [ident "a"; tok TokenType.BT_EQUAL "`="; ident "a"; tok TokenType.PLUS "+";
   mkToken TokenType.NUMBER "2" 1 LiteralType.NUM; tok TokenType.PRODUCT "*";
   mkToken TokenType.NUMBER "3" 1 LiteralType.NUM;
   tok TokenType.SEMICOLON ";"; tok TokenType.EOF_ EmptyString].

(** The list literal [["a", "b"]], the interpreter after evaluating it,
    and after evaluating the index [2] next. *)
Definition letters : Expr := list_of [text "a"; text "b"].

Definition with_letters : Interpreter :=
  snd (accept 4 letters Interpreter_new).

Definition with_letters_and_index : Interpreter :=
  snd (accept 4 (number "2") with_letters).

(** The state a script leaves behind. *)
Definition after (stmts : Stmts) : Interpreter := snd (run_script 9 stmts).

(** [x = true; while (x) { x = false; continue; }] *)
Definition while_continue : Stmts :=
  [Expression (lazy_assign "x" true_);
   While (var "x")
     (Block [Expression
               (lazy_assign "x"
                  (Literal (mkToken TokenType.FALSE "false" 1 LiteralType.FALSE)));
             Continue])].

(** The interpreter after [x = [1];]. *)
Definition with_singleton : Interpreter :=
  after [Expression (lazy_assign "x" (list_of [number "1"]))].

(** [for (; 1 / 0; ) { }] *)
Definition for_with_failing_condition : Stmts :=
  [For NullExpr (divide (number "1") (number "0")) NullExpr (Block [])].

(** The token stream of [) x ; y]: a stray parenthesis opens it. *)
Definition stray_tokens : list Token :=
  [tok TokenType.RPAREN ")"; ident "x"; tok TokenType.SEMICOLON ";";
   ident "y"; tok TokenType.EOF_ EmptyString].

(** The token stream of [if (x) 1], as typed at the prompt. *)
Definition if_without_semicolon : list Token :=
  [tok TokenType.IF "if"; tok TokenType.LPAREN "("; ident "x";
   tok TokenType.RPAREN ")"; mkToken TokenType.NUMBER "1" 1 LiteralType.NUM;
   tok TokenType.EOF_ EmptyString].

End Sample.

(** * The vocabulary of the properties *)

(** The four order comparisons. *)
Definition comparison (k : TokenType.t) : bool :=
  match k with
  | TokenType.GREATER | TokenType.GT_EQUAL | TokenType.LESS
  | TokenType.LT_EQUAL => true
  | _ => false
  end.

(** An index the three tests of [verifyIndices] accept for a list of
    [size] elements. *)
Definition valid_index (size : nat) (d : Q) : bool :=
  Qltb (Qabs (d - inject_Z (lround d))) epsilon
  && (0 <? lround d)%Z
  && (Z.to_nat (lround d) <=? size)%nat.

(** The position, counted from 0, that the index [d] selects. *)
Definition position (d : Q) : nat := Z.to_nat (lround d - 1).

(** The list a range denotes: the values [first + k * step], each at
    most [end_], up to the first one that exceeds [end_]. *)
Definition range_values (first step end_ : Q) (l : list Value) : Prop :=
  (forall k : nat,
      (k < length l)%nat ->
      exists q : Q,
        l !! k = Some (VNum q) /\
        (q == first + inject_Z (Z.of_nat k) * step)%Q /\
        (q <= end_)%Q) /\
  ~ (first + inject_Z (Z.of_nat (length l)) * step <= end_)%Q.

(** The four compound assignment operators. *)
Definition compound (k : TokenType.t) : bool :=
  match k with
  | TokenType.PLUS_EQUAL | TokenType.MINUS_EQUAL | TokenType.PROD_EQUAL
  | TokenType.DIV_EQUAL => true
  | _ => false
  end.

(** The words of the specification: [a += e] becomes the strict
    assignment [a `= (a + e)], and likewise for [-=], [*=], [/=]. The
    tokens the parser makes up carry the line of the compound
    operator. *)
Definition strict_assign_form (a compound_op : Token) (e : Expr) : option Expr :=
  let strict :=
    mkToken TokenType.BT_EQUAL "`=" (getLine compound_op) LiteralType.NONE in
  let arithmetic (k : TokenType.t) (lexeme : string) :=
    mkToken k lexeme (getLine compound_op) LiteralType.NONE in
  match getType compound_op with
  | TokenType.PLUS_EQUAL =>
      Some (Assign a strict
              (Binary (Variable_ a) (arithmetic TokenType.PLUS "+") e))
  | TokenType.MINUS_EQUAL =>
      Some (Assign a strict
              (Binary (Variable_ a) (arithmetic TokenType.MINUS "-") e))
  | TokenType.PROD_EQUAL =>
      Some (Assign a strict
              (Binary (Variable_ a) (arithmetic TokenType.PRODUCT "*") e))
  | TokenType.DIV_EQUAL =>
      Some (Assign a strict
              (Binary (Variable_ a) (arithmetic TokenType.DIVISON "/") e))
  | _ => None
  end.

(** The four arithmetic operators. *)
Definition arithmetic (k : TokenType.t) : bool :=
  match k with
  | TokenType.PLUS | TokenType.MINUS | TokenType.PRODUCT
  | TokenType.DIVISON => true
  | _ => false
  end.

(** The operands an arithmetic operator works on: two numbers, with a
    divisor that is not within epsilon of 0, or two strings for [+]. *)
Definition arithmetic_operands (k : TokenType.t) (left right : Value) : Prop :=
  (exists a b : Q,
      left = VNum a /\ right = VNum b /\
      (k = TokenType.DIVISON -> ~ (Qabs b < epsilon)%Q)) \/
  (k = TokenType.PLUS /\
   exists a b : string, left = VStr a /\ right = VStr b).

(** A list whose elements all have the variant its tag names. *)
Definition homogeneous (l : list_t) : Prop :=
  Forall (fun v => elemType (Value_index v) = m_type l) (m_list l).

(** What an assignment to elements cannot change: the length and the
    tag of a list. *)
Definition shape (l : list_t) : nat * ListType := (length (m_list l), m_type l).

(** ** The parser's states and trees *)

(** The lexer ends every token vector with the [EOF_] token. *)
Definition ends_with_EOF (tokens : list Token) : bool :=
  match last tokens with
  | Some t => TokenType.eqb (getType t) TokenType.EOF_
  | None => false
  end.

(** The token under the cursor is [EOF_]: what [Parser::isAtEnd]
    answers when the cursor is inside the vector. *)
Definition at_end (p : Parser.state) : bool :=
  match Parser.m_tokens p !! Parser.m_current p with
  | Some t => TokenType.eqb (getType t) TokenType.EOF_
  | None => false
  end.

(** The states the parser works in: the token vector ends with [EOF_],
    the cursor is inside it, and a cursor on [EOF_] has a token before
    it. *)
Definition well_placed (p : Parser.state) : Prop :=
  ends_with_EOF (Parser.m_tokens p) = true /\
  (Parser.m_current p < length (Parser.m_tokens p))%nat /\
  (Parser.m_current p = 0%nat -> at_end p = false).

(** The tokens from the cursor on, [EOF_] included. *)
Definition tokens_left (p : Parser.state) : nat :=
  length (Parser.m_tokens p) - Parser.m_current p.

(** The tokens [Parser::sync] stops in front of. *)
Definition begins_statement (k : TokenType.t) : bool :=
  match k with
  | TokenType.CLASS | TokenType.IF | TokenType.WHILE | TokenType.FOR
  | TokenType.FUNCTION | TokenType.RETURN => true
  | _ => false
  end.

(** Where parsing can resume after an error: at the end, behind a
    semicolon, or in front of a token that begins a statement. *)
Definition statement_boundary (p : Parser.state) : bool :=
  at_end p
  || match Parser.m_tokens p !! (Parser.m_current p - 1)%nat with
     | Some t => TokenType.eqb (getType t) TokenType.SEMICOLON
     | None => false
     end
  || match Parser.m_tokens p !! Parser.m_current p with
     | Some t => begins_statement (getType t)
     | None => false
     end.

Definition is_null (e : Expr) : bool :=
  match e with NullExpr => true | _ => false end.

Definition is_null_stmt (s : Stmt) : bool :=
  match s with NullStmt => true | _ => false end.

(** A pointer the evaluator tests before it follows it. *)
Definition or_null {A : Type} (null complete : A -> bool) (a : A) : bool :=
  if null a then true else complete a.

(** A tree is complete when every pointer the evaluator follows
    without a test is set, all the way down. The pointers it tests
    may be null: the step of a range, the else branch, the
    initialisation and the increment of a [for], the value of a
    [return]. The head of a ranged [for] is an [InExpr], as
    [visit(const RangedFor&)] casts it to one. *)
Fixpoint complete_expr (e : Expr) : bool :=
  match e with
  | NullExpr => false
  | Binary l _ r => complete_expr l && complete_expr r
  | Unary _ r => complete_expr r
  | ParenGroup e' => complete_expr e'
  | Literal _ => true
  | Variable_ _ => true
  | Logical l _ r => complete_expr l && complete_expr r
  | Assign _ _ v => complete_expr v
  | Call c _ args => complete_expr c && forallb complete_expr args
  | Lambda _ body => forallb complete_stmt body
  | ListExpr es _ => forallb complete_expr es
  | Index _ l i => complete_expr l && complete_expr i
  | RangeExpr a s b _ =>
      complete_expr a && or_null is_null complete_expr s && complete_expr b
  | IndexAssign l i _ _ v =>
      complete_expr l && complete_expr i && complete_expr v
  | InExpr _ _ it => complete_expr it
  end
with complete_stmt (s : Stmt) : bool :=
  match s with
  | NullStmt => false
  | Expression e => complete_expr e
  | Block ss => forallb complete_stmt ss
  | If c t f =>
      complete_expr c && complete_stmt t
      && or_null is_null_stmt complete_stmt f
  | While c b => complete_expr c && complete_stmt b
  | For i c u b =>
      or_null is_null complete_expr i && complete_expr c
      && or_null is_null complete_expr u && complete_stmt b
  | RangedFor x b =>
      match x with InExpr _ _ _ => complete_expr x | _ => false end
      && complete_stmt b
  | Break => true
  | Continue => true
  | Func _ _ body => forallb complete_stmt body
  | Return _ v => or_null is_null complete_expr v
  end.

(** Nothing was reported between two states. *)
Definition quiet (p p' : Parser.state) : Prop :=
  length (Parser.errors p') = length (Parser.errors p).

(** What no rule of the parser changes, and what it changes in one
    direction only: the tokens, the loop depth and the mode stay, the
    cursor and the diagnostics only grow, and [m_foundExpr] stays
    unless expressions are allowed. *)
Definition follows (p p' : Parser.state) : Prop :=
  Parser.m_tokens p' = Parser.m_tokens p /\
  (Parser.m_current p <= Parser.m_current p')%nat /\
  (length (Parser.errors p) <= length (Parser.errors p'))%nat /\
  Parser.m_loopDepth p' = Parser.m_loopDepth p /\
  Parser.m_allowExpr p' = Parser.m_allowExpr p /\
  (Parser.m_allowExpr p = false ->
   Parser.m_foundExpr p' = Parser.m_foundExpr p).

(** The outcome [x] of a rule started in [p]: the state follows [p]
    and is well placed; a returned value satisfies [post]; a
    [ParseError] is thrown only by rules that may fail, and only
    after a diagnostic; nothing else is thrown. *)
Definition sound {A : Type} (may_fail : bool) (p : Parser.state)
  (post : A -> Parser.state -> Prop) (x : Parser.Res A * Parser.state) : Prop :=
  follows p (snd x) /\ well_placed (snd x) /\
  match fst x with
  | Parser.Ok a => post a (snd x)
  | Parser.Throw (Parser.ParseError _) =>
      may_fail = true /\
      (length (Parser.errors p) < length (Parser.errors (snd x)))%nat
  | Parser.Throw (Parser.Fatal _) => False
  end.

(** The shapes of [post]. *)
Definition moved (p : Parser.state) {A : Type} (_ : A) (p' : Parser.state)
  : Prop :=
  (Parser.m_current p < Parser.m_current p')%nat.

Definition moved_if (p : Parser.state) (r : bool) (p' : Parser.state) : Prop :=
  if r then (Parser.m_current p < Parser.m_current p')%nat else p' = p.

Definition advanced (p : Parser.state) {A : Type} (_ : A) (p' : Parser.state)
  : Prop :=
  at_end p = false -> (Parser.m_current p < Parser.m_current p')%nat.

Definition gives {A : Type} (complete : A -> bool) (p : Parser.state) (a : A)
  (p' : Parser.state) : Prop :=
  quiet p p' -> complete a = true.

Definition parsed {A : Type} (complete : A -> bool) (p : Parser.state) (a : A)
  (p' : Parser.state) : Prop :=
  moved p a p' /\ gives complete p a p'.

Definition parsed_statement (p : Parser.state) (s : Stmt) (p' : Parser.state)
  : Prop :=
  advanced p s p' /\ gives complete_stmt p s p'.

Definition grown {A : Type} (complete : A -> bool) (before : A)
  (p : Parser.state) (a : A) (p' : Parser.state) : Prop :=
  quiet p p' -> complete before = true -> complete a = true.

Definition grown_option (before : Expr) (p : Parser.state) (r : option Expr)
  (p' : Parser.state) : Prop :=
  quiet p p' -> complete_expr before = true ->
  match r with
  | Some e => complete_expr e = true
  | None => True
  end.

(** The binary operators by the rule that parses them, from [lor]
    (1) down to [exponentiation] (7): the higher the number, the
    tighter the operator binds. *)
Definition binding (k : TokenType.t) : option nat :=
  match k with
  | TokenType.OR => Some 1%nat
  | TokenType.AND => Some 2%nat
  | TokenType.NOT_EQUAL | TokenType.EQ_EQUAL => Some 3%nat
  | TokenType.GREATER | TokenType.GT_EQUAL | TokenType.LESS
  | TokenType.LT_EQUAL => Some 4%nat
  | TokenType.PLUS | TokenType.MINUS => Some 5%nat
  | TokenType.PRODUCT | TokenType.DIVISON => Some 6%nat
  | TokenType.EXPONENTATION => Some 7%nat
  | _ => None
  end.

(** The node of a binary operator: [Logical] for [or] and [and],
    [Binary] for the others. *)
Definition binary_node (l : Expr) (op : Token) (r : Expr) : Expr :=
  match getType op with
  | TokenType.OR | TokenType.AND => Logical l op r
  | _ => Binary l op r
  end.

(** In [x o1 y o2 z] the right operator takes [y] when it binds
    tighter, and when both are [^]. *)
Definition right_first (l1 l2 : nat) : bool :=
  (l1 <? l2)%nat || ((l1 =? 7)%nat && (l2 =? 7)%nat).

Definition literal_token (k : TokenType.t) : bool :=
  match k with
  | TokenType.TRUE | TokenType.FALSE | TokenType.NIX | TokenType.NUMBER
  | TokenType.STRING => true
  | _ => false
  end.

(** The six assignment operators. *)
Definition assigns (k : TokenType.t) : bool :=
  match k with
  | TokenType.EQUAL | TokenType.BT_EQUAL => true
  | _ => compound k
  end.

(** * Properties *)

(** ** Literals *)

Example strtold_fraction : strtold "12.5" == (25 # 2).
Proof. reflexivity. Qed.

Example strtold_exponent : strtold ".5e-1" == (1 # 20).
Proof. reflexivity. Qed.

(** ** Numbers *)

Lemma Qltb_lt (x y : Q) : Qltb x y = true <-> (x < y)%Q.
Proof.
  unfold Qltb. rewrite negb_true_iff. split; intros H.
  - apply Qnot_le_lt. intros Hle. apply Qle_bool_iff in Hle. congruence.
  - destruct (Qle_bool y x) eqn:E; [|reflexivity].
    apply Qle_bool_iff in E. exfalso. exact (Qlt_not_le _ _ H E).
Qed.

Lemma Qltb_ge (x y : Q) : Qltb x y = false <-> (y <= x)%Q.
Proof.
  unfold Qltb. rewrite negb_false_iff. apply Qle_bool_iff.
Qed.

Lemma isEqual_num_spec (a b : Q) :
  isEqual_num a b = true <-> (Qabs (a - b) < epsilon)%Q.
Proof. apply Qltb_lt. Qed.

Lemma epsilon_pos : (0 < epsilon)%Q.
Proof. reflexivity. Qed.

(** ** Comparison operators *)

(** C8, at a number the rationals miss. [x = 10 ^ 5000] is infinite in
    [long double]. The difference of two equal infinities is NaN,
    which is not below epsilon, so [isEqual] denies that [x] equals
    itself, and the strict comparison that follows is false as well:
    [x >= x] and [x <= x] both give [false], although in the numeric
    order ([SFleb]) an infinity is at least and at most itself. *)
Theorem infinity_is_not_at_least_itself :
  forall (prec emax : Z) (eps : SpecFloat.spec_float) (negative : bool),
    let x := SpecFloat.S754_infinity negative in
    isEqual_ld prec emax eps x x = false /\
    comparison_ld prec emax eps TokenType.GT_EQUAL x x = Some false /\
    comparison_ld prec emax eps TokenType.LT_EQUAL x x = Some false /\
    SpecFloat.SFleb x x = true.
Proof.
  intros prec emax eps [|]; cbv zeta; repeat split; reflexivity.
Qed.

(** ** Indexing *)

Lemma verifyIndex_valid (size : nat) (op : Token) (d : Q) (i : Interpreter) :
  valid_index size d = true -> verifyIndex size op d i = (Ok tt, i).
Proof.
  unfold valid_index, verifyIndex. intros H.
  apply andb_prop in H as [H H3]. apply andb_prop in H as [H1 H2].
  rewrite H1. cbn [negb].
  apply Z.ltb_lt in H2. apply Nat.leb_le in H3.
  destruct (lround d <=? 0)%Z eqn:E1; [apply Z.leb_le in E1; lia|].
  destruct (size <? Z.to_nat (lround d))%nat eqn:E2;
    [apply Nat.ltb_lt in E2; lia|].
  reflexivity.
Qed.

Lemma verifyIndex_invalid (size : nat) (op : Token) (d : Q) (i : Interpreter) :
  valid_index size d = false ->
  exists msg, verifyIndex size op d i = (Throw (RuntimeError op msg), i).
Proof.
  unfold valid_index, verifyIndex. intros H.
  destruct (Qltb (Qabs (d - inject_Z (lround d))) epsilon); cbn [negb];
    [|eexists; reflexivity].
  destruct (lround d <=? 0)%Z eqn:E1; [eexists; reflexivity|].
  destruct (size <? Z.to_nat (lround d))%nat eqn:E2; [eexists; reflexivity|].
  exfalso. apply Z.leb_gt in E1. apply Nat.ltb_ge in E2.
  cbn [andb] in H.
  assert (H2 : (0 <? lround d)%Z = true) by (apply Z.ltb_lt; lia).
  assert (H3 : (Z.to_nat (lround d) <=? size)%nat = true)
    by (apply Nat.leb_le; lia).
  rewrite H2, H3 in H. discriminate H.
Qed.





Lemma verifyIndices_scalar (lp : list_ptr) (L : list_t) (d : Q) (op : Token)
  (i : Interpreter) :
  lists i !! lp = Some L ->
  verifyIndices lp (VNum d) op i = verifyIndex (length (m_list L)) op d i.
Proof.
  intros H. unfold verifyIndices, bind, deref_list. rewrite H. reflexivity.
Qed.






(** ** Index assignment *)

(** C10. A single valid index into a list of exactly one element is 1,
    and the type check of the assignment then reads the element at
    position 2 (offset 1), which does not exist: the lookup gives
    [None] and the evaluation ends in undefined behaviour instead of a
    verdict of the type check. *)
Theorem index_assign_singleton_out_of_bounds :
  forall (accept : Expr -> M unit) (le ie ve : Expr) (iop op : Token)
         (i i1 i2 i3 : Interpreter) (lp : list_ptr) (d : Q) (L2 L : list_t),
    accept le i = (Ok tt, i1) ->
    m_val i1 = VList lp ->
    accept ie i1 = (Ok tt, i2) ->
    m_val i2 = VNum d ->
    lists i2 !! lp = Some L2 ->
    length (m_list L2) = 1 ->
    valid_index (length (m_list L2)) d = true ->
    accept ve i2 = (Ok tt, i3) ->
    lists i3 !! lp = Some L ->
    length (m_list L) = 1 ->
    lround d = 1%Z /\
    m_list L !! 1 = None /\
    visit_IndexAssign accept le ie iop op ve i = (Throw (Fatal OutOfBounds), i3).
Proof.
  intros accept le ie ve iop op i i1 i2 i3 lp d L2 L
    Hl Hv Hi Hd HL2 Hlen2 Hvalid Hve HL Hlen.
  assert (Hnone : m_list L !! 1 = None) by (apply lookup_ge_None; lia).
  split; [|split].
  - rewrite Hlen2 in Hvalid. unfold valid_index in Hvalid.
    apply andb_prop in Hvalid as [H H3]. apply andb_prop in H as [_ H2].
    apply Z.ltb_lt in H2. apply Nat.leb_le in H3. lia.
  - exact Hnone.
  - unfold visit_IndexAssign, bind, get. rewrite Hl. cbv beta iota.
    rewrite Hv, Hi. cbv beta iota. rewrite Hd.
    rewrite (verifyIndices_scalar lp L2 d iop i2 HL2).
    rewrite (verifyIndex_valid _ _ _ _ Hvalid). rewrite Hve.
    cbv beta iota. unfold deref_list. rewrite HL.
    unfold subscript.
    change (1 <? 0)%Z with false. change (Z.to_nat 1) with 1%nat.
    cbv beta iota. rewrite Hnone. reflexivity.
Qed.

Lemma index_assign_singleton_out_of_bounds_witness :
  accept 4 (Sample.var "x") Sample.with_singleton
  = (Ok tt, set_val (VList 0) Sample.with_singleton) /\
  accept 4 (Sample.number "1") (set_val (VList 0) Sample.with_singleton)
  = (Ok tt, set_val (VNum 1) Sample.with_singleton) /\
  lists Sample.with_singleton !! 0 = Some (mkList [VNum 1] numList) /\
  valid_index 1 1 = true /\
  accept 4 (Sample.number "2") (set_val (VNum 1) Sample.with_singleton)
  = (Ok tt, set_val (VNum 2) Sample.with_singleton) /\
  visit_IndexAssign (accept 4) (Sample.var "x") (Sample.number "1") Sample.brkt
    (Sample.tok TokenType.EQUAL "=") (Sample.number "2") Sample.with_singleton
  = (Throw (Fatal OutOfBounds), set_val (VNum 2) Sample.with_singleton).
Proof.
  repeat (split; [reflexivity|]).
  apply (index_assign_singleton_out_of_bounds (accept 4) (Sample.var "x")
           (Sample.number "1") (Sample.number "2") Sample.brkt
           (Sample.tok TokenType.EQUAL "=") Sample.with_singleton
           (set_val (VList 0) Sample.with_singleton)
           (set_val (VNum 1) Sample.with_singleton)
           (set_val (VNum 2) Sample.with_singleton)
           0 1%Q (mkList [VNum 1] numList) (mkList [VNum 1] numList));
    reflexivity.
Defined.

(** C3, at two inputs. [x = [1]; x[1] = 2;] assigns a number into a
    number list and ends in undefined behaviour, the list untouched.
    After [x = ["a", "b"]; x[[2]] = [5];] the list tagged as a string
    list holds a number at position 2, and [x[1] = "z"], a string into
    a string list, raises the type mismatch. *)
Theorem scalar_index_assign_type_check :
  fst (run_script 9 Sample.assign_into_singleton) = Throw (Fatal OutOfBounds) /\
  lists (Sample.after Sample.assign_into_singleton) = [mkList [VNum 1] numList] /\
  lists (Sample.after Sample.assign_after_scatter) !! 0
  = Some (mkList [VStr "a"; VNum 5] (elemType StrV)) /\
  reported (Sample.after Sample.assign_after_scatter)
  = [(Sample.brkt, "Type mismatch for list assignment.")].
Proof. repeat split; vm_compute; reflexivity. Qed.

(** C4, at two inputs. [x = ["a", "b"]; x[[1]] = ["c"];] has a
    right-hand side with the tag and the length the specification asks
    for,
    and raises the type mismatch, the list untouched.
    [x = ["a", "b"]; x[[1]] = [5];] has a right-hand side with another
    tag than the list, and succeeds, leaving a number in the string
    list. *)
Theorem scatter_type_check :
  reported (Sample.after Sample.scatter_strings)
  = [(Sample.tok TokenType.EQUAL "=", "Type mismatch for list assignment.")] /\
  lists (Sample.after Sample.scatter_strings) !! 0
  = Some (mkList [VStr "a"; VStr "b"] (elemType StrV)) /\
  fst (run_script 9 Sample.scatter_number_into_strings) = Ok tt /\
  reported (Sample.after Sample.scatter_number_into_strings) = [] /\
  lists (Sample.after Sample.scatter_number_into_strings) !! 0
  = Some (mkList [VNum 5; VStr "b"] (elemType StrV)).
Proof. repeat split; vm_compute; reflexivity. Qed.

(** The scenario of the specification:
    [x = [1, 2, 3]; x[[2, 3]] = [20, 30];] leaves [[1, 20, 30]]. *)
Example scatter_numbers_in_order :
  lists (Sample.after Sample.scatter_numbers) !! 0
  = Some (mkList [VNum 1; VNum 20; VNum 30] numList).
Proof. vm_compute. reflexivity. Qed.

(** ** Scopes and non-local exits *)

(** What [executeBlock] does with each way its statements can end. *)
Lemma executeBlock_unwind (execute : Stmt -> M unit) (stmts : Stmts)
  (env : Env_ptr) (i : Interpreter) :
  executeBlock execute stmts env i =
  match execute_all execute stmts (set_env env i) with
  | (Ok _, i') => (Ok tt, set_env (m_env i) i')
  | (Throw (RuntimeError t msg), i') =>
      (Ok tt, runtimeError t msg (set_env (m_env i) i'))
  | (Throw (ReturnThrow v), i') => (Throw (ReturnThrow v), set_env (m_env i) i')
  | (Throw e, i') => (Throw e, i')
  end.
Proof.
  unfold executeBlock, try_catch, bind, get, modify.
  destruct (execute_all execute stmts (set_env env i)) as [[[]|e] i'];
    [reflexivity|].
  destruct e; reflexivity.
Qed.

Lemma execute_all_app (execute : Stmt -> M unit) (pre post : Stmts)
  (i i1 : Interpreter) :
  execute_all execute pre i = (Ok tt, i1) ->
  execute_all execute (pre ++ post) i = execute_all execute post i1.
Proof.
  revert i. induction pre as [|s pre IH]; intros i H.
  - cbn in H. injection H as <-. reflexivity.
  - cbn [app execute_all] in *. unfold bind in *.
    destruct (execute s i) as [[[]|e] i']; [|discriminate H].
    apply IH, H.
Qed.

Lemma execute_all_throw (execute : Stmt -> M unit) (pre post : Stmts)
  (s : Stmt) (e : Thrown) (i i1 i2 : Interpreter) :
  execute_all execute pre i = (Ok tt, i1) ->
  execute s i1 = (Throw e, i2) ->
  execute_all execute (pre ++ s :: post) i = (Throw e, i2).
Proof.
  intros Hpre Hs. rewrite (execute_all_app _ _ _ _ _ Hpre).
  cbn [execute_all]. unfold bind. rewrite Hs. reflexivity.
Qed.

(** C1, at three inputs. After [while (true) { break; }] and after
    [x = true; while (x) { x = false; continue; }] the loop has ended
    normally and the current environment is still the one of the
    loop's block (address 1), not the one that was current when the
    loop began (address 0): [executeBlock] puts the environment back
    for a runtime error and for [return], and lets [break] and
    [continue] pass. After [for (; 1 / 0; ) { }] the runtime error has
    left the loop and has been reported, and the current environment
    is still the one of the loop: [visit_For] puts the environment
    back at its normal end only. *)
Theorem unwinds_leave_inner_environment :
  m_env Interpreter_new = 0 /\
  fst (run_script 9 Sample.while_break) = Ok tt /\
  m_env (Sample.after Sample.while_break) = 1 /\
  fst (run_script 9 Sample.while_continue) = Ok tt /\
  m_env (Sample.after Sample.while_continue) = 1 /\
  length (reported (Sample.after Sample.for_with_failing_condition)) = 1 /\
  m_env (Sample.after Sample.for_with_failing_condition) = 1.
Proof. repeat split; vm_compute; reflexivity. Qed.

(** C2, contradicted at two inputs. In [{ { 1 / 0; } x = 5; } y = 7;]
    the error is raised inside the first top-level statement, and the
    rest of that statement still runs: [x] is 5 afterwards. In
    [1 / 0; y = 7;] nothing runs after the error: [y] has no value.
    Each time one error is reported. *)
Lemma error_neither_aborts_statement_nor_resumes :
  Sample.global "x" (Sample.after Sample.error_in_inner_block) = Some (VNum 5) /\
  length (reported (Sample.after Sample.error_in_inner_block)) = 1 /\
  Sample.global "y" (Sample.after Sample.error_at_top_level) = None /\
  length (reported (Sample.after Sample.error_at_top_level)) = 1.
Proof. repeat split; vm_compute; reflexivity. Qed.

(** C2, as amended. Let the statement [s] raise a runtime error after
    the statements [pre] ran normally.
    - At the top level ([interpret]) the error is reported once and the
      run ends: whatever statements [post] follow, none of them runs.
    - Inside a block ([executeBlock]) the rest [post] of that block is
      skipped, the environment the block was entered from is put back,
      the error is reported once, and the block ends normally, so that
      what follows the block runs. *)
Theorem runtime_error_policy :
  forall (execute : Stmt -> M unit) (pre post : Stmts) (s : Stmt) (t : Token)
         (msg : string) (i i1 i2 : Interpreter),
    execute_all execute pre i = (Ok tt, i1) ->
    execute s i1 = (Throw (RuntimeError t msg), i2) ->
    interpret execute (pre ++ s :: post) i = (Ok tt, runtimeError t msg i2) /\
    reported (runtimeError t msg i2) = (reported i2 ++ [(t, msg)])%list /\
    (forall (i0 : Interpreter) (env : Env_ptr),
        i = set_env env i0 ->
        executeBlock execute (pre ++ s :: post) env i0
        = (Ok tt, runtimeError t msg (set_env (m_env i0) i2))).
Proof.
  intros execute pre post s t msg i i1 i2 Hpre Hs.
  pose proof (execute_all_throw execute pre post s _ i i1 i2 Hpre Hs) as Hall.
  split; [|split].
  - unfold interpret, try_catch. rewrite Hall. reflexivity.
  - reflexivity.
  - intros i0 env ->. rewrite executeBlock_unwind, Hall. reflexivity.
Qed.

Lemma runtime_error_policy_witness :
  execute_all (execute 9) [] Interpreter_new = (Ok tt, Interpreter_new) /\
  execute 9 (Expression (Sample.divide (Sample.number "1") (Sample.number "0")))
    Interpreter_new
  = (Throw (RuntimeError (Sample.tok TokenType.DIVISON "/") "Cannot divide by 0!"),
     set_val (VNum 0) Interpreter_new) /\
  interpret (execute 9) Sample.error_at_top_level Interpreter_new
  = (Ok tt,
     runtimeError (Sample.tok TokenType.DIVISON "/") "Cannot divide by 0!"
       (set_val (VNum 0) Interpreter_new)).
Proof.
  repeat (split; [reflexivity|]).
  exact (proj1 (runtime_error_policy (execute 9) []
                  [Expression (Sample.lazy_assign "y" (Sample.number "7"))]
                  (Expression (Sample.divide (Sample.number "1")
                                 (Sample.number "0")))
                  (Sample.tok TokenType.DIVISON "/") "Cannot divide by 0!"
                  Interpreter_new Interpreter_new
                  (set_val (VNum 0) Interpreter_new) eq_refl eq_refl)).
Defined.

(** ** Ranges *)

(** With a step that is not positive and a start that does not exceed
    the end, the loop never leaves: no fuel suffices. *)
Lemma rangeLoop_diverges (n : nat) (i end_ step : Q) (l : list Value) :
  (step <= 0)%Q -> (i <= end_)%Q -> rangeLoop n i end_ step l = None.
Proof.
  intros Hstep. revert i l.
  induction n as [|n IH]; intros i l Hi; [reflexivity|].
  cbn [rangeLoop].
  assert (E : Qle_bool i end_ = true) by (apply Qle_bool_iff; exact Hi).
  rewrite E. apply IH. lra.
Qed.

Lemma inject_Z_succ (k : nat) :
  (inject_Z (Z.of_nat (S k)) == inject_Z (Z.of_nat k) + 1)%Q.
Proof.
  rewrite Nat2Z.inj_succ. unfold Z.succ. rewrite inject_Z_plus. reflexivity.
Qed.

Lemma range_values_cons (i step end_ : Q) (l : list Value) :
  (i <= end_)%Q ->
  range_values (i + step) step end_ l ->
  range_values i step end_ (VNum i :: l).
Proof.
  intros Hi [Hk Hend]. split.
  - intros [|k] Hlt.
    + exists i. split; [reflexivity|]. split; [|exact Hi].
      change (inject_Z (Z.of_nat 0)) with 0%Q. ring.
    + cbn [length] in Hlt.
      destruct (Hk k ltac:(lia)) as [q [Hq [Heq Hle]]].
      exists q. split; [exact Hq|]. split; [|exact Hle].
      rewrite Heq, inject_Z_succ. ring.
  - cbn [length]. intros H. apply Hend.
    rewrite inject_Z_succ in H.
    setoid_replace (i + step + inject_Z (Z.of_nat (length l)) * step)%Q
      with (i + (inject_Z (Z.of_nat (length l)) + 1) * step)%Q
      using relation Qeq by ring.
    exact H.
Qed.

Lemma range_values_nil (i step end_ : Q) :
  ~ (i <= end_)%Q -> range_values i step end_ [].
Proof.
  intros H. split.
  - intros k Hk. cbn in Hk. lia.
  - cbn [length]. change (inject_Z (Z.of_nat 0)) with 0%Q.
    intros Hc. apply H. lra.
Qed.

(** With a positive step the loop ends after at most [m] rounds when
    [m] steps lead beyond the end. *)
Lemma rangeLoop_terminates (step end_ : Q) :
  (0 < step)%Q ->
  forall (m : nat) (i : Q) (acc : list Value) (n : nat),
    (end_ - i < inject_Z (Z.of_nat m) * step)%Q ->
    (m < n)%nat ->
    exists l,
      rangeLoop n i end_ step acc = Some (acc ++ l)%list /\
      range_values i step end_ l.
Proof.
  intros Hstep. induction m as [|m IH]; intros i acc n Hm Hn.
  - destruct n as [|n]; [lia|]. cbn [rangeLoop].
    change (inject_Z (Z.of_nat 0)) with 0%Q in Hm.
    destruct (Qle_bool i end_) eqn:E.
    + apply Qle_bool_iff in E. lra.
    + exists []. split; [rewrite app_nil_r; reflexivity|].
      apply range_values_nil. intros Hc. apply Qle_bool_iff in Hc. congruence.
  - destruct n as [|n]; [lia|]. cbn [rangeLoop].
    destruct (Qle_bool i end_) eqn:E.
    + apply Qle_bool_iff in E.
      rewrite inject_Z_succ in Hm.
      destruct (IH (i + step)%Q (acc ++ [VNum i])%list n) as [l [Hl Hv]];
        [lra|lia|].
      exists (VNum i :: l). split.
      * rewrite Hl. rewrite <- app_assoc. reflexivity.
      * apply range_values_cons; assumption.
    + exists []. split; [rewrite app_nil_r; reflexivity|].
      apply range_values_nil. intros Hc. apply Qle_bool_iff in Hc. congruence.
Qed.

(** More fuel does not change a result. *)
Lemma rangeLoop_mono (n : nat) (i end_ step : Q) (acc r : list Value) :
  rangeLoop n i end_ step acc = Some r ->
  forall n' : nat, (n <= n')%nat -> rangeLoop n' i end_ step acc = Some r.
Proof.
  revert i acc. induction n as [|n IH]; intros i acc H n' Hn;
    [discriminate H|].
  destruct n' as [|n']; [lia|]. cbn [rangeLoop] in *.
  destruct (Qle_bool i end_); [|exact H].
  apply IH; [exact H|lia].
Qed.

(** Enough steps lead beyond any end. *)
Lemma steps_beyond (first step end_ : Q) :
  (0 < step)%Q ->
  exists m : nat, (end_ - first < inject_Z (Z.of_nat m) * step)%Q.
Proof.
  intros Hstep.
  exists (Z.to_nat (Qfloor ((end_ - first) / step) + 1)).
  pose proof (Qlt_floor ((end_ - first) / step)) as Hfl.
  assert (Hmax : (inject_Z (Qfloor ((end_ - first) / step) + 1)
                  <= inject_Z (Z.of_nat
                       (Z.to_nat (Qfloor ((end_ - first) / step) + 1))))%Q).
  { rewrite <- Zle_Qle. lia. }
  assert (Hlt : ((end_ - first) / step
                 < inject_Z (Z.of_nat
                      (Z.to_nat (Qfloor ((end_ - first) / step) + 1))))%Q)
    by lra.
  apply Qle_lt_trans with (y := ((end_ - first) / step * step)%Q).
  - apply Qle_lteq. right. field. lra.
  - apply Qmult_lt_r; assumption.
Qed.

(** [visit_RangeExpr] once its three operands are evaluated to
    numbers and the step has passed the zero test. *)
Lemma visit_RangeExpr_run (accept : Expr -> M unit) (fuel : nat)
  (a s b : Expr) (op : Token) (i i1 i2 i3 : Interpreter) (first step end_ : Q) :
  accept a i = (Ok tt, i1) ->
  m_val i1 = VNum first ->
  match s with
  | NullExpr => i2 = i1 /\ step = 1%Q
  | _ => accept s i1 = (Ok tt, i2) /\ m_val i2 = VNum step
  end ->
  isEqual_num step 0 = false ->
  accept b i2 = (Ok tt, i3) ->
  m_val i3 = VNum end_ ->
  visit_RangeExpr accept fuel a s b op i =
  match rangeLoop fuel first end_ step [] with
  | Some l =>
      (Ok tt,
       set_val (VList (length (lists i3)))
         (set_lists (lists i3 ++ [mkList l numList]) i3))
  | None => (Throw (Fatal OutOfFuel), i3)
  end.
Proof.
  intros Ha Hfirst Hs Hz Hb Hend.
  unfold visit_RangeExpr, bind, get, ret. rewrite Ha. cbv beta iota.
  rewrite Hfirst.
  destruct s;
    [ destruct Hs as [-> ->]
    | destruct Hs as [Hs Hstep]; rewrite Hs; cbv beta iota;
      rewrite Hstep, Hz .. ];
    cbv beta iota; rewrite Hb; cbv beta iota; rewrite Hend;
    destruct (rangeLoop fuel first end_ _ []); reflexivity.
Qed.

(** The scenario of the specification: [1..2..9] is [[1, 3, 5, 7, 9]]. *)
Example odd_numbers_range :
  lists (snd (accept 9 Sample.odd_numbers Interpreter_new))
  = [mkList [VNum 1; VNum 3; VNum 5; VNum 7; VNum 9] numList].
Proof. vm_compute. reflexivity. Qed.

(** C5, at [1..-1..2]: the three operands are numbers and the step is
    not epsilon-equal to 0, and yet the range has no result, whatever
    the fuel: the loop adds the step and tests [<=] for ever, so no
    list is ever made. *)
Lemma descending_range_has_no_result :
  isEqual_num (-1) 0 = false /\
  ~ exists (fuel : nat) (i' : Interpreter),
      visit_RangeExpr (accept 3) fuel (Sample.number "1")
        (Sample.negate (Sample.number "1")) (Sample.number "2") Sample.dots
        Interpreter_new
      = (Ok tt, i').
Proof.
  split; [reflexivity|]. intros [fuel [i' H]].
  rewrite (visit_RangeExpr_run (accept 3) fuel (Sample.number "1")
             (Sample.negate (Sample.number "1")) (Sample.number "2")
             Sample.dots Interpreter_new
             (set_val (VNum 1) Interpreter_new)
             (set_val (VNum (-1)) Interpreter_new)
             (set_val (VNum 2) Interpreter_new) 1 (-1) 2
             eq_refl eq_refl (conj eq_refl eq_refl) eq_refl eq_refl eq_refl)
    in H.
  rewrite rangeLoop_diverges in H; [discriminate H|lra|lra].
Qed.

(** C6, at [1..-1..2]: the step is negative and the start does not
    exceed the end; the loop adds the step and tests [<=] for ever, so
    the evaluation ends for no amount of fuel. *)
Theorem descending_range_diverges :
  forall fuel : nat,
    fst (accept fuel Sample.descending_range Interpreter_new)
    = Throw (Fatal OutOfFuel).
Proof.
  intros [|[|[|n]]]; try reflexivity.
  change (accept (S (S (S n))) Sample.descending_range Interpreter_new)
    with (visit_RangeExpr (accept (S (S n))) (S (S n)) (Sample.number "1")
            (Sample.negate (Sample.number "1")) (Sample.number "2")
            Sample.dots Interpreter_new).
  rewrite (visit_RangeExpr_run (accept (S (S n))) (S (S n)) (Sample.number "1")
             (Sample.negate (Sample.number "1")) (Sample.number "2")
             Sample.dots Interpreter_new
             (set_val (VNum 1) Interpreter_new)
             (set_val (VNum (-1)) Interpreter_new)
             (set_val (VNum 2) Interpreter_new) 1 (-1) 2
             eq_refl eq_refl (conj eq_refl eq_refl) eq_refl eq_refl eq_refl).
  rewrite rangeLoop_diverges; [reflexivity|lra|lra].
Qed.

(** ** Compound assignment *)

(** The helpers of the parser in front of a token [t] that is not the
    end of the stream. *)
Section AtToken.

Variable p : Parser.state.
Variable t : Token.
Hypothesis Htok : Parser.m_tokens p !! Parser.m_current p = Some t.
Hypothesis Hnot_end : TokenType.eqb (getType t) TokenType.EOF_ = false.

Lemma peek_at : Parser.peek p = (Parser.Ok t, p).
Proof.
  unfold Parser.peek, Parser.bind, Parser.get, Parser.token_at.
  rewrite Htok. reflexivity.
Qed.

Lemma isAtEnd_at : Parser.isAtEnd p = (Parser.Ok false, p).
Proof.
  unfold Parser.isAtEnd, Parser.bind, Parser.ret. rewrite peek_at, Hnot_end.
  reflexivity.
Qed.

Lemma isNextType_at (k : TokenType.t) :
  Parser.isNextType k p = (Parser.Ok (TokenType.eqb (getType t) k), p).
Proof.
  unfold Parser.isNextType, Parser.bind, Parser.ret.
  rewrite isAtEnd_at, peek_at. reflexivity.
Qed.

Lemma previous_after :
  Parser.previous (Parser.set_current (S (Parser.m_current p)) p)
  = (Parser.Ok t, Parser.set_current (S (Parser.m_current p)) p).
Proof.
  unfold Parser.previous, Parser.bind, Parser.get, Parser.token_at.
  cbn [Parser.m_current Parser.m_tokens Parser.set_current].
  rewrite Htok. reflexivity.
Qed.

Lemma advance_at :
  Parser.advance p
  = (Parser.Ok t, Parser.set_current (S (Parser.m_current p)) p).
Proof.
  unfold Parser.advance, Parser.bind, Parser.ret, Parser.modify.
  rewrite isAtEnd_at. apply previous_after.
Qed.

Lemma match_any_none (types : list TokenType.t) :
  forallb (fun k => negb (TokenType.eqb (getType t) k)) types = true ->
  Parser.match_any types p = (Parser.Ok false, p).
Proof.
  induction types as [|k types IH]; intros H; [reflexivity|].
  cbn [forallb] in H. apply andb_prop in H as [Hk Hrest].
  apply negb_true_iff in Hk.
  cbn [Parser.match_any]. unfold Parser.bind.
  rewrite isNextType_at, Hk. apply IH, Hrest.
Qed.

Lemma match_any_some (types : list TokenType.t) :
  existsb (TokenType.eqb (getType t)) types = true ->
  Parser.match_any types p
  = (Parser.Ok true, Parser.set_current (S (Parser.m_current p)) p).
Proof.
  induction types as [|k types IH]; intros H; [discriminate H|].
  cbn [existsb] in H.
  cbn [Parser.match_any]. unfold Parser.bind, Parser.ret.
  rewrite isNextType_at.
  destruct (TokenType.eqb (getType t) k).
  - rewrite advance_at. reflexivity.
  - apply IH, H.
Qed.

End AtToken.

(** C9. When the left-hand side parses to the plain identifier [a],
    the next token is one of [+=], [-=], [*=], [/=] and the right-hand
    side parses to [e], [Parser::assignment] returns exactly the tree
    of the strict assignment [a `= (a + e)] (respectively [-], [*],
    [/]). The tree holds no trace of the compound operator, so the
    evaluator runs it as the strict assignment it is: [accept]
    dispatches to [visit_Assign] with the operator [`=]. *)
Theorem compound_assignment_desugars :
  forall (expression : Parser.P Expr) (statement : Parser.P Stmt)
         (fuel n : nat) (p p1 p2 : Parser.state) (a op : Token) (e : Expr),
    Parser.lor expression statement fuel p = (Parser.Ok (Variable_ a), p1) ->
    Parser.m_tokens p1 !! Parser.m_current p1 = Some op ->
    compound (getType op) = true ->
    Parser.assignment expression statement fuel n
      (Parser.set_current (S (Parser.m_current p1)) p1)
    = (Parser.Ok e, p2) ->
    exists (tree : Expr) (arithmetic : Token),
      strict_assign_form a op e = Some tree /\
      tree = Assign a
               (mkToken TokenType.BT_EQUAL "`=" (getLine op) LiteralType.NONE)
               (Binary (Variable_ a) arithmetic e) /\
      Parser.assignment expression statement fuel (S n) p = (Parser.Ok tree, p2) /\
      forall (k : nat) (i : Interpreter),
        accept (S k) tree i
        = visit_Assign (accept k) tree a
            (mkToken TokenType.BT_EQUAL "`=" (getLine op) LiteralType.NONE)
            (Binary (Variable_ a) arithmetic e) i.
Proof.
  intros expression statement fuel n p p1 p2 a op e Hlor Htok Hop He.
  assert (Hnot_end : TokenType.eqb (getType op) TokenType.EOF_ = false)
    by (destruct (getType op); try discriminate Hop; reflexivity).
  assert (Hparse :
    forall tree, strict_assign_form a op e = Some tree ->
      Parser.assignment expression statement fuel (S n) p = (Parser.Ok tree, p2)).
  { intros tree Htree.
    cbn [Parser.assignment]. unfold Parser.bind at 1. rewrite Hlor.
    unfold Parser.bind at 1.
    rewrite (match_any_none p1 op Htok Hnot_end)
      by (destruct (getType op); try discriminate Hop; reflexivity).
    unfold Parser.bind at 1. unfold Parser.ret at 1.
    unfold Parser.bind at 1.
    rewrite (match_any_some p1 op Htok Hnot_end)
      by (destruct (getType op); try discriminate Hop; reflexivity).
    unfold Parser.bind at 1. unfold Parser.bind at 1.
    rewrite (previous_after p1 op Htok).
    unfold Parser.bind at 1. rewrite He.
    unfold strict_assign_form in Htree. unfold Parser.desugared_operator.
    destruct (getType op); try discriminate Hop;
      injection Htree as <-; reflexivity. }
  unfold strict_assign_form in *.
  destruct (getType op); try discriminate Hop;
    eexists; eexists; (split; [reflexivity|]); (split; [reflexivity|]);
    (split; [apply Hparse; reflexivity|]); intros k i; reflexivity.
Qed.

Lemma compound_assignment_desugars_witness :
  Parser.lor (Parser.expression 20) (Parser.statement 20) 20
    (Parser.new Sample.compound_tokens false)
  = (Parser.Ok (Sample.var "a"),
     Parser.set_current 1 (Parser.new Sample.compound_tokens false)) /\
  Sample.compound_tokens !! 1 = Some (Sample.tok TokenType.PLUS_EQUAL "+=") /\
  Parser.assignment (Parser.expression 20) (Parser.statement 20) 20 20
    (Parser.set_current 2 (Parser.new Sample.compound_tokens false))
  = (Parser.Ok
       (Binary (Sample.number "2") (Sample.tok TokenType.PRODUCT "*")
          (Sample.number "3")),
     Parser.set_current 5 (Parser.new Sample.compound_tokens false)) /\
  exists (tree : Expr) (arithmetic : Token),
    strict_assign_form (Sample.ident "a") (Sample.tok TokenType.PLUS_EQUAL "+=")
      (Binary (Sample.number "2") (Sample.tok TokenType.PRODUCT "*")
         (Sample.number "3"))
    = Some tree /\
    tree = Assign (Sample.ident "a")
             (mkToken TokenType.BT_EQUAL "`=" 1 LiteralType.NONE)
             (Binary (Sample.var "a") arithmetic
                (Binary (Sample.number "2") (Sample.tok TokenType.PRODUCT "*")
                   (Sample.number "3"))) /\
    Parser.assignment (Parser.expression 20) (Parser.statement 20) 20 21
      (Parser.new Sample.compound_tokens false)
    = (Parser.Ok tree,
       Parser.set_current 5 (Parser.new Sample.compound_tokens false)) /\
    forall (k : nat) (i : Interpreter),
      accept (S k) tree i
      = visit_Assign (accept k) tree (Sample.ident "a")
          (mkToken TokenType.BT_EQUAL "`=" 1 LiteralType.NONE)
          (Binary (Sample.var "a") arithmetic
             (Binary (Sample.number "2") (Sample.tok TokenType.PRODUCT "*")
                (Sample.number "3"))) i.
Proof.
  split; [vm_compute; reflexivity|].
  split; [reflexivity|].
  split; [vm_compute; reflexivity|].
  apply (compound_assignment_desugars (Parser.expression 20)
           (Parser.statement 20) 20 20
           (Parser.new Sample.compound_tokens false)
           (Parser.set_current 1 (Parser.new Sample.compound_tokens false))
           (Parser.set_current 5 (Parser.new Sample.compound_tokens false))
           (Sample.ident "a") (Sample.tok TokenType.PLUS_EQUAL "+=")
           (Binary (Sample.number "2") (Sample.tok TokenType.PRODUCT "*")
              (Sample.number "3")));
    vm_compute; reflexivity.
Defined.

(** The parser gives [a += 2 * 3;] and [a `= a + 2 * 3;] one and the
    same tree. *)
Example compound_and_strict_parse_alike :
  fst (Parser.parse 20 (Parser.new Sample.compound_tokens false))
  = fst (Parser.parse 20 (Parser.new Sample.strict_tokens false)).
Proof. vm_compute. reflexivity. Qed.

(** * Further properties *)

(** ** Equality *)

Lemma isEqual_num_sym (a b : Q) : isEqual_num a b = isEqual_num b a.
Proof. unfold isEqual_num. rewrite (Qabs_Qminus a b). reflexivity. Qed.

(** Epsilon equality ([isEqual] on two numbers) is symmetric and it is
    not transitive: 0 and 6e-13 are equal, 6e-13 and 1.2e-12 are
    equal, 0 and 1.2e-12 are not. *)
Theorem epsilon_equality_not_transitive :
  (forall a b : Q, isEqual_num a b = isEqual_num b a) /\
  ~ (forall a b c : Q,
        isEqual_num a b = true -> isEqual_num b c = true ->
        isEqual_num a c = true).
Proof.
  split; [exact isEqual_num_sym|].
  intros H.
  specialize (H 0%Q (6 # 10000000000000)%Q (12 # 10000000000000)%Q
                eq_refl eq_refl).
  vm_compute in H. discriminate H.
Qed.

Lemma Value_eqb_sym (a b : Value) : Value_eqb a b = Value_eqb b a.
Proof.
  destruct a as [|x|x|x|x|x], b as [|y|y|y|y|y]; cbn; try reflexivity.
  - destruct x, y; reflexivity.
  - unfold Qeq_bool. apply Z.eqb_sym.
  - apply String.eqb_sym.
  - apply Nat.eqb_sym.
  - apply Nat.eqb_sym.
Qed.

Lemma Variant_eqb_sym (a b : Variant) : Variant_eqb a b = Variant_eqb b a.
Proof. destruct a, b; reflexivity. Qed.

Lemma ListType_eqb_sym (a b : ListType) : ListType_eqb a b = ListType_eqb b a.
Proof. destruct a, b; cbn; try reflexivity. apply Variant_eqb_sym. Qed.

Lemma isEqual_elements_sym (eq : Value -> Value -> option bool)
  (xs ys : list Value) :
  (forall x y, eq x y = eq y x) ->
  isEqual_elements eq xs ys = isEqual_elements eq ys xs.
Proof.
  intros Hsym. revert ys.
  induction xs as [|x xs IH]; intros [|y ys]; try reflexivity.
  cbn [isEqual_elements]. rewrite (Hsym y x).
  destruct (eq x y) as [[]|]; try reflexivity. apply IH.
Qed.

Lemma isEqual_sym (fuel : nat) (heap : list list_t) (a b : Value) :
  isEqual fuel heap a b = isEqual fuel heap b a.
Proof.
  revert a b. induction fuel as [|n IH]; intros a b;
    destruct a as [|x|x|x|x|x], b as [|y|y|y|y|y]; cbn [isEqual];
    try reflexivity; try (rewrite Value_eqb_sym; reflexivity);
    try (rewrite isEqual_num_sym; reflexivity).
  destruct (heap !! x) as [lx|], (heap !! y) as [ly|]; try reflexivity.
  rewrite (ListType_eqb_sym (m_type lx) (m_type ly)).
  rewrite (Nat.eqb_sym (length (m_list lx)) (length (m_list ly))).
  destruct (ListType_eqb (m_type ly) (m_type lx)); [|reflexivity].
  destruct (Nat.eqb (length (m_list ly)) (length (m_list lx)));
    [|reflexivity].
  cbn [negb]. apply isEqual_elements_sym, IH.
Qed.

(** [isEqual] on values is symmetric, whatever the lists hold and
    however deep it may look: both orders give the same answer, or
    both exhaust the fuel. *)
Theorem isEqual_is_symmetric :
  forall (fuel : nat) (heap : list list_t) (a b : Value),
    isEqual fuel heap a b = isEqual fuel heap b a.
Proof.
  intros fuel heap a b. apply isEqual_sym.
Qed.

(** ** Comparisons *)

(** For [>], [<], [>=], [<=]: an operand that is not a number raises
    the runtime error "Operands must be numbers."; on numbers [a] and
    [b] that are epsilon-equal the strict comparisons give [false] and
    the other two [true]; on numbers that are not epsilon-equal [>]
    and [>=] both give the strict [a > b], and [<] and [<=] both the
    strict [a < b]. *)
Theorem comparison_operators :
  forall (accept : Expr -> M unit) (fuel : nat) (l r : Expr) (op : Token)
         (i i1 i2 : Interpreter),
    comparison (getType op) = true ->
    accept l i = (Ok tt, i1) ->
    accept r i1 = (Ok tt, i2) ->
    match m_val i1, m_val i2 with
    | VNum a, VNum b =>
        exists res : bool,
          visit_Binary accept fuel l op r i = (Ok tt, set_val (VBool res) i2) /\
          ((Qabs (a - b) < epsilon)%Q ->
           res = match getType op with
                 | TokenType.GT_EQUAL | TokenType.LT_EQUAL => true
                 | _ => false
                 end) /\
          (~ (Qabs (a - b) < epsilon)%Q ->
           (res = true <->
            match getType op with
            | TokenType.GREATER | TokenType.GT_EQUAL => (b < a)%Q
            | TokenType.LESS | TokenType.LT_EQUAL => (a < b)%Q
            | _ => False
            end))
    | _, _ =>
        visit_Binary accept fuel l op r i =
        (Throw (RuntimeError op "Operands must be numbers."), i2)
    end.
Proof.
  intros accept fuel l r op i i1 i2 Hop Hl Hr.
  unfold visit_Binary, bind, get. rewrite Hl. cbv beta iota.
  rewrite Hr. cbv beta iota.
  destruct (m_val i1) as [|b1|a|s1|l1|c1];
    destruct (m_val i2) as [|b2|b|s2|l2|c2];
    destruct (getType op); try discriminate Hop; try reflexivity.
  all: unfold set_m_val, modify; eexists; (split; [reflexivity|]).
  all: split; intros Hc;
    [ apply isEqual_num_spec in Hc; rewrite Hc; reflexivity | ].
  all: assert (Hf : isEqual_num a b = false)
         by (destruct (isEqual_num a b) eqn:E; [|reflexivity];
             apply isEqual_num_spec in E; contradiction).
  all: rewrite Hf.
  all: match goal with
       | |- context [Qltb ?x ?y] =>
           destruct (Qltb x y) eqn:El;
           [apply Qltb_lt in El | apply Qltb_ge in El]
       end.
  all: split; intros H; try reflexivity; try discriminate H; try lra.
Qed.

Lemma comparison_operators_witness :
  comparison (getType (Sample.tok TokenType.LESS "<")) = true /\
  accept 3 (Sample.number "1") Interpreter_new
  = (Ok tt, set_val (VNum 1) Interpreter_new) /\
  accept 3 (Sample.number "2") (set_val (VNum 1) Interpreter_new)
  = (Ok tt, set_val (VNum 2) Interpreter_new) /\
  visit_Binary (accept 3) 3 (Sample.number "1") (Sample.tok TokenType.LESS "<")
    (Sample.number "2") Interpreter_new
  = (Ok tt, set_val (VBool true) Interpreter_new).
Proof.
  split; [reflexivity|]. split; [reflexivity|]. split; [reflexivity|].
  pose proof (comparison_operators (accept 3) 3 (Sample.number "1")
                (Sample.number "2") (Sample.tok TokenType.LESS "<")
                Interpreter_new (set_val (VNum 1) Interpreter_new)
                (set_val (VNum 2) Interpreter_new) eq_refl eq_refl eq_refl)
    as H.
  cbv beta iota in H. destruct H as [res [H [_ Hres]]].
  assert (Htrue : res = true).
  { apply Hres; [intros Hc; vm_compute in Hc; discriminate Hc|reflexivity]. }
  rewrite H, Htrue. reflexivity.
Defined.

(** ** Truthiness and the operators *)

Lemma isEqual_num_zero (d : Q) :
  isEqual_num d 0 = true <-> (Qabs d < epsilon)%Q.
Proof.
  rewrite isEqual_num_spec.
  assert (Hz : (d - 0 == d)%Q) by ring.
  rewrite Hz. reflexivity.
Qed.

(** [isTrue] is false for [nix], for [false] and for a number within
    epsilon of 0, and for nothing else: the empty string, the empty
    list and every callable are true. *)
Theorem falsy_values :
  forall v : Value,
    isTrue v = false <->
    v = VNix \/ v = VBool false \/
    exists d : Q, v = VNum d /\ (Qabs d < epsilon)%Q.
Proof.
  intros v. split.
  - destruct v as [|b|d|s|l|c]; cbn [isTrue]; intros H; try discriminate H.
    + left. reflexivity.
    + right. left. rewrite H. reflexivity.
    + right. right. exists d. split; [reflexivity|].
      apply isEqual_num_zero. apply negb_false_iff. exact H.
  - intros [->|[->|[d [-> H]]]]; try reflexivity.
    cbn [isTrue]. apply negb_false_iff. apply isEqual_num_zero. exact H.
Qed.

(** [!!e] is the truthiness of [e], as a bool: when [e] evaluates to
    the value [v], the double negation evaluates to [isTrue v] and
    changes nothing else. *)
Theorem double_negation_is_truthiness :
  forall (n : nat) (e : Expr) (op1 op2 : Token) (i i1 : Interpreter),
    getType op1 = TokenType.NOT ->
    getType op2 = TokenType.NOT ->
    accept n e i = (Ok tt, i1) ->
    accept (S (S n)) (Unary op1 (Unary op2 e)) i
    = (Ok tt, set_val (VBool (isTrue (m_val i1))) i1).
Proof.
  intros n e op1 op2 i i1 H1 H2 He.
  cbn [accept]. unfold visit_Unary, bind, get. rewrite He. cbv beta iota.
  rewrite H1, H2. unfold set_m_val, modify. cbn [m_val set_val isTrue].
  rewrite negb_involutive. destruct i1; reflexivity.
Qed.

Lemma double_negation_is_truthiness_witness :
  accept 2 (Sample.text EmptyString) Interpreter_new
  = (Ok tt, set_val (VStr EmptyString) Interpreter_new) /\
  accept 4
    (Unary (Sample.tok TokenType.NOT "!")
       (Unary (Sample.tok TokenType.NOT "!") (Sample.text EmptyString))) Interpreter_new
  = (Ok tt, set_val (VBool true) Interpreter_new).
Proof.
  split; [reflexivity|].
  exact (double_negation_is_truthiness 2 (Sample.text EmptyString)
           (Sample.tok TokenType.NOT "!") (Sample.tok TokenType.NOT "!")
           Interpreter_new (set_val (VStr EmptyString) Interpreter_new)
           eq_refl eq_refl eq_refl).
Defined.

(** [or] and [and] give a bool, never an operand, and they do not
    evaluate the right operand when the left one decides: the
    interpreter is then as the left operand left it, with the bool in
    [m_val]. Otherwise the result is the truthiness of the right
    operand. *)
Theorem logical_short_circuit :
  forall (accept : Expr -> M unit) (l r : Expr) (op : Token)
         (i i1 : Interpreter),
    getType op = TokenType.OR \/ getType op = TokenType.AND ->
    accept l i = (Ok tt, i1) ->
    let decided :=
      if TokenType.eqb (getType op) TokenType.OR
      then isTrue (m_val i1) else negb (isTrue (m_val i1)) in
    if decided
    then visit_Logical accept l op r i
         = (Ok tt,
            set_val (VBool (TokenType.eqb (getType op) TokenType.OR)) i1)
    else forall i2 : Interpreter,
        accept r i1 = (Ok tt, i2) ->
        visit_Logical accept l op r i
        = (Ok tt, set_val (VBool (isTrue (m_val i2))) i2).
Proof.
  intros accept l r op i i1 Hop Hl decided. subst decided.
  unfold visit_Logical, bind, get. rewrite Hl. cbv beta iota.
  destruct Hop as [Hop|Hop]; rewrite Hop;
    cbn [TokenType.eqb TokenType.code Nat.eqb];
    destruct (isTrue (m_val i1)); cbn [negb]; try reflexivity;
    intros i2 Hr; rewrite Hr; cbv beta iota;
    destruct (isTrue (m_val i2)); reflexivity.
Qed.

Lemma logical_short_circuit_witness :
  accept 2 Sample.true_ Interpreter_new
  = (Ok tt, set_val (VBool true) Interpreter_new) /\
  visit_Logical (accept 2) Sample.true_ (Sample.tok TokenType.OR "or")
    (Sample.divide (Sample.number "1") (Sample.number "0")) Interpreter_new
  = (Ok tt, set_val (VBool true) Interpreter_new).
Proof.
  split; [reflexivity|].
  exact (logical_short_circuit (accept 2) Sample.true_
           (Sample.divide (Sample.number "1") (Sample.number "0"))
           (Sample.tok TokenType.OR "or") Interpreter_new
           (set_val (VBool true) Interpreter_new)
           (or_introl eq_refl) eq_refl).
Defined.

Lemma isEqual_different_variants (fuel : nat) (heap : list list_t)
  (a b : Value) :
  Value_index a <> Value_index b -> isEqual fuel heap a b = Some false.
Proof.
  intros H.
  destruct fuel, a, b; cbn in *; try reflexivity; contradiction.
Qed.

(** [==] and [!=] take operands of any type and never raise a runtime
    error: [!=] is the negation of [==], and two values of different
    variants (a number and a string, say) are unequal. *)
Theorem equality_operators :
  forall (accept : Expr -> M unit) (fuel : nat) (l r : Expr) (op : Token)
         (i i1 i2 : Interpreter),
    getType op = TokenType.EQ_EQUAL \/ getType op = TokenType.NOT_EQUAL ->
    accept l i = (Ok tt, i1) ->
    accept r i1 = (Ok tt, i2) ->
    let negated := TokenType.eqb (getType op) TokenType.NOT_EQUAL in
    match isEqual fuel (lists i2) (m_val i1) (m_val i2) with
    | Some b =>
        visit_Binary accept fuel l op r i
        = (Ok tt, set_val (VBool (xorb negated b)) i2)
    | None =>
        visit_Binary accept fuel l op r i = (Throw (Fatal OutOfFuel), i2)
    end /\
    (Value_index (m_val i1) <> Value_index (m_val i2) ->
     visit_Binary accept fuel l op r i = (Ok tt, set_val (VBool negated) i2)).
Proof.
  intros accept fuel l r op i i1 i2 Hop Hl Hr negated. subst negated.
  assert (Hrun :
    visit_Binary accept fuel l op r i =
    match isEqual fuel (lists i2) (m_val i1) (m_val i2) with
    | Some b =>
        (Ok tt,
         set_val (VBool (xorb (TokenType.eqb (getType op) TokenType.NOT_EQUAL) b))
           i2)
    | None => (Throw (Fatal OutOfFuel), i2)
    end).
  { unfold visit_Binary, bind, get. rewrite Hl. cbv beta iota.
    rewrite Hr. cbv beta iota.
    destruct Hop as [Hop|Hop]; rewrite Hop;
      cbn [TokenType.eqb TokenType.code Nat.eqb];
      destruct (isEqual fuel (lists i2) (m_val i1) (m_val i2)) as [[]|];
      reflexivity. }
  split.
  - rewrite Hrun.
    destruct (isEqual fuel (lists i2) (m_val i1) (m_val i2)); reflexivity.
  - intros Hne. rewrite Hrun.
    rewrite (isEqual_different_variants _ _ _ _ Hne).
    rewrite xorb_false_r. reflexivity.
Qed.

Lemma equality_operators_witness :
  accept 2 (Sample.number "1") Interpreter_new
  = (Ok tt, set_val (VNum 1) Interpreter_new) /\
  accept 2 (Sample.text "1") (set_val (VNum 1) Interpreter_new)
  = (Ok tt, set_val (VStr "1") Interpreter_new) /\
  visit_Binary (accept 2) 2 (Sample.number "1")
    (Sample.tok TokenType.NOT_EQUAL "!=") (Sample.text "1") Interpreter_new
  = (Ok tt, set_val (VBool true) Interpreter_new).
Proof.
  split; [reflexivity|]. split; [reflexivity|].
  apply (equality_operators (accept 2) 2 (Sample.number "1") (Sample.text "1")
           (Sample.tok TokenType.NOT_EQUAL "!=") Interpreter_new
           (set_val (VNum 1) Interpreter_new)
           (set_val (VStr "1") Interpreter_new)
           (or_intror eq_refl) eq_refl eq_refl).
  discriminate.
Defined.

(** [+], [-], [*] and [/] convert nothing: they give a value exactly
    on two numbers (for [/], with a divisor not within epsilon of 0)
    and, for [+], on two strings; on any other pair of operands, a
    number and a string say, they raise a runtime error on the
    operator, after both operands were evaluated. *)
Theorem arithmetic_converts_nothing :
  forall (accept : Expr -> M unit) (fuel : nat) (l r : Expr) (op : Token)
         (i i1 i2 : Interpreter),
    arithmetic (getType op) = true ->
    accept l i = (Ok tt, i1) ->
    accept r i1 = (Ok tt, i2) ->
    (arithmetic_operands (getType op) (m_val i1) (m_val i2) ->
     exists v : Value,
       visit_Binary accept fuel l op r i = (Ok tt, set_val v i2)) /\
    (~ arithmetic_operands (getType op) (m_val i1) (m_val i2) ->
     exists msg : string,
       visit_Binary accept fuel l op r i = (Throw (RuntimeError op msg), i2)).
Proof.
  intros accept fuel l r op i i1 i2 Hop Hl Hr.
  unfold visit_Binary, bind, get. rewrite Hl. cbv beta iota.
  rewrite Hr. cbv beta iota. unfold arithmetic_operands.
  split.
  - intros [[a [b [-> [-> Hdiv]]]]|[Hplus [a [b [-> ->]]]]].
    + destruct (getType op) eqn:E; try discriminate Hop;
        try (eexists; reflexivity).
      destruct (isEqual_num b 0) eqn:Hz; [|eexists; reflexivity].
      exfalso. apply (Hdiv eq_refl). apply isEqual_num_zero. exact Hz.
    + rewrite Hplus. eexists. reflexivity.
  - intros Hnot.
    destruct (getType op) eqn:E; try discriminate Hop;
      destruct (m_val i1) as [|b1|a|s1|l1|c1];
      destruct (m_val i2) as [|b2|b|s2|l2|c2];
      try (eexists; reflexivity);
      try (exfalso; apply Hnot; left; exists a, b;
           repeat split; intros Hc; discriminate Hc);
      try (exfalso; apply Hnot; right; split; [reflexivity|];
           exists s1, s2; split; reflexivity).
    destruct (isEqual_num b 0) eqn:Hz; [eexists; reflexivity|].
    exfalso. apply Hnot. left. exists a, b. repeat split.
    intros _ Hc. apply isEqual_num_zero in Hc. congruence.
Qed.

Lemma arithmetic_converts_nothing_witness :
  accept 2 (Sample.number "1") Interpreter_new
  = (Ok tt, set_val (VNum 1) Interpreter_new) /\
  accept 2 (Sample.text "1") (set_val (VNum 1) Interpreter_new)
  = (Ok tt, set_val (VStr "1") Interpreter_new) /\
  exists msg : string,
    visit_Binary (accept 2) 2 (Sample.number "1")
      (Sample.tok TokenType.PLUS "+") (Sample.text "1") Interpreter_new
    = (Throw (RuntimeError (Sample.tok TokenType.PLUS "+") msg),
       set_val (VStr "1") Interpreter_new).
Proof.
  split; [reflexivity|]. split; [reflexivity|].
  apply (arithmetic_converts_nothing (accept 2) 2 (Sample.number "1")
           (Sample.text "1") (Sample.tok TokenType.PLUS "+") Interpreter_new
           (set_val (VNum 1) Interpreter_new)
           (set_val (VStr "1") Interpreter_new) eq_refl eq_refl eq_refl).
  intros [[a [b [_ [H _]]]]|[_ [a [b [H _]]]]]; discriminate H.
Defined.

(** Division guards against every divisor within epsilon of 0, zero
    or not: it raises "Cannot divide by 0!" in the state the two
    operands left. For any other divisor it raises nothing: it ends
    with a number, and changes nothing else in that state. *)
Theorem division_semantics :
  forall (accept : Expr -> M unit) (fuel : nat) (l r : Expr) (op : Token)
         (i i1 i2 : Interpreter) (a b : Q),
    getType op = TokenType.DIVISON ->
    accept l i = (Ok tt, i1) ->
    m_val i1 = VNum a ->
    accept r i1 = (Ok tt, i2) ->
    m_val i2 = VNum b ->
    ((Qabs b < epsilon)%Q ->
     visit_Binary accept fuel l op r i
     = (Throw (RuntimeError op "Cannot divide by 0!"), i2)) /\
    (~ (Qabs b < epsilon)%Q ->
     exists q : Q,
       visit_Binary accept fuel l op r i = (Ok tt, set_val (VNum q) i2)).
Proof.
  intros accept fuel l r op i i1 i2 a b Hop Hl Ha Hr Hb.
  unfold visit_Binary, bind, get. rewrite Hl. cbv beta iota.
  rewrite Hr. cbv beta iota. rewrite Hop, Ha, Hb.
  split; intros H.
  - apply isEqual_num_zero in H. rewrite H. reflexivity.
  - assert (Hz : isEqual_num b 0 = false).
    { destruct (isEqual_num b 0) eqn:E; [|reflexivity].
      apply isEqual_num_zero in E. contradiction. }
    rewrite Hz. exists (a / b)%Q. reflexivity.
Qed.

Lemma division_semantics_witness :
  accept 2 (Sample.number "1") Interpreter_new
  = (Ok tt, set_val (VNum 1) Interpreter_new) /\
  accept 2 (Sample.number "1e-13") (set_val (VNum 1) Interpreter_new)
  = (Ok tt, set_val (VNum (1 # 10000000000000)) Interpreter_new) /\
  (Qabs (1 # 10000000000000) < epsilon)%Q /\
  visit_Binary (accept 2) 2 (Sample.number "1")
    (Sample.tok TokenType.DIVISON "/") (Sample.number "1e-13") Interpreter_new
  = (Throw (RuntimeError (Sample.tok TokenType.DIVISON "/")
              "Cannot divide by 0!"),
     set_val (VNum (1 # 10000000000000)) Interpreter_new).
Proof.
  split; [reflexivity|]. split; [vm_compute; reflexivity|].
  split; [reflexivity|].
  apply (division_semantics (accept 2) 2 (Sample.number "1")
           (Sample.number "1e-13") (Sample.tok TokenType.DIVISON "/")
           Interpreter_new (set_val (VNum 1) Interpreter_new)
           (set_val (VNum (1 # 10000000000000)) Interpreter_new)
           1 (1 # 10000000000000) eq_refl eq_refl eq_refl eq_refl eq_refl).
  reflexivity.
Defined.

(** ** Ranges of whole numbers *)

(** Let the operands of a range evaluate without error; the step of a
    range without a step operand is 1. If the start, the step or the
    end is not a number, a runtime error is raised, and so it is if
    the step is epsilon-equal to 0. Otherwise, if the end is below the
    start the result is a new, empty number list; and if the three are
    whole numbers of magnitude at most 2^52 (which [long double] adds
    and compares exactly) and the step is positive, the result is a
    new number list holding [first], [first + step],
    [first + 2 * step], ... as long as the value is at most the end. *)
Theorem range_of_whole_numbers :
  forall (accept : Expr -> M unit) (a s b : Expr) (op : Token)
         (i i1 i2 i3 : Interpreter),
    accept a i = (Ok tt, i1) ->
    match s with
    | NullExpr => i2 = i1
    | _ => accept s i1 = (Ok tt, i2)
    end ->
    accept b i2 = (Ok tt, i3) ->
    match m_val i1 with
    | VNum first =>
        match (match s with NullExpr => VNum 1 | _ => m_val i2 end) with
        | VNum step =>
            if isEqual_num step 0
            then forall fuel,
                visit_RangeExpr accept fuel a s b op i
                = (Throw (RuntimeError op "Range step cannot be 0."), i2)
            else
              match m_val i3 with
              | VNum end_ =>
                  ((end_ < first)%Q ->
                   forall fuel,
                     (1 <= fuel)%nat ->
                     visit_RangeExpr accept fuel a s b op i
                     = (Ok tt,
                        set_val (VList (length (lists i3)))
                          (set_lists (lists i3 ++ [mkList [] numList]) i3)))
                  /\
                  (forall ka ks kb : Z,
                      (first == inject_Z ka)%Q ->
                      (step == inject_Z ks)%Q ->
                      (end_ == inject_Z kb)%Q ->
                      (Z.abs ka <= 2 ^ 52)%Z ->
                      (0 < ks <= 2 ^ 52)%Z ->
                      (Z.abs kb <= 2 ^ 52)%Z ->
                      exists (n : nat) (l : list Value),
                        range_values first step end_ l /\
                        forall fuel,
                          (n <= fuel)%nat ->
                          visit_RangeExpr accept fuel a s b op i
                          = (Ok tt,
                             set_val (VList (length (lists i3)))
                               (set_lists (lists i3 ++ [mkList l numList])
                                  i3)))
              | _ =>
                  forall fuel,
                    visit_RangeExpr accept fuel a s b op i
                    = (Throw (numeric_descriptors op), i3)
              end
        | _ =>
            forall fuel,
              visit_RangeExpr accept fuel a s b op i
              = (Throw (numeric_descriptors op), i2)
        end
    | _ =>
        forall fuel,
          visit_RangeExpr accept fuel a s b op i
          = (Throw (numeric_descriptors op), i1)
    end.
Proof.
  intros accept a s b op i i1 i2 i3 Ha Hs Hb.
  destruct (m_val i1) as [|b1|first|s1|l1|c1] eqn:Hfirst;
    try (intros fuel; unfold visit_RangeExpr, bind, get; rewrite Ha;
         cbv beta iota; rewrite Hfirst; reflexivity).
  destruct (match s with NullExpr => VNum 1 | _ => m_val i2 end)
    as [|b2|step|s2|l2|c2] eqn:Hstep;
    try (intros fuel; unfold visit_RangeExpr, bind, get; rewrite Ha;
         cbv beta iota; rewrite Hfirst;
         destruct s; try discriminate Hstep;
         rewrite Hs; cbv beta iota; rewrite Hstep; reflexivity).
  destruct (isEqual_num step 0) eqn:Hz.
  { intros fuel. unfold visit_RangeExpr, bind, get. rewrite Ha.
    cbv beta iota. rewrite Hfirst.
    destruct s;
      [ injection Hstep as <-; vm_compute in Hz; discriminate Hz
      | rewrite Hs; cbv beta iota; rewrite Hstep, Hz; reflexivity .. ]. }
  assert (Hs' : match s with
                | NullExpr => i2 = i1 /\ step = 1%Q
                | _ => accept s i1 = (Ok tt, i2) /\ m_val i2 = VNum step
                end).
  { destruct s; try (split; [exact Hs|exact Hstep]).
    injection Hstep as <-. split; [exact Hs|reflexivity]. }
  destruct (m_val i3) as [|b3|end_|s3|l3|c3] eqn:Hend;
    try (intros fuel; unfold visit_RangeExpr, bind, get, ret; rewrite Ha;
         cbv beta iota; rewrite Hfirst;
         destruct s;
           [ destruct Hs' as [-> _]
           | destruct Hs' as [Hs1 Hs2]; rewrite Hs1; cbv beta iota;
             rewrite Hs2, Hz .. ];
         cbv beta iota; rewrite Hb; cbv beta iota; rewrite Hend;
         reflexivity).
  pose proof (fun fuel =>
                visit_RangeExpr_run accept fuel a s b op i i1 i2 i3
                  first step end_ Ha Hfirst Hs' Hz Hb Hend) as Hrun.
  split.
  - intros Hlt fuel Hfuel. rewrite Hrun.
    destruct fuel as [|fuel]; [lia|]. cbn [rangeLoop].
    destruct (Qle_bool first end_) eqn:E; [|reflexivity].
    apply Qle_bool_iff in E. lra.
  - intros ka ks kb _ Hks _ _ [Hpos _] _.
    assert (Hstep_pos : (0 < step)%Q).
    { rewrite Hks. change 0%Q with (inject_Z 0). rewrite <- Zlt_Qlt.
      exact Hpos. }
    destruct (steps_beyond first step end_ Hstep_pos) as [m Hm].
    destruct (rangeLoop_terminates step end_ Hstep_pos m first [] (S m) Hm
                ltac:(lia)) as [l [Hr Hl]].
    exists (S m), l. split; [exact Hl|].
    intros fuel Hfuel. rewrite Hrun.
    rewrite (rangeLoop_mono _ _ _ _ _ _ Hr fuel Hfuel). reflexivity.
Qed.

Lemma range_of_whole_numbers_witness :
  accept 3 (Sample.number "1") Interpreter_new
  = (Ok tt, set_val (VNum 1) Interpreter_new) /\
  accept 3 (Sample.number "2") (set_val (VNum 1) Interpreter_new)
  = (Ok tt, set_val (VNum 2) Interpreter_new) /\
  accept 3 (Sample.number "9") (set_val (VNum 2) Interpreter_new)
  = (Ok tt, set_val (VNum 9) Interpreter_new) /\
  exists (n : nat) (l : list Value),
    range_values 1 2 9 l /\
    forall fuel,
      (n <= fuel)%nat ->
      visit_RangeExpr (accept 3) fuel (Sample.number "1") (Sample.number "2")
        (Sample.number "9") Sample.dots Interpreter_new
      = (Ok tt,
         set_val (VList 0)
           (set_lists [mkList l numList] (set_val (VNum 9) Interpreter_new))).
Proof.
  repeat (split; [reflexivity|]).
  refine (proj2 (range_of_whole_numbers (accept 3) (Sample.number "1")
                   (Sample.number "2") (Sample.number "9") Sample.dots
                   Interpreter_new
                   (set_val (VNum 1) Interpreter_new)
                   (set_val (VNum 2) Interpreter_new)
                   (set_val (VNum 9) Interpreter_new)
                   eq_refl eq_refl eq_refl) 1%Z 2%Z 9%Z _ _ _ _ _ _);
    try reflexivity; cbn; lia.
Defined.

(** ** Lists *)

Lemma ListType_eqb_eq (a b : ListType) : ListType_eqb a b = true -> a = b.
Proof.
  destruct a as [|x], b as [|y]; cbn; intros H; try discriminate H;
    [reflexivity|].
  destruct x, y; try discriminate H; reflexivity.
Qed.

Lemma ListExpr_loop_homogeneous (accept : Expr -> M unit) (brkt : Token)
  (es : list Expr) :
  forall (values : list Value) (type : ListType) (first : bool)
         (i i' : Interpreter) (vs : list Value) (t : ListType),
    ListExpr_loop accept brkt es values type first i = (Ok (vs, t), i') ->
    (if first then values = []
     else values <> [] /\
          Forall (fun v => elemType (Value_index v) = type) values) ->
    length vs = (length values + length es)%nat /\
    match es with
    | [] => vs = values /\ t = type
    | _ => Forall (fun v => elemType (Value_index v) = t) vs
    end.
Proof.
  induction es as [|e rest IH]; intros values type first i i' vs t Hrun Hinv.
  - cbn in Hrun. injection Hrun as <- <- <-. cbn [length].
    split; [lia|]. split; reflexivity.
  - cbn [ListExpr_loop] in Hrun. unfold bind, get in Hrun.
    destruct (accept e i) as [[[]|err] i1]; [|discriminate Hrun].
    set (type' := if first then elemType (Value_index (m_val i1)) else type)
      in Hrun.
    destruct (ListType_eqb type' (elemType (Value_index (m_val i1)))) eqn:E;
      [|discriminate Hrun].
    cbn [negb] in Hrun. apply ListType_eqb_eq in E.
    assert (Hinv' : (values ++ [m_val i1])%list <> [] /\
                    Forall (fun v => elemType (Value_index v) = type')
                      (values ++ [m_val i1])%list).
    { split; [destruct values; discriminate|].
      apply Forall_app. split; [|constructor; [symmetry; exact E|constructor]].
      destruct first.
      - rewrite Hinv. constructor.
      - subst type'. apply Hinv. }
    destruct (IH _ _ false _ _ _ _ Hrun Hinv') as [Hlen Hrest].
    rewrite length_app in Hlen. cbn [length] in *. split; [lia|].
    destruct rest; [|exact Hrest].
    destruct Hrest as [-> ->]. apply Hinv'.
Qed.

Lemma ListExpr_loop_elements (accept : Expr -> M unit) (brkt : Token)
  (es : list Expr) :
  forall (values : list Value) (type : ListType) (first : bool)
         (i i' : Interpreter) (vs : list Value) (t : ListType),
    ListExpr_loop accept brkt es values type first i = (Ok (vs, t), i') ->
    exists ws : list Value,
      accept_all accept es i = (Ok ws, i') /\ vs = (values ++ ws)%list.
Proof.
  induction es as [|e rest IH]; intros values type first i i' vs t Hrun.
  - cbn in Hrun. injection Hrun as <- <- <-. exists [].
    split; [reflexivity|]. rewrite app_nil_r. reflexivity.
  - cbn [ListExpr_loop] in Hrun. cbn [accept_all].
    unfold bind, get in Hrun |- *.
    destruct (accept e i) as [[[]|err] i1]; [|discriminate Hrun].
    destruct (negb _); [discriminate Hrun|].
    destruct (IH _ _ _ _ _ _ _ Hrun) as (ws & Hws & ->).
    exists (m_val i1 :: ws). rewrite Hws. split; [reflexivity|].
    rewrite <- app_assoc. reflexivity.
Qed.

(** A list literal that evaluates without error evaluates its element
    expressions in order, each in the state the one before it left
    ([accept_all]), and to the state [j] the last of them leaves it
    adds exactly one list, after the lists of [j], and makes [m_val]
    refer to it; nothing else of [j] changes. The new list holds the
    values of the elements in order and is homogeneous: every element
    has the variant the tag names, and the tag of [[]] is the empty
    marker. A literal with elements of two variants therefore never
    yields a list. *)
Theorem list_literal_is_homogeneous :
  forall (accept : Expr -> M unit) (es : list Expr) (brkt : Token)
         (i i' : Interpreter),
    visit_ListExpr accept es brkt i = (Ok tt, i') ->
    exists (j : Interpreter) (l : list_t),
      accept_all accept es i = (Ok (m_list l), j) /\
      i' = set_val (VList (length (lists j)))
             (set_lists (lists j ++ [l]) j) /\
      length (m_list l) = length es /\
      homogeneous l /\
      (es = [] -> m_type l = emptyList).
Proof.
  intros accept es brkt i i' Hrun.
  unfold visit_ListExpr, bind in Hrun.
  destruct (ListExpr_loop accept brkt es [] emptyList true i)
    as [[[vs t]|err] i1] eqn:Hloop; [|discriminate Hrun].
  unfold new_list, set_m_val, modify in Hrun. cbn [fst snd] in Hrun.
  injection Hrun as <-.
  destruct (ListExpr_loop_homogeneous accept brkt es [] emptyList true
              i i1 vs t Hloop eq_refl) as [Hlen Hhom].
  destruct (ListExpr_loop_elements accept brkt es [] emptyList true
              i i1 vs t Hloop) as (ws & Hws & Hvs).
  cbn [app] in Hvs. subst ws.
  exists i1, (mkList vs t). cbn [m_list m_type].
  split; [exact Hws|]. split; [reflexivity|].
  split; [exact Hlen|]. unfold homogeneous. cbn [m_list m_type].
  destruct es as [|e rest].
  - destruct Hhom as [-> ->]. split; [constructor|reflexivity].
  - split; [exact Hhom|discriminate].
Qed.

Lemma list_literal_is_homogeneous_witness :
  visit_ListExpr (accept 2) [Sample.text "a"; Sample.text "b"] Sample.brkt
    Interpreter_new
  = (Ok tt, Sample.with_letters) /\
  exists (j : Interpreter) (l : list_t),
    accept_all (accept 2) [Sample.text "a"; Sample.text "b"] Interpreter_new
    = (Ok (m_list l), j) /\
    Sample.with_letters
    = set_val (VList (length (lists j))) (set_lists (lists j ++ [l]) j) /\
    length (m_list l) = 2 /\
    homogeneous l /\
    ([Sample.text "a"; Sample.text "b"] = [] -> m_type l = emptyList).
Proof.
  split; [reflexivity|].
  exact (list_literal_is_homogeneous (accept 2)
           [Sample.text "a"; Sample.text "b"] Sample.brkt Interpreter_new
           Sample.with_letters eq_refl).
Defined.

Lemma set_lists_id (i : Interpreter) : set_lists (lists i) i = i.
Proof. destruct i; reflexivity. Qed.

Lemma deref_list_state (l : list_ptr) (i s : Interpreter) (r : Res list_t) :
  deref_list l i = (r, s) -> s = i.
Proof.
  unfold deref_list. destruct (lists i !! l); intros H; injection H as _ <-;
    reflexivity.
Qed.

Lemma subscript_state (elems : list Value) (z : Z) (i s : Interpreter)
  (r : Res Value) :
  subscript elems z i = (r, s) -> s = i.
Proof.
  unfold subscript, throw, ret.
  destruct (z <? 0)%Z; [|destruct (elems !! Z.to_nat z)];
    intros H; injection H as _ <-; reflexivity.
Qed.

Lemma at_state (elems : list Value) (z : Z) (i s : Interpreter)
  (r : Res Value) :
  at_ elems z i = (r, s) -> s = i.
Proof.
  unfold at_, throw, ret.
  destruct (z <? 0)%Z; [|destruct (elems !! Z.to_nat z)];
    intros H; injection H as _ <-; reflexivity.
Qed.

Lemma verifyIndex_state (size : nat) (op : Token) (d : Q) (i : Interpreter) :
  snd (verifyIndex size op d i) = i.
Proof.
  unfold verifyIndex, throw, ret.
  destruct (negb _); [reflexivity|].
  destruct (lround d <=? 0)%Z; [reflexivity|].
  destruct (size <? Z.to_nat (lround d))%nat; reflexivity.
Qed.

Lemma verifyIndices_loop_state (size : nat) (op : Token) (elems : list Value)
  (i : Interpreter) :
  snd (verifyIndices_loop size op elems i) = i.
Proof.
  induction elems as [|v elems IH]; [reflexivity|].
  destruct v; try reflexivity.
  cbn [verifyIndices_loop]. unfold bind.
  pose proof (verifyIndex_state size op d i) as H.
  destruct (verifyIndex size op d i) as [[[]|e] s]; cbn [snd] in H; subst s;
    [exact IH|reflexivity].
Qed.

(** [verifyIndices] only looks: whatever the list, the index and the
    verdict, it leaves the interpreter as it found it. *)
Theorem verifyIndices_only_looks :
  forall (lst : list_ptr) (idx : Value) (op : Token) (i : Interpreter),
    snd (verifyIndices lst idx op i) = i.
Proof.
  intros lst idx op i. unfold verifyIndices, bind, deref_list, throw, ret.
  destruct idx as [|b|d|s|li|c]; try reflexivity.
  - destruct (lists i !! lst); [apply verifyIndex_state|reflexivity].
  - destruct (lists i !! li) as [listIndex|]; [|reflexivity].
    destruct (m_type listIndex) as [|[]]; try reflexivity.
    destruct (lists i !! lst); [apply verifyIndices_loop_state|reflexivity].
Qed.

Lemma assign_at_shape (lst : list_ptr) (z : Z) (v : Value) (i : Interpreter) :
  exists heap : list list_t,
    snd (assign_at lst z v i) = set_lists heap i /\
    map shape heap = map shape (lists i).
Proof.
  unfold assign_at, bind, deref_list, store_list, modify, throw.
  destruct (lists i !! lst) as [target|] eqn:E;
    [|exists (lists i); split; [symmetry; apply set_lists_id|reflexivity]].
  destruct (z <? 0)%Z;
    [exists (lists i); split; [symmetry; apply set_lists_id|reflexivity]|].
  destruct (Z.to_nat z <? length (m_list target))%nat;
    [|exists (lists i); split; [symmetry; apply set_lists_id|reflexivity]].
  eexists. split; [reflexivity|].
  rewrite list_fmap_insert. apply list_insert_id.
  rewrite list_lookup_fmap. unfold list_ptr in *. rewrite E.
  unfold shape. cbn [m_list m_type fmap option_fmap option_map].
  rewrite length_insert. reflexivity.
Qed.

Lemma scatter_shape (lst il vl : list_ptr) (positions : list nat) :
  forall i : Interpreter,
  exists heap : list list_t,
    snd (scatter lst il vl positions i) = set_lists heap i /\
    map shape heap = map shape (lists i).
Proof.
  induction positions as [|k positions IH]; intros i.
  - exists (lists i). split; [symmetry; apply set_lists_id|reflexivity].
  - cbn [scatter]. unfold bind.
    destruct (deref_list il i) as [[x|e] s] eqn:E1;
      apply deref_list_state in E1; subst s;
      [|exists (lists i); split; [symmetry; apply set_lists_id|reflexivity]].
    destruct (subscript (m_list x) (Z.of_nat k) i) as [[iv|e] s] eqn:E2;
      apply subscript_state in E2; subst s;
      [|exists (lists i); split; [symmetry; apply set_lists_id|reflexivity]].
    destruct iv as [|b|d|str|l|c];
      try (exists (lists i); split; [symmetry; apply set_lists_id|reflexivity]).
    destruct (deref_list vl i) as [[y|e] s] eqn:E3;
      apply deref_list_state in E3; subst s;
      [|exists (lists i); split; [symmetry; apply set_lists_id|reflexivity]].
    destruct (at_ (m_list y) (Z.of_nat k) i) as [[v|e] s] eqn:E4;
      apply at_state in E4; subst s;
      [|exists (lists i); split; [symmetry; apply set_lists_id|reflexivity]].
    destruct (assign_at_shape lst (lround d - 1) v i) as [h1 [Hs1 Hh1]].
    destruct (assign_at lst (lround d - 1) v i) as [[[]|e] s];
      cbn [snd] in Hs1; subst s; [|exists h1; split; [reflexivity|exact Hh1]].
    destruct (IH (set_lists h1 i)) as [h2 [Hs2 Hh2]].
    exists h2. split; [exact Hs2|].
    rewrite Hh2. exact Hh1.
Qed.

(** An index assignment whose three operands evaluate changes nothing
    but elements of lists, whether it succeeds or fails: beyond what
    the operands did, no list is created, none changes its length or
    its tag, no variable is bound and nothing is reported. *)
Theorem index_assignment_changes_elements_only :
  forall (accept : Expr -> M unit) (le ie ve : Expr) (iop op : Token)
         (i i1 i2 i3 : Interpreter),
    accept le i = (Ok tt, i1) ->
    accept ie i1 = (Ok tt, i2) ->
    accept ve i2 = (Ok tt, i3) ->
    exists (j : Interpreter) (heap : list list_t),
      (j = i1 \/ j = i2 \/ j = i3) /\
      snd (visit_IndexAssign accept le ie iop op ve i) = set_lists heap j /\
      map shape heap = map shape (lists j).
Proof.
  intros accept le ie ve iop op i i1 i2 i3 Hl Hi Hve.
  assert (Hstay : forall j, j = i1 \/ j = i2 \/ j = i3 ->
            forall r : Res unit,
            exists (j' : Interpreter) (heap : list list_t),
              (j' = i1 \/ j' = i2 \/ j' = i3) /\
              snd (r, j) = set_lists heap j' /\
              map shape heap = map shape (lists j')).
  { intros j Hj r. exists j, (lists j).
    split; [exact Hj|]. split; [symmetry; apply set_lists_id|reflexivity]. }
  unfold visit_IndexAssign, bind, get. rewrite Hl. cbv beta iota.
  destruct (m_val i1) as [|b1|d1|s1|lst|c1];
    try (apply Hstay; left; reflexivity).
  rewrite Hi. cbv beta iota.
  pose proof (verifyIndices_only_looks lst (m_val i2) iop i2) as Hlook.
  destruct (verifyIndices lst (m_val i2) iop i2) as [[[]|e] s];
    cbn [snd] in Hlook; subst s;
    [|apply Hstay; right; left; reflexivity].
  rewrite Hve. cbv beta iota.
  destruct (m_val i2) as [|b2|d|s2|il|c2];
    try (apply Hstay; right; right; reflexivity).
  - destruct (deref_list lst i3) as [[target|e] s] eqn:E1;
      apply deref_list_state in E1; subst s;
      [|apply Hstay; right; right; reflexivity].
    destruct (subscript (m_list target) 1 i3) as [[second|e] s] eqn:E2;
      apply subscript_state in E2; subst s;
      [|apply Hstay; right; right; reflexivity].
    destruct (negb _); [apply Hstay; right; right; reflexivity|].
    destruct (assign_at_shape lst (lround d - 1) (m_val i3) i3)
      as [heap [Hs Hh]].
    exists i3, heap. split; [right; right; reflexivity|].
    split; [exact Hs|exact Hh].
  - destruct (m_val i3) as [|b3|d3|s3|vl|c3];
      try (apply Hstay; right; right; reflexivity).
    destruct (deref_list il i3) as [[indexList|e] s] eqn:E1;
      apply deref_list_state in E1; subst s;
      [|apply Hstay; right; right; reflexivity].
    destruct (deref_list vl i3) as [[valueList|e] s] eqn:E2;
      apply deref_list_state in E2; subst s;
      [|apply Hstay; right; right; reflexivity].
    destruct (negb (Nat.eqb _ _));
      [apply Hstay; right; right; reflexivity|].
    destruct (negb (ListType_eqb _ _));
      [apply Hstay; right; right; reflexivity|].
    destruct (scatter_shape lst il vl
                (seq 0 (length (m_list indexList))) i3) as [heap [Hs Hh]].
    exists i3, heap. split; [right; right; reflexivity|].
    split; [exact Hs|exact Hh].
Qed.

Lemma index_assignment_changes_elements_only_witness :
  accept 4 Sample.letters Interpreter_new = (Ok tt, Sample.with_letters) /\
  accept 4 (Sample.number "2") Sample.with_letters
  = (Ok tt, Sample.with_letters_and_index) /\
  accept 4 (Sample.text "z") Sample.with_letters_and_index
  = (Ok tt, set_val (VStr "z") Sample.with_letters) /\
  exists (j : Interpreter) (heap : list list_t),
    (j = Sample.with_letters \/ j = Sample.with_letters_and_index \/
     j = set_val (VStr "z") Sample.with_letters) /\
    snd (visit_IndexAssign (accept 4) Sample.letters (Sample.number "2")
           Sample.brkt (Sample.tok TokenType.EQUAL "=") (Sample.text "z")
           Interpreter_new)
    = set_lists heap j /\
    map shape heap = map shape (lists j).
Proof.
  repeat (split; [reflexivity|]).
  exact (index_assignment_changes_elements_only (accept 4) Sample.letters
           (Sample.number "2") (Sample.text "z") Sample.brkt
           (Sample.tok TokenType.EQUAL "=") Interpreter_new
           Sample.with_letters Sample.with_letters_and_index
           (set_val (VStr "z") Sample.with_letters)
           eq_refl eq_refl eq_refl).
Defined.

Lemma Variant_eqb_refl (a : Variant) : Variant_eqb a a = true.
Proof. destruct a; reflexivity. Qed.

(** What is stored is what is read. Let a single valid index [d] be
    assigned into a list with at least two elements, the new value
    having the variant of the second element (the test the code
    applies). Then the assignment succeeds; the list holds the new
    value at the position of [d] and its other elements as before;
    every other list is untouched; and the value of the assignment
    expression is the assigned value. *)
Theorem stored_element_is_read_back :
  forall (accept : Expr -> M unit) (le ie ve : Expr) (iop op : Token)
         (i i1 i2 i3 : Interpreter) (lp : list_ptr) (d : Q)
         (L2 L : list_t) (second : Value),
    accept le i = (Ok tt, i1) ->
    m_val i1 = VList lp ->
    accept ie i1 = (Ok tt, i2) ->
    m_val i2 = VNum d ->
    lists i2 !! lp = Some L2 ->
    valid_index (length (m_list L2)) d = true ->
    accept ve i2 = (Ok tt, i3) ->
    lists i3 !! lp = Some L ->
    length (m_list L) = length (m_list L2) ->
    m_list L !! 1 = Some second ->
    Value_index (m_val i3) = Value_index second ->
    exists (i' : Interpreter) (L' : list_t),
      visit_IndexAssign accept le ie iop op ve i = (Ok tt, i') /\
      lists i' !! lp = Some L' /\
      m_list L' !! position d = Some (m_val i3) /\
      (forall k : nat, k <> position d -> m_list L' !! k = m_list L !! k) /\
      m_type L' = m_type L /\
      (forall q : list_ptr, q <> lp -> lists i' !! q = lists i3 !! q) /\
      m_val i' = m_val i3.
Proof.
  intros accept le ie ve iop op i i1 i2 i3 lp d L2 L second
    Hl Hv Hi Hd HL2 Hvalid Hve HL Hlen Hsecond Hvariant.
  assert (Hpos : (0 < lround d)%Z /\ (position d < length (m_list L))%nat).
  { unfold valid_index in Hvalid.
    apply andb_prop in Hvalid as [H H3]. apply andb_prop in H as [_ H2].
    apply Z.ltb_lt in H2. apply Nat.leb_le in H3. unfold position.
    split; [exact H2|lia]. }
  destruct Hpos as [Hround Hpos].
  pose proof (lookup_lt_Some _ _ _ HL) as Hlp.
  exists (set_lists
            (<[lp := mkList (<[position d := m_val i3]> (m_list L)) (m_type L)]>
               (lists i3)) i3),
    (mkList (<[position d := m_val i3]> (m_list L)) (m_type L)).
  split; [|split; [|split; [|split; [|split; [|split]]]]].
  - unfold visit_IndexAssign, bind, get. rewrite Hl. cbv beta iota.
    rewrite Hv, Hi. cbv beta iota. rewrite Hd.
    rewrite (verifyIndices_scalar lp L2 d iop i2 HL2).
    rewrite (verifyIndex_valid _ _ _ _ Hvalid). rewrite Hve.
    cbv beta iota. unfold deref_list. rewrite HL.
    unfold subscript.
    change (1 <? 0)%Z with false. change (Z.to_nat 1) with 1%nat.
    cbv beta iota. rewrite Hsecond. unfold ret.
    rewrite Hvariant, Variant_eqb_refl. cbn [negb].
    unfold assign_at, bind, deref_list. rewrite HL.
    destruct (lround d - 1 <? 0)%Z eqn:E1; [apply Z.ltb_lt in E1; lia|].
    fold (position d).
    destruct (position d <? length (m_list L))%nat eqn:E2;
      [|apply Nat.ltb_ge in E2; lia].
    reflexivity.
  - cbn [lists set_lists]. apply list_lookup_insert_eq. exact Hlp.
  - cbn [m_list]. apply list_lookup_insert_eq. exact Hpos.
  - intros k Hk. cbn [m_list]. apply list_lookup_insert_ne. congruence.
  - reflexivity.
  - intros q Hq. cbn [lists set_lists]. apply list_lookup_insert_ne.
    congruence.
  - reflexivity.
Qed.

Lemma stored_element_is_read_back_witness :
  accept 4 Sample.letters Interpreter_new = (Ok tt, Sample.with_letters) /\
  accept 4 (Sample.number "2") Sample.with_letters
  = (Ok tt, Sample.with_letters_and_index) /\
  accept 4 (Sample.text "z") Sample.with_letters_and_index
  = (Ok tt, set_val (VStr "z") Sample.with_letters) /\
  lists Sample.with_letters !! 0
  = Some (mkList [VStr "a"; VStr "b"] (elemType StrV)) /\
  valid_index 2 2 = true /\
  exists (i' : Interpreter) (L' : list_t),
    visit_IndexAssign (accept 4) Sample.letters (Sample.number "2")
      Sample.brkt (Sample.tok TokenType.EQUAL "=") (Sample.text "z")
      Interpreter_new
    = (Ok tt, i') /\
    lists i' !! 0 = Some L' /\
    m_list L' !! position 2 = Some (VStr "z") /\
    (forall k : nat, k <> position 2 ->
       m_list L' !! k = [VStr "a"; VStr "b"] !! k) /\
    m_type L' = elemType StrV /\
    (forall q : list_ptr, q <> 0 ->
       lists i' !! q = lists Sample.with_letters !! q) /\
    m_val i' = VStr "z".
Proof.
  repeat (split; [reflexivity|]).
  exact (stored_element_is_read_back (accept 4) Sample.letters
           (Sample.number "2") (Sample.text "z") Sample.brkt
           (Sample.tok TokenType.EQUAL "=") Interpreter_new
           Sample.with_letters Sample.with_letters_and_index
           (set_val (VStr "z") Sample.with_letters) 0 2
           (mkList [VStr "a"; VStr "b"] (elemType StrV))
           (mkList [VStr "a"; VStr "b"] (elemType StrV)) (VStr "b")
           eq_refl eq_refl eq_refl eq_refl eq_refl eq_refl eq_refl eq_refl
           eq_refl eq_refl eq_refl).
Defined.

Lemma Qfloor_unique (x : Q) (z : Z) :
  (inject_Z z <= x)%Q -> (x < inject_Z z + 1)%Q -> Qfloor x = z.
Proof.
  intros Hle Hlt.
  pose proof (Qfloor_le x) as H1. pose proof (Qlt_floor x) as H2.
  assert (Ha : (inject_Z (Qfloor x) < inject_Z (z + 1))%Q)
    by (rewrite inject_Z_plus; change (inject_Z 1) with 1%Q; lra).
  assert (Hb : (inject_Z z < inject_Z (Qfloor x + 1))%Q) by lra.
  rewrite <- Zlt_Qlt in Ha, Hb. lia.
Qed.

(** [std::lround] of a whole number is that number. *)
Lemma lround_inject_Z (k : Z) : lround (inject_Z k) = k.
Proof.
  unfold lround. destruct (Qle_bool 0 (inject_Z k)) eqn:E.
  - apply Qfloor_unique; lra.
  - assert (H : Qfloor (- inject_Z k + (1 # 2)) = (- k)%Z).
    { apply Qfloor_unique; rewrite inject_Z_opp; lra. }
    rewrite H. lia.
Qed.

Lemma valid_index_whole (size : nat) (k : Z) :
  valid_index size (inject_Z k) = true <-> (1 <= k <= Z.of_nat size)%Z.
Proof.
  unfold valid_index. rewrite lround_inject_Z.
  assert (Hclose :
    Qltb (Qabs (inject_Z k - inject_Z k)) epsilon = true).
  { apply Qltb_lt.
    assert (Hz : (inject_Z k - inject_Z k == 0)%Q) by ring.
    rewrite Hz. reflexivity. }
  rewrite Hclose. cbn [andb]. rewrite andb_true_iff, Z.ltb_lt, Nat.leb_le.
  lia.
Qed.

(** The whole numbers [verifyIndices] accepts as a single index into a
    list are exactly 1 up to the length of the list: 0, every negative
    number and every number beyond the length raise a runtime error,
    and no index at all is accepted for an empty list. *)
Theorem whole_number_indices :
  forall (lst : list_ptr) (L : list_t) (op : Token) (k : Z) (i : Interpreter),
    lists i !! lst = Some L ->
    (verifyIndices lst (VNum (inject_Z k)) op i = (Ok tt, i) <->
     (1 <= k <= Z.of_nat (length (m_list L)))%Z) /\
    (~ (1 <= k <= Z.of_nat (length (m_list L)))%Z ->
     exists msg : string,
       verifyIndices lst (VNum (inject_Z k)) op i
       = (Throw (RuntimeError op msg), i)).
Proof.
  intros lst L op k i HL.
  rewrite (verifyIndices_scalar lst L (inject_Z k) op i HL).
  pose proof (valid_index_whole (length (m_list L)) k) as Hw.
  destruct (valid_index (length (m_list L)) (inject_Z k)) eqn:E.
  - rewrite (verifyIndex_valid _ _ _ _ E).
    split; [|intros Hn; exfalso; apply Hn, Hw; reflexivity].
    split; [intros _; apply Hw; reflexivity|reflexivity].
  - destruct (verifyIndex_invalid (length (m_list L)) op (inject_Z k) i E)
      as [msg Hm].
    rewrite Hm. split; [|intros _; exists msg; reflexivity].
    split; [intros H; discriminate H|].
    intros H. apply Hw in H. discriminate H.
Qed.

Lemma whole_number_indices_witness :
  lists Sample.with_letters !! 0
  = Some (mkList [VStr "a"; VStr "b"] (elemType StrV)) /\
  exists msg : string,
    verifyIndices 0 (VNum (inject_Z 0)) Sample.brkt Sample.with_letters
    = (Throw (RuntimeError Sample.brkt msg), Sample.with_letters).
Proof.
  split; [reflexivity|].
  apply (whole_number_indices 0 (mkList [VStr "a"; VStr "b"] (elemType StrV))
           Sample.brkt 0 Sample.with_letters eq_refl).
  cbn. lia.
Defined.

(** ** Blocks, loops and calls *)

(** No runtime error leaves a block: [executeBlock] never ends with a
    [RuntimeError], whatever its statements do. And whenever it ends
    normally (a caught error included) or with a [return], the current
    environment is the one it was entered from. *)
Theorem block_confines_runtime_errors :
  forall (execute : Stmt -> M unit) (stmts : Stmts) (env : Env_ptr)
         (i : Interpreter),
    (forall (t : Token) (msg : string),
        fst (executeBlock execute stmts env i) <> Throw (RuntimeError t msg)) /\
    (fst (executeBlock execute stmts env i) = Ok tt \/
     (exists v : Value,
         fst (executeBlock execute stmts env i) = Throw (ReturnThrow v)) ->
     m_env (snd (executeBlock execute stmts env i)) = m_env i).
Proof.
  intros execute stmts env i. rewrite executeBlock_unwind.
  destruct (execute_all execute stmts (set_env env i)) as [[[]|e] i'].
  - split; [intros t msg; discriminate|]. intros _. reflexivity.
  - destruct e; cbn [fst snd]; (split; [intros t msg; discriminate|]);
      try (intros _; reflexivity);
      intros [H|[v H]]; discriminate H.
Qed.

Lemma while_loop_never_continues (accept : Expr -> M unit)
  (execute : Stmt -> M unit) (c : Expr) (b : Stmt) :
  (forall j : Interpreter, fst (accept c j) <> Throw ContinueThrow) ->
  forall (n : nat) (i : Interpreter),
    fst (while_loop accept execute n c b i) <> Throw ContinueThrow.
Proof.
  intros Hc. induction n as [|n IH]; intros i; [discriminate|].
  cbn [while_loop]. unfold bind, get, catch_continue, try_catch.
  destruct (isTrue (m_val i)); [|discriminate].
  destruct (execute b i) as [[[]|e] i1].
  - specialize (Hc i1). destruct (accept c i1) as [[[]|e] i2]; [apply IH|].
    exact Hc.
  - destruct e; try discriminate. cbn [ret].
    specialize (Hc i1). destruct (accept c i1) as [[[]|e] i2]; [apply IH|].
    exact Hc.
Qed.

Lemma for_loop_never_continues (accept : Expr -> M unit)
  (execute : Stmt -> M unit) (c u : Expr) (b : Stmt) :
  (forall j : Interpreter, fst (accept c j) <> Throw ContinueThrow) ->
  (forall j : Interpreter, fst (accept u j) <> Throw ContinueThrow) ->
  forall (n : nat) (i : Interpreter),
    fst (for_loop accept execute n c u b i) <> Throw ContinueThrow.
Proof.
  intros Hc Hu. induction n as [|n IH]; intros i; [discriminate|].
  cbn [for_loop]. unfold bind, get, catch_continue, try_catch.
  destruct (isTrue (m_val i)); [|discriminate].
  assert (Hrest : forall i1 : Interpreter,
    fst (let (r, i') := accept_if_present accept u i1 in
         match r with
         | Ok _ =>
             let (r0, i'0) := accept c i' in
             match r0 with
             | Ok _ => for_loop accept execute n c u b i'0
             | Throw e => (Throw e, i'0)
             end
         | Throw e => (Throw e, i')
         end) <> Throw ContinueThrow).
  { intros i1. unfold accept_if_present.
    assert (Hu' : fst (match u with NullExpr => ret tt | _ => accept u end i1)
                  <> Throw ContinueThrow)
      by (destruct u; try apply Hu; discriminate).
    destruct (match u with NullExpr => ret tt | _ => accept u end i1)
      as [[[]|e] i2]; [|exact Hu'].
    specialize (Hc i2). destruct (accept c i2) as [[[]|e] i3]; [apply IH|].
    exact Hc. }
  destruct (loop_body execute b i) as [[[]|e] i1]; [apply Hrest|].
  destruct e; try discriminate. apply Hrest.
Qed.

(** [break] and [continue] never leave the loop they are in: if the
    head of a [while] or a C-style [for] (condition, initialisation,
    increment) does not itself throw them, the loop statement ends
    with neither, whatever its body does. *)
Theorem loops_confine_break_and_continue :
  forall (accept : Expr -> M unit) (execute : Stmt -> M unit) (n : nat)
         (init c u : Expr) (b : Stmt),
    (forall (e : Expr) (j : Interpreter),
        e = init \/ e = c \/ e = u ->
        fst (accept e j) <> Throw BreakThrow /\
        fst (accept e j) <> Throw ContinueThrow) ->
    forall i : Interpreter,
      fst (visit_While accept n execute c b i) <> Throw BreakThrow /\
      fst (visit_While accept n execute c b i) <> Throw ContinueThrow /\
      fst (visit_For accept n execute init c u b i) <> Throw BreakThrow /\
      fst (visit_For accept n execute init c u b i) <> Throw ContinueThrow.
Proof.
  intros accept execute n init c u b Hhead i.
  assert (Hc : forall j, fst (accept c j) <> Throw BreakThrow /\
                         fst (accept c j) <> Throw ContinueThrow)
    by (intros j; apply Hhead; right; left; reflexivity).
  assert (Hu : forall j, fst (accept u j) <> Throw ContinueThrow)
    by (intros j; apply Hhead; right; right; reflexivity).
  assert (Hi : forall j, fst (accept_if_present accept init j) <> Throw BreakThrow /\
                         fst (accept_if_present accept init j) <> Throw ContinueThrow).
  { intros j. unfold accept_if_present.
    destruct init; try (apply Hhead; left; reflexivity).
    split; discriminate. }
  assert (Hw : fst (visit_While accept n execute c b i) <> Throw BreakThrow /\
               fst (visit_While accept n execute c b i) <> Throw ContinueThrow).
  { unfold visit_While, bind, catch_break, try_catch.
    destruct (Hc i) as [H1 H2].
    destruct (accept c i) as [[[]|e] i1]; [|split; assumption].
    pose proof (while_loop_never_continues accept execute c b
                  (fun j => proj2 (Hc j)) n i1) as Hn.
    destruct (while_loop accept execute n c b i1) as [[[]|e] i2];
      [split; discriminate|].
    destruct e; split; try discriminate; exact Hn. }
  destruct Hw as [Hw1 Hw2]. split; [exact Hw1|]. split; [exact Hw2|].
  unfold visit_For, bind, get, new_environment, modify, catch_break, try_catch.
  cbv beta iota.
  match goal with
  | |- context [accept_if_present accept init ?j] =>
      destruct (Hi j) as [H1 H2];
      destruct (accept_if_present accept init j) as [[[]|e] i1];
      [|split; assumption]
  end.
  destruct (Hc i1) as [H3 H4].
  destruct (accept c i1) as [[[]|e] i2]; [|split; assumption].
  pose proof (for_loop_never_continues accept execute c u b
                (fun j => proj2 (Hc j)) Hu n i2) as Hn.
  destruct (for_loop accept execute n c u b i2) as [[[]|e] i3];
    [split; discriminate|].
  destruct e; split; try discriminate; exact Hn.
Qed.

Lemma loops_confine_break_and_continue_witness :
  (forall (e : Expr) (j : Interpreter),
      e = NullExpr \/ e = Sample.true_ \/ e = NullExpr ->
      fst (accept 5 e j) <> Throw BreakThrow /\
      fst (accept 5 e j) <> Throw ContinueThrow) /\
  fst (visit_While (accept 5) 5 (execute 5) Sample.true_ (Block [Break])
         Interpreter_new) <> Throw BreakThrow.
Proof.
  assert (H : forall (e : Expr) (j : Interpreter),
      e = NullExpr \/ e = Sample.true_ \/ e = NullExpr ->
      fst (accept 5 e j) <> Throw BreakThrow /\
      fst (accept 5 e j) <> Throw ContinueThrow)
    by (intros e j [->|[->| ->]]; split; discriminate).
  split; [exact H|].
  exact (proj1 (loops_confine_break_and_continue (accept 5) (execute 5) 5
                  NullExpr Sample.true_ NullExpr (Block [Break]) H
                  Interpreter_new)).
Defined.

Lemma accept_all_length (accept : Expr -> M unit) (es : list Expr) :
  forall (i i' : Interpreter) (vs : list Value),
    accept_all accept es i = (Ok vs, i') -> length vs = length es.
Proof.
  induction es as [|e rest IH]; intros i i' vs H; cbn [accept_all] in H.
  - injection H as <- _. reflexivity.
  - unfold bind, get, ret in H.
    destruct (accept e i) as [[[]|x] i1]; [|discriminate H].
    destruct (accept_all accept rest i1) as [[ws|x] i2] eqn:E;
      [|discriminate H].
    injection H as <- _. cbn [length]. f_equal. exact (IH _ _ _ E).
Qed.

(** A call is checked only after the callee and every argument have
    been evaluated, in that order: when the callee is no callable the
    visit raises ["Provided object is not callable."] at the closing
    parenthesis, and when the number of argument expressions differs
    from the callable's arity it raises the argument-count error. In
    both cases the callable is not run, and the interpreter is left as
    the last argument left it. *)
Theorem call_checks_follow_the_arguments :
  forall (accept : Expr -> M unit) (call : Callable -> list Value -> M Value)
         (callee : Expr) (paren : Token) (args : list Expr)
         (i i1 i2 : Interpreter) (vs : list Value),
    accept callee i = (Ok tt, i1) ->
    accept_all accept args i1 = (Ok vs, i2) ->
    ((forall c : Callable_ptr, m_val i1 <> VCallable c) ->
     visit_Call accept call callee paren args i
     = (Throw (RuntimeError paren "Provided object is not callable."), i2)) /\
    (forall (c : Callable_ptr) (fn : Callable),
        m_val i1 = VCallable c ->
        callables i2 !! c = Some fn ->
        arity fn <> length args ->
        visit_Call accept call callee paren args i
        = (Throw (RuntimeError paren
                    ("Expected " ++ to_string (arity fn)
                     ++ " argument(s) but got "
                     ++ to_string (length args) ++ " argument(s).")), i2)).
Proof.
  intros accept call callee paren args i i1 i2 vs Hc Ha.
  pose proof (accept_all_length accept args _ _ _ Ha) as Hlen.
  split.
  - intros Hno. unfold visit_Call, bind, get. rewrite Hc. cbv beta iota.
    rewrite Ha. cbv beta iota.
    destruct (m_val i1) as [|b|d|s|l|c]; try reflexivity.
    exfalso. exact (Hno c eq_refl).
  - intros c fn Hv Hfn Har. unfold visit_Call, bind, get. rewrite Hc.
    cbv beta iota. rewrite Ha. cbv beta iota. rewrite Hv.
    unfold deref_callable. rewrite Hfn. cbv beta iota. rewrite Hlen.
    destruct (Nat.eqb_spec (arity fn) (length args)) as [E|E];
      [contradiction|reflexivity].
Qed.

Lemma call_checks_follow_the_arguments_witness :
  accept 3 (Sample.number "1") Interpreter_new
  = (Ok tt, set_val (VNum 1) Interpreter_new) /\
  visit_Call (accept 3) (Callable_call 3 (execute 3)) (Sample.number "1")
    (Sample.tok TokenType.RPAREN ")") [Sample.number "2"] Interpreter_new
  = (Throw (RuntimeError (Sample.tok TokenType.RPAREN ")")
              "Provided object is not callable."),
     set_val (VNum 2) Interpreter_new).
Proof.
  split; [reflexivity|].
  apply (proj1 (call_checks_follow_the_arguments (accept 3)
                  (Callable_call 3 (execute 3)) (Sample.number "1")
                  (Sample.tok TokenType.RPAREN ")") [Sample.number "2"]
                  Interpreter_new (set_val (VNum 1) Interpreter_new)
                  (set_val (VNum 2) Interpreter_new) [VNum 2]
                  eq_refl eq_refl)).
  intros c H. discriminate H.
Defined.

(** ** The parser

    Every rule is followed from a well-placed state with a judgement,
    [sound], that says where the rule can leave the parser. The rules
    that call themselves take their bound from the tokens left, so
    that no rule runs out of steps. *)

Section ParserTotality.
Import Parser.
#[local] Open Scope nat_scope.

(** *** States *)

Lemma follows_refl (p : state) : follows p p.
Proof. unfold follows. repeat split; auto. Qed.

Lemma follows_trans (p q r : state) : follows p q -> follows q r -> follows p r.
Proof.
  intros (a1 & a2 & a3 & a4 & a5 & a6) (b1 & b2 & b3 & b4 & b5 & b6).
  unfold follows. repeat split; try congruence; try lia.
  intros H. rewrite b6 by congruence. auto.
Qed.

Lemma at_end_same (p q : state) :
  m_tokens q = m_tokens p -> m_current q = m_current p -> at_end q = at_end p.
Proof. intros H1 H2. unfold at_end. rewrite H1, H2. reflexivity. Qed.

Lemma well_placed_same (p q : state) :
  m_tokens q = m_tokens p -> m_current q = m_current p ->
  well_placed p -> well_placed q.
Proof.
  intros H1 H2 (a & b & c). unfold well_placed.
  rewrite (at_end_same p q H1 H2), H1, H2. auto.
Qed.

Lemma well_placed_token (p : state) :
  well_placed p -> exists t, m_tokens p !! m_current p = Some t.
Proof.
  intros (_ & H & _). apply lookup_lt_is_Some_2 in H. destruct H as [t H].
  exists t. exact H.
Qed.

Lemma well_placed_next (p : state) :
  well_placed p -> at_end p = false ->
  well_placed (set_current (S (m_current p)) p).
Proof.
  intros (a & b & c) H. unfold well_placed. cbn [m_tokens m_current set_current].
  split; [exact a|]. split; [|intros E; discriminate E].
  destruct (Nat.eq_dec (S (m_current p)) (length (m_tokens p))) as [E|E]; [|lia].
  exfalso. unfold ends_with_EOF in a. rewrite last_lookup in a.
  unfold at_end in H. rewrite <- E in a. cbn [Nat.pred] in a.
  destruct (m_tokens p !! m_current p); congruence.
Qed.

(** *** The judgement composes *)

Lemma sound_weaken {A} (b : bool) (p : state) (Q : A -> state -> Prop) x :
  sound false p Q x -> sound b p Q x.
Proof.
  intros (a1 & a2 & a3). split; [exact a1|]. split; [exact a2|].
  destruct (fst x) as [a|[msg|k]]; [exact a3| |exact a3].
  destruct a3 as [a3 _]. discriminate a3.
Qed.

Lemma sound_post {A} (b : bool) (p : state) (Q Q' : A -> state -> Prop) x :
  sound b p Q x ->
  (forall a, follows p (snd x) -> well_placed (snd x) -> Q a (snd x) ->
             Q' a (snd x)) ->
  sound b p Q' x.
Proof.
  intros (a1 & a2 & a3) H. split; [exact a1|]. split; [exact a2|].
  destruct (fst x) as [a|[msg|k]]; [apply H; assumption|exact a3|exact a3].
Qed.

Lemma sound_from {A} (b : bool) (p q : state) (Q' Q : A -> state -> Prop) x :
  follows p q -> sound b q Q' x ->
  (forall a, follows q (snd x) -> well_placed (snd x) -> Q' a (snd x) ->
             Q a (snd x)) ->
  sound b p Q x.
Proof.
  intros F (a1 & a2 & a3) H. split; [exact (follows_trans _ _ _ F a1)|].
  split; [exact a2|].
  destruct (fst x) as [a|[msg|k]]; [apply H; assumption| |exact a3].
  destruct a3 as [a3 a4]. split; [exact a3|].
  destruct F as (_ & _ & F & _). lia.
Qed.

Lemma sound_ret {A} (b : bool) (p p0 : state) (Q : A -> state -> Prop) (a : A) :
  follows p p0 -> well_placed p0 -> Q a p0 -> sound b p Q (ret a p0).
Proof. intros F W H. split; [exact F|]. split; [exact W|exact H]. Qed.

Lemma sound_bind {A B} (b : bool) (p p0 : state) (m : P A) (f : A -> P B)
  (Q1 : A -> state -> Prop) (Q2 : B -> state -> Prop) :
  follows p p0 ->
  sound b p0 Q1 (m p0) ->
  (forall a p', follows p p' -> well_placed p' -> follows p0 p' -> Q1 a p' ->
                sound b p Q2 (f a p')) ->
  sound b p Q2 (bind m f p0).
Proof.
  intros F (a1 & a2 & a3) K. unfold bind.
  destruct (m p0) as [[a|[msg|k]] p']; cbn [fst snd] in *.
  - apply K; try assumption. exact (follows_trans _ _ _ F a1).
  - split; [exact (follows_trans _ _ _ F a1)|]. split; [exact a2|].
    destruct a3 as [a3 a4]. split; [exact a3|]. cbn [fst snd].
    destruct F as (_ & _ & F & _). lia.
  - contradiction.
Qed.

Lemma sound_get {A} (b : bool) (p0 : state) (f : state -> A) :
  well_placed p0 -> sound b p0 (fun a p' => p' = p0 /\ a = f p0) (get f p0).
Proof.
  intros W. split; [apply follows_refl|]. split; [exact W|]. split; reflexivity.
Qed.

(** *** The helpers *)

Lemma peek_eq (p : state) (t : Token) :
  m_tokens p !! m_current p = Some t -> peek p = (Ok t, p).
Proof. intros H. unfold peek, bind, get, token_at. rewrite H. reflexivity. Qed.

Lemma isAtEnd_eq (p : state) : well_placed p -> isAtEnd p = (Ok (at_end p), p).
Proof.
  intros W. destruct (well_placed_token p W) as [t H].
  unfold isAtEnd, bind. rewrite (peek_eq p t H). unfold at_end. rewrite H.
  reflexivity.
Qed.

Lemma previous_eq (p : state) :
  well_placed p -> 1 <= m_current p ->
  exists t, m_tokens p !! (m_current p - 1) = Some t /\ previous p = (Ok t, p).
Proof.
  intros (_ & W & _) H. unfold previous, bind, get, token_at.
  destruct (m_current p) as [|c] eqn:E; [lia|].
  assert (Hc : c < length (m_tokens p)) by lia.
  apply lookup_lt_is_Some_2 in Hc. destruct Hc as [t Hc]. rewrite Hc.
  exists t. replace (S c - 1) with c by lia. split; [exact Hc|reflexivity].
Qed.

Lemma peek_sound (b : bool) (p0 : state) :
  well_placed p0 -> sound b p0 (fun _ p' => p' = p0) (peek p0).
Proof.
  intros W. destruct (well_placed_token p0 W) as [t H].
  rewrite (peek_eq p0 t H). split; [apply follows_refl|]. split; [exact W|reflexivity].
Qed.

Lemma previous_sound (b : bool) (p0 : state) :
  well_placed p0 -> 1 <= m_current p0 ->
  sound b p0 (fun _ p' => p' = p0) (previous p0).
Proof.
  intros W H. destruct (previous_eq p0 W H) as (t & _ & E). rewrite E.
  split; [apply follows_refl|]. split; [exact W|reflexivity].
Qed.

Lemma isAtEnd_sound (b : bool) (p0 : state) :
  well_placed p0 ->
  sound b p0 (fun e p' => p' = p0 /\ e = at_end p0) (isAtEnd p0).
Proof.
  intros W. rewrite (isAtEnd_eq p0 W).
  split; [apply follows_refl|]. split; [exact W|]. split; reflexivity.
Qed.

Lemma isNextType_eq (type : TokenType.t) (p : state) :
  well_placed p ->
  exists r : bool, isNextType type p = (Ok r, p) /\ (r = true -> at_end p = false).
Proof.
  intros W. unfold isNextType, bind. rewrite (isAtEnd_eq p W).
  destruct (at_end p) eqn:E.
  - exists false. split; [reflexivity|discriminate].
  - destruct (well_placed_token p W) as [t H]. rewrite (peek_eq p t H).
    eexists. split; [reflexivity|reflexivity].
Qed.

Lemma isNextType_sound (b : bool) (type : TokenType.t) (p0 : state) :
  well_placed p0 ->
  sound b p0 (fun r p' => p' = p0 /\ (r = true -> at_end p0 = false))
    (isNextType type p0).
Proof.
  intros W. destruct (isNextType_eq type p0 W) as (r & E & H). rewrite E.
  split; [apply follows_refl|]. split; [exact W|]. split; [reflexivity|exact H].
Qed.

Lemma at_end_room (p : state) :
  well_placed p -> at_end p = false -> S (m_current p) < length (m_tokens p).
Proof.
  intros W H. destruct (well_placed_next p W H) as (_ & H1 & _). exact H1.
Qed.

Lemma isNextNextType_sound (b : bool) (type : TokenType.t) (p0 : state) :
  well_placed p0 ->
  sound b p0 (fun _ p' => p' = p0) (isNextNextType type p0).
Proof.
  intros W. unfold isNextNextType, bind. rewrite (isAtEnd_eq p0 W).
  destruct (at_end p0) eqn:E.
  - split; [apply follows_refl|]. split; [exact W|reflexivity].
  - pose proof (at_end_room p0 W E) as H. unfold get, token_at.
    replace (m_current p0 + 1) with (S (m_current p0)) by lia.
    apply lookup_lt_is_Some_2 in H. destruct H as [t H]. rewrite H.
    destruct (TokenType.eqb (getType t) TokenType.EOF_);
      (split; [apply follows_refl|]; split; [exact W|reflexivity]).
Qed.

Lemma follows_next (p : state) : follows p (set_current (S (m_current p)) p).
Proof. unfold follows. cbn. repeat split; auto. Qed.

Lemma advance_eq (p : state) :
  well_placed p ->
  exists t,
    advance p = (Ok t, if at_end p then p else set_current (S (m_current p)) p).
Proof.
  intros W. unfold advance, bind. rewrite (isAtEnd_eq p W).
  destruct (at_end p) eqn:E.
  - unfold ret. assert (H : 1 <= m_current p).
    { destruct W as (_ & _ & W). destruct (m_current p); [|lia].
      rewrite W in E by reflexivity. discriminate E. }
    destruct (previous_eq p W H) as (t & _ & Ht). rewrite Ht. exists t.
    reflexivity.
  - unfold modify.
    pose proof (well_placed_next p W E) as W'.
    assert (H : 1 <= m_current (set_current (S (m_current p)) p)) by (cbn; lia).
    destruct (previous_eq _ W' H) as (t & _ & Ht). rewrite Ht. exists t.
    reflexivity.
Qed.

Lemma advance_sound (b : bool) (p0 : state) :
  well_placed p0 ->
  sound b p0
    (fun _ p' => 1 <= m_current p' /\
                 (at_end p0 = false -> m_current p0 < m_current p'))
    (advance p0).
Proof.
  intros W. destruct (advance_eq p0 W) as [t E]. rewrite E.
  destruct (at_end p0) eqn:H.
  - split; [apply follows_refl|]. split; [exact W|].
    cbn [fst snd]. split; [|discriminate].
    destruct W as (_ & _ & W).
    destruct (Nat.eq_dec (m_current p0) 0) as [Ez|Ez]; [|lia].
    rewrite (W Ez) in H. discriminate H.
  - split; [apply follows_next|]. split; [exact (well_placed_next p0 W H)|].
    cbn. split; [lia|intros _; lia].
Qed.

Lemma match_sound (b : bool) (type : TokenType.t) (p0 : state) :
  well_placed p0 -> sound b p0 (moved_if p0) (match_ type p0).
Proof.
  intros W. unfold match_, bind.
  destruct (isNextType_eq type p0 W) as (r & E & H). rewrite E.
  destruct r.
  - destruct (advance_eq p0 W) as [t Ea]. rewrite Ea, (H eq_refl).
    split; [apply follows_next|].
    split; [exact (well_placed_next p0 W (H eq_refl))|]. cbn. lia.
  - split; [apply follows_refl|]. split; [exact W|reflexivity].
Qed.

Lemma match_any_sound (b : bool) (types : list TokenType.t) (p0 : state) :
  well_placed p0 -> sound b p0 (moved_if p0) (match_any types p0).
Proof.
  intros W. induction types as [|type rest IH]; cbn [match_any].
  - split; [apply follows_refl|]. split; [exact W|reflexivity].
  - unfold bind. destruct (isNextType_eq type p0 W) as (r & E & H). rewrite E.
    destruct r; [|exact IH].
    destruct (advance_eq p0 W) as [t Ea]. rewrite Ea, (H eq_refl).
    split; [apply follows_next|].
    split; [exact (well_placed_next p0 W (H eq_refl))|]. cbn. lia.
Qed.

Lemma follows_error (line : nat) (msg : string) (p : state) :
  follows p (Proto_error line msg p).
Proof.
  unfold follows. cbn. repeat split; auto. rewrite length_app. lia.
Qed.

Lemma error_sound (b : bool) (t : Token) (msg : string) (p0 : state) :
  well_placed p0 ->
  sound b p0
    (fun _ p' => length (errors p0) < length (errors p'))
    (error t msg p0).
Proof.
  intros W. unfold error, bind, modify, ret. split; [apply follows_error|].
  split; [exact (well_placed_same p0 _ eq_refl eq_refl W)|].
  cbn. rewrite length_app. cbn. lia.
Qed.

Lemma report_sound (b : bool) (line : nat) (msg : string) (p0 : state) :
  well_placed p0 ->
  sound b p0 (fun _ p' => m_current p' = m_current p0)
    (modify (Proto_error line msg) p0).
Proof.
  intros W. split; [apply follows_error|].
  split; [exact (well_placed_same p0 _ eq_refl eq_refl W)|reflexivity].
Qed.

Lemma matchWithErr_sound (type : TokenType.t) (err : string) (p0 : state) :
  well_placed p0 -> sound true p0 (moved p0) (matchWithErr type err p0).
Proof.
  intros W. unfold matchWithErr, bind.
  destruct (isNextType_eq type p0 W) as (r & E & H). rewrite E.
  destruct r.
  - destruct (advance_eq p0 W) as [t Ea]. rewrite Ea, (H eq_refl).
    split; [apply follows_next|].
    split; [exact (well_placed_next p0 W (H eq_refl))|]. unfold moved. cbn. lia.
  - destruct (well_placed_token p0 W) as [t Ht]. rewrite (peek_eq p0 t Ht).
    unfold error, bind, modify, ret, throw.
    split; [apply follows_error|].
    split; [exact (well_placed_same p0 _ eq_refl eq_refl W)|].
    cbn. split; [reflexivity|]. rewrite length_app. cbn. lia.
Qed.

Lemma fail_sound {A} (msg : string) (p p0 : state) (Q : A -> state -> Prop) :
  follows p p0 -> well_placed p0 ->
  sound true p Q ((t <- peek ;; e <- error t msg ;; throw e)%parse p0).
Proof.
  intros F W. destruct (well_placed_token p0 W) as [t Ht].
  unfold bind. rewrite (peek_eq p0 t Ht). unfold error, bind, modify, ret, throw.
  split; [exact (follows_trans _ _ _ F (follows_error _ _ _))|].
  split; [exact (well_placed_same p0 _ eq_refl eq_refl W)|].
  cbn. split; [reflexivity|]. rewrite length_app. cbn.
  destruct F as (_ & _ & F & _). lia.
Qed.

(** *** Proof steps

    [cursors] settles the arithmetic of cursors and of the diagnostics
    counted; [call] follows one call of a rule; [returns] and
    [leave with] close a rule at its [return]. *)

Lemma follows_facts (p q : state) :
  follows p q ->
  length (m_tokens q) = length (m_tokens p) /\
  m_current p <= m_current q /\
  length (errors p) <= length (errors q).
Proof. intros (H1 & H2 & H3 & _). rewrite H1. auto. Qed.

Lemma well_placed_cursor (p : state) :
  well_placed p -> m_current p < length (m_tokens p).
Proof. intros (_ & H & _). exact H. Qed.

Ltac cursor_facts :=
  unfold parsed, gives, grown, moved, moved_if, quiet, tokens_left in *;
  repeat match goal with
         | H : _ /\ _ |- _ => destruct H
         end;
  subst;
  repeat match goal with
         | H : follows ?p ?q |- _ =>
             destruct (follows_facts p q H) as (? & ? & ?); clear H
         | H : well_placed ?p |- _ =>
             pose proof (well_placed_cursor p H); clear H
         end.

Ltac cursors := cursor_facts; try lia.

Lemma or_null_NullExpr : or_null is_null complete_expr NullExpr = true.
Proof. reflexivity. Qed.

Lemma or_null_NullStmt : or_null is_null_stmt complete_stmt NullStmt = true.
Proof. reflexivity. Qed.

Lemma or_null_complete_expr (e : Expr) :
  complete_expr e = true -> or_null is_null complete_expr e = true.
Proof. intros H. unfold or_null. rewrite H. destruct (is_null e); reflexivity. Qed.

Lemma or_null_complete_stmt (s : Stmt) :
  complete_stmt s = true -> or_null is_null_stmt complete_stmt s = true.
Proof.
  intros H. unfold or_null. rewrite H. destruct (is_null_stmt s); reflexivity.
Qed.

Tactic Notation "call" uconstr(L) "as" ident(a) ident(q) ident(F) ident(W)
  ident(C) ident(H) :=
  eapply sound_bind;
  [ eassumption
  | eapply L; first [eassumption | solve [cursors]]
  | cbv beta; intros a q F W C H ].

Ltac premises :=
  repeat match goal with
         | H : ?P -> _ |- _ =>
             match type of P with
             | Prop => let X := fresh in
                       assert (X : P) by lia; specialize (H X); clear X
             end
         end;
  repeat match goal with
         | H : ?x = true -> _, H' : ?x = true |- _ => specialize (H H')
         end.

Ltac completeness :=
  premises;
  cbn [complete_expr complete_stmt forallb] in *;
  repeat match goal with
         | H : _ && _ = true |- _ => apply andb_prop in H; destruct H
         end;
  first
    [ solve [ rewrite ?forallb_app; cbn [forallb];
              rewrite ?or_null_NullExpr, ?or_null_NullStmt;
              repeat match goal with
                     | H : _ = true |- _ => rewrite H
                     end;
              rewrite ?or_null_complete_expr, ?or_null_complete_stmt
                by assumption;
              reflexivity ]
    | match goal with
      | H : _ -> ?g |- ?g => apply H; completeness
      end ].

Ltac settle :=
  cursor_facts; repeat match goal with |- _ /\ _ => split end;
  try exact I; intros; first [lia | exfalso; lia | completeness].

Ltac returns := apply sound_ret; [eassumption | eassumption | settle].

Tactic Notation "leave" "with" uconstr(L) :=
  eapply sound_from;
  [ eassumption
  | eapply L; first [eassumption | solve [cursors]]
  | cbv beta; intros; settle ].

Ltac origin p0 F := pose proof (follows_refl p0) as F.

Ltac stays := apply sound_ret; [apply follows_refl | assumption | settle].

(** *** The rules

    [expression] and [statement] stand for the two rules at a smaller
    bound; each rule is sound if they are. *)

Section Rules.

Variable expression : P Expr.
Variable statement : P Stmt.
Variable fuel : nat.

Hypothesis expression_sound :
  forall p, well_placed p -> tokens_left p < fuel ->
            sound true p (parsed complete_expr p) (expression p).

Hypothesis statement_sound :
  forall b p, well_placed p -> tokens_left p + 1 < fuel ->
              sound b p (parsed_statement p) (statement p).

Lemma tooMany_sound (b : bool) (count : nat) (msg : string) (p0 : state) :
  well_placed p0 ->
  sound b p0 (fun _ p' => m_current p' = m_current p0) (tooMany count msg p0).
Proof.
  intros W. origin p0 F. unfold tooMany. destruct (127 <=? count)%nat.
  - call peek_sound as t q F1 W1 C1 H1. subst q.
    apply report_sound; assumption.
  - returns.
Qed.

Lemma block_loop_sound (n : nat) :
  forall (acc : Stmts) (p0 : state),
    well_placed p0 -> tokens_left p0 <= n -> tokens_left p0 + 1 < fuel ->
    sound true p0 (grown (forallb complete_stmt) acc p0)
      (block_loop statement n acc p0).
Proof.
  induction n as [|n IH]; intros acc p0 W Hn Hf; [exfalso; cursors|].
  origin p0 F. cbn [block_loop].
  call isNextType_sound as r q F1 W1 C1 H1. destruct H1 as [-> H1].
  call isAtEnd_sound as e q F2 W2 C2 H2. destruct H2 as [-> ->].
  destruct r, (at_end p0) eqn:E; cbn [negb andb]; try returns.
  call statement_sound as s q F3 W3 C3 H3. destruct H3 as [H3 H4].
  specialize (H3 E).
  leave with IH.
Qed.

Lemma block_sound (p0 : state) :
  well_placed p0 -> tokens_left p0 + 1 < fuel ->
  sound true p0 (gives (forallb complete_stmt) p0) (block statement fuel p0).
Proof.
  intros W Hf. origin p0 F. unfold block.
  call block_loop_sound as s q F1 W1 C1 H1.
  call matchWithErr_sound as r q2 F2 W2 C2 H2.
  returns.
Qed.

Lemma params_loop_sound (msg : string) (n : nat) :
  forall (acc : list Token) (p0 : state),
    well_placed p0 -> tokens_left p0 <= n ->
    sound true p0 (fun _ _ => True) (params_loop n msg acc p0).
Proof.
  induction n as [|n IH]; intros acc p0 W Hn; [exfalso; cursors|].
  origin p0 F. cbn [params_loop].
  call tooMany_sound as u q F1 W1 C1 H1.
  call matchWithErr_sound as r q2 F2 W2 C2 H2.
  call previous_sound as t q3 F3 W3 C3 H3. subst q3.
  call match_sound as c q4 F4 W4 C4 H4.
  destruct c; [|returns].
  leave with IH.
Qed.

Lemma expressions_loop_sound (msg : option string) (n : nat) :
  forall (acc : list Expr) (p0 : state),
    well_placed p0 -> tokens_left p0 <= n -> tokens_left p0 < fuel ->
    sound true p0 (grown (forallb complete_expr) acc p0)
      (expressions_loop expression n msg acc p0).
Proof.
  induction n as [|n IH]; intros acc p0 W Hn Hf; [exfalso; cursors|].
  origin p0 F. cbn [expressions_loop].
  eapply sound_bind with (Q1 := fun _ p' => m_current p' = m_current p0);
    [eassumption| |cbv beta; intros u q F1 W1 C1 H1].
  { destruct msg; [apply tooMany_sound; assumption|stays]. }
  call expression_sound as e q2 F2 W2 C2 H2.
  call match_sound as c q3 F3 W3 C3 H3.
  destruct c; [|returns].
  leave with IH.
Qed.

Lemma list_sound (p0 : state) :
  well_placed p0 -> 1 <= m_current p0 -> tokens_left p0 < fuel ->
  sound true p0 (gives complete_expr p0) (list_ expression fuel p0).
Proof.
  intros W H1 Hf. origin p0 F. unfold list_.
  call previous_sound as t q F1 W1 C1 E1. subst q.
  call isNextType_sound as r q F2 W2 C2 E2. destruct E2 as [-> E2].
  eapply sound_bind with (Q1 := gives (forallb complete_expr) p0);
    [eassumption| |cbv beta; intros es q F3 W3 C3 H3].
  { destruct r; [stays|].
    eapply sound_post;
      [apply expressions_loop_sound; [assumption|cursors|assumption]|].
    cbv beta. intros; settle. }
  call matchWithErr_sound as c q2 F4 W4 C4 H4.
  returns.
Qed.

Lemma primary_sound (p0 : state) :
  well_placed p0 -> tokens_left p0 <= fuel ->
  sound true p0 (parsed complete_expr p0)
    (primary expression statement fuel p0).
Proof.
  intros W Hf. origin p0 F. unfold primary.
  call match_any_sound as b1 q1 F1 W1 C1 H1.
  destruct b1.
  { call previous_sound as t q F2 W2 C2 E2. subst q. returns. }
  unfold moved_if in H1. subst q1.
  call match_sound as b2 q2 F2 W2 C2 H2.
  destruct b2.
  { call expression_sound as e q3 F3 W3 C3 H3.
    call matchWithErr_sound as c q4 F4 W4 C4 H4. returns. }
  unfold moved_if in H2. subst q2.
  call match_sound as b3 q3 F3 W3 C3 H3.
  destruct b3.
  { call previous_sound as t q F4 W4 C4 E4. subst q. returns. }
  unfold moved_if in H3. subst q3.
  call match_sound as b4 q4 F4 W4 C4 H4.
  destruct b4.
  { call matchWithErr_sound as c5 q5 F5 W5 C5 H5.
    call isNextType_sound as r q6 F6 W6 C6 E6. destruct E6 as [-> E6].
    eapply sound_bind with (Q1 := fun _ _ => True);
      [eassumption| |cbv beta; intros ps q7 F7 W7 C7 _].
    { destruct r; [stays|].
      apply params_loop_sound; [assumption|cursors]. }
    call matchWithErr_sound as c8 q8 F8 W8 C8 H8.
    call matchWithErr_sound as c9 q9 F9 W9 C9 H9.
    call block_sound as body q10 F10 W10 C10 H10.
    returns. }
  unfold moved_if in H4. subst q4.
  call match_sound as b5 q5 F5 W5 C5 H5.
  destruct b5; [leave with list_sound|].
  unfold moved_if in H5. subst q5.
  apply fail_sound; assumption.
Qed.

Lemma index_or_call_loop_sound (n : nat) :
  forall (e : Expr) (p0 : state),
    well_placed p0 -> tokens_left p0 <= n -> tokens_left p0 <= fuel ->
    sound true p0 (grown complete_expr e p0)
      (index_or_call_loop expression fuel n e p0).
Proof.
  induction n as [|n IH]; intros e p0 W Hn Hf; [exfalso; cursors|].
  origin p0 F. cbn [index_or_call_loop].
  call match_sound as b1 q1 F1 W1 C1 H1.
  destruct b1.
  { call isNextType_sound as r q2 F2 W2 C2 E2. destruct E2 as [-> E2].
    eapply sound_bind with (Q1 := gives (forallb complete_expr) q1);
      [eassumption| |cbv beta; intros args q3 F3 W3 C3 H3].
    { destruct r; [stays|].
      eapply sound_post;
        [apply expressions_loop_sound; [assumption|cursors|cursors]|].
      cbv beta. intros; settle. }
    call matchWithErr_sound as c4 q4 F4 W4 C4 H4.
    call previous_sound as t q5 F5 W5 C5 E5. subst q5.
    leave with IH. }
  unfold moved_if in H1. subst q1.
  call match_sound as b2 q2 F2 W2 C2 H2.
  destruct b2; [|returns].
  call previous_sound as t q Fp Wp Cp Ep. subst q.
  call match_sound as b3 q3 F3 W3 C3 H3.
  eapply sound_bind with (Q1 := grown complete_expr e q2);
    [eassumption| |cbv beta; intros e' q4 F4 W4 C4 H4].
  { destruct b3.
    - origin q3 F0.
      call list_sound as li q F5 W5 C5 H5. returns.
    - unfold moved_if in H3. subst q3. origin q2 F0.
      call expression_sound as idx q F5 W5 C5 H5. returns. }
  call matchWithErr_sound as c5 q5 F5 W5 C5 H5.
  leave with IH.
Qed.

Lemma index_or_call_sound (p0 : state) :
  well_placed p0 -> tokens_left p0 <= fuel ->
  sound true p0 (parsed complete_expr p0)
    (index_or_call expression statement fuel p0).
Proof.
  intros W Hf. origin p0 F. unfold index_or_call.
  call primary_sound as e q1 F1 W1 C1 H1.
  leave with index_or_call_loop_sound.
Qed.

Lemma exponentiation_sound (n : nat) :
  forall p0 : state,
    well_placed p0 -> tokens_left p0 <= n -> tokens_left p0 <= fuel ->
    sound true p0 (parsed complete_expr p0)
      (exponentiation expression statement fuel n p0).
Proof.
  induction n as [|n IH]; intros p0 W Hn Hf; [exfalso; cursors|].
  origin p0 F. cbn [exponentiation].
  call index_or_call_sound as base q1 F1 W1 C1 H1.
  call match_sound as b q2 F2 W2 C2 H2.
  destruct b; [|returns].
  call previous_sound as op q3 F3 W3 C3 E3. subst q3.
  call IH as pw q4 F4 W4 C4 H4.
  returns.
Qed.

Lemma unary_sound (n : nat) :
  forall p0 : state,
    well_placed p0 -> tokens_left p0 <= n -> tokens_left p0 <= fuel ->
    sound true p0 (parsed complete_expr p0)
      (unary expression statement fuel n p0).
Proof.
  induction n as [|n IH]; intros p0 W Hn Hf; [exfalso; cursors|].
  origin p0 F. cbn [unary].
  call match_any_sound as b q1 F1 W1 C1 H1.
  destruct b.
  - call previous_sound as op q2 F2 W2 C2 E2. subst q2.
    call IH as r q3 F3 W3 C3 H3.
    returns.
  - unfold moved_if in H1. subst q1.
    apply exponentiation_sound; assumption.
Qed.

Lemma binary_loop_sound (types : list TokenType.t) (operand : P Expr)
  (node : Expr -> Token -> Expr -> Expr) :
  (forall l op r,
      complete_expr (node l op r) = complete_expr l && complete_expr r) ->
  (forall p, well_placed p -> tokens_left p <= fuel ->
             sound true p (parsed complete_expr p) (operand p)) ->
  forall (n : nat) (e : Expr) (p0 : state),
    well_placed p0 -> tokens_left p0 <= n -> tokens_left p0 <= fuel ->
    sound true p0 (grown complete_expr e p0)
      (binary_loop n types operand node e p0).
Proof.
  intros Hnode Hop. induction n as [|n IH]; intros e p0 W Hn Hf;
    [exfalso; cursors|].
  origin p0 F. cbn [binary_loop].
  call match_any_sound as b q1 F1 W1 C1 H1.
  destruct b; [|returns].
  call previous_sound as op q2 F2 W2 C2 E2. subst q2.
  call Hop as r q3 F3 W3 C3 H3.
  eapply sound_from;
    [ eassumption
    | eapply IH; first [eassumption | solve [cursors]]
    | cbv beta; intros a Fa Wa Ha ].
  cursor_facts. intros Hq He. premises. apply Ha. rewrite Hnode.
  match goal with H : complete_expr r = true |- _ => rewrite H end.
  rewrite He. reflexivity.
Qed.

Lemma binary_rule_sound (types : list TokenType.t) (operand : P Expr)
  (node : Expr -> Token -> Expr -> Expr) :
  (forall l op r,
      complete_expr (node l op r) = complete_expr l && complete_expr r) ->
  (forall p, well_placed p -> tokens_left p <= fuel ->
             sound true p (parsed complete_expr p) (operand p)) ->
  forall p0 : state,
    well_placed p0 -> tokens_left p0 <= fuel ->
    sound true p0 (parsed complete_expr p0)
      ((expr <- operand ;; binary_loop fuel types operand node expr)%parse p0).
Proof.
  intros Hnode Hop p0 W Hf. origin p0 F.
  call Hop as e q1 F1 W1 C1 H1.
  eapply sound_from;
    [ eassumption
    | eapply (binary_loop_sound types operand node Hnode Hop);
      first [eassumption | solve [cursors]]
    | cbv beta; intros; settle ].
Qed.

Lemma product_sound (p0 : state) :
  well_placed p0 -> tokens_left p0 <= fuel ->
  sound true p0 (parsed complete_expr p0)
    (product expression statement fuel p0).
Proof.
  apply binary_rule_sound; [reflexivity|].
  intros p W Hf. apply unary_sound; assumption.
Qed.

Lemma addition_sound (p0 : state) :
  well_placed p0 -> tokens_left p0 <= fuel ->
  sound true p0 (parsed complete_expr p0)
    (addition expression statement fuel p0).
Proof. apply binary_rule_sound; [reflexivity|exact product_sound]. Qed.

Lemma range_sound (p0 : state) :
  well_placed p0 -> tokens_left p0 <= fuel ->
  sound true p0 (parsed complete_expr p0)
    (range expression statement fuel p0).
Proof.
  intros W Hf. origin p0 F. unfold range.
  call addition_sound as e q1 F1 W1 C1 H1.
  call match_sound as b q2 F2 W2 C2 H2.
  destruct b; [|returns].
  call previous_sound as op q3 F3 W3 C3 E3. subst q3.
  call addition_sound as e2 q4 F4 W4 C4 H4.
  call match_sound as b2 q5 F5 W5 C5 H5.
  destruct b2; [|returns].
  call addition_sound as e3 q6 F6 W6 C6 H6.
  returns.
Qed.

Lemma comparision_sound (p0 : state) :
  well_placed p0 -> tokens_left p0 <= fuel ->
  sound true p0 (parsed complete_expr p0)
    (comparision expression statement fuel p0).
Proof. apply binary_rule_sound; [reflexivity|exact range_sound]. Qed.

Lemma equality_sound (p0 : state) :
  well_placed p0 -> tokens_left p0 <= fuel ->
  sound true p0 (parsed complete_expr p0)
    (equality expression statement fuel p0).
Proof. apply binary_rule_sound; [reflexivity|exact comparision_sound]. Qed.

Lemma land_sound (p0 : state) :
  well_placed p0 -> tokens_left p0 <= fuel ->
  sound true p0 (parsed complete_expr p0)
    (land expression statement fuel p0).
Proof. apply binary_rule_sound; [reflexivity|exact equality_sound]. Qed.

Lemma lor_sound (p0 : state) :
  well_placed p0 -> tokens_left p0 <= fuel ->
  sound true p0 (parsed complete_expr p0)
    (lor expression statement fuel p0).
Proof. apply binary_rule_sound; [reflexivity|exact land_sound]. Qed.

Lemma assignment_sound (n : nat) :
  forall p0 : state,
    well_placed p0 -> tokens_left p0 <= n -> tokens_left p0 <= fuel ->
    sound true p0 (parsed complete_expr p0)
      (assignment expression statement fuel n p0).
Proof.
  induction n as [|n IH]; intros p0 W Hn Hf; [exfalso; cursors|].
  origin p0 F. cbn [assignment].
  call lor_sound as e q1 F1 W1 C1 H1.
  call match_any_sound as b1 q2 F2 W2 C2 H2.
  eapply sound_bind with (Q1 := grown_option e q2);
    [eassumption| |cbv beta; intros r1 q3 F3 W3 C3 H3].
  { destruct b1; [|apply sound_ret; [apply follows_refl|assumption|]; intros _ _; exact I].
    origin q2 F0.
    call previous_sound as op q Fp Wp Cp Ep. subst q.
    call IH as val qv Fv Wv Cv Hv.
    unfold grown_option.
    destruct e; try returns;
      (call error_sound as er qe Fe We Ce He;
       apply sound_ret; [assumption|assumption|]; intros _ _; exact I). }
  unfold grown_option in H3.
  destruct r1; [returns|].
  call match_any_sound as b2 q4 F4 W4 C4 H4.
  eapply sound_bind with (Q1 := grown_option e q4);
    [eassumption| |cbv beta; intros r2 q5 F5 W5 C5 H5].
  { destruct b2; [|apply sound_ret; [apply follows_refl|assumption|]; intros _ _; exact I].
    origin q4 F0.
    call previous_sound as op q Fp Wp Cp Ep. subst q.
    call IH as val qv Fv Wv Cv Hv.
    unfold grown_option.
    destruct e;
      try (call error_sound as er qe Fe We Ce He;
           apply sound_ret; [assumption|assumption|]; intros _ _; exact I).
    destruct (desugared_operator op); returns. }
  unfold grown_option in H5.
  destruct r2; [returns|].
  call match_sound as b3 q6 F6 W6 C6 H6.
  eapply sound_bind with (Q1 := grown_option e q6);
    [eassumption| |cbv beta; intros r3 q7 F7 W7 C7 H7].
  { destruct b3; [|apply sound_ret; [apply follows_refl|assumption|]; intros _ _; exact I].
    origin q6 F0.
    call previous_sound as op q Fp Wp Cp Ep. subst q.
    call IH as val qv Fv Wv Cv Hv.
    unfold grown_option.
    destruct e; try returns;
      (call error_sound as er qe Fe We Ce He;
       apply sound_ret; [assumption|assumption|]; intros _ _; exact I). }
  unfold grown_option in H7.
  destruct r3; returns.
Qed.

Lemma expression_rule_sound (p0 : state) :
  well_placed p0 -> tokens_left p0 <= fuel ->
  sound true p0 (parsed complete_expr p0)
    (expression_rule expression statement fuel p0).
Proof. intros W Hf. apply assignment_sound; [assumption|lia|assumption]. Qed.

Lemma loop_statement_sound (p0 : state) :
  well_placed p0 -> tokens_left p0 + 1 < fuel ->
  sound true p0 (gives complete_stmt p0) (loop_statement statement p0).
Proof.
  intros W Hf. unfold loop_statement, bind, modify.
  set (q1 := set_loopDepth (S (m_loopDepth p0)) p0).
  assert (W1 : well_placed q1) by exact (well_placed_same p0 q1 eq_refl eq_refl W).
  destruct (statement_sound false q1 W1 Hf) as (a1 & a2 & a3).
  destruct (statement q1) as [[s|[msg|k]] q2]; cbn [fst snd] in *;
    [|destruct a3 as [a3 _]; discriminate a3|contradiction].
  unfold ret. split; [|split]; cbn [fst snd].
  - destruct a1 as (b1 & b2 & b3 & b4 & b5 & b6). unfold follows. cbn.
    repeat split; try assumption. rewrite b4. reflexivity.
  - exact (well_placed_same q2 _ eq_refl eq_refl a2).
  - destruct a3 as [_ a3]. exact a3.
Qed.

Lemma ifstmt_sound (p0 : state) :
  well_placed p0 -> tokens_left p0 + 1 < fuel ->
  sound true p0 (gives complete_stmt p0) (ifstmt expression statement p0).
Proof.
  intros W Hf. origin p0 F. unfold ifstmt.
  call matchWithErr_sound as c1 q1 F1 W1 C1 H1.
  call expression_sound as e q2 F2 W2 C2 H2.
  call matchWithErr_sound as c3 q3 F3 W3 C3 H3.
  call statement_sound as s q4 F4 W4 C4 H4. destruct H4 as [_ H4].
  call match_sound as b q5 F5 W5 C5 H5.
  eapply sound_bind with
    (Q1 := gives (or_null is_null_stmt complete_stmt) q5);
    [eassumption| |cbv beta; intros s2 q6 F6 W6 C6 H6; returns].
  destruct b; [|stays].
  eapply sound_post; [apply statement_sound; [assumption|cursors]|].
  cbv beta. intros a _ _ [_ Ha]. intros Hq. apply or_null_complete_stmt.
  exact (Ha Hq).
Qed.

Lemma whilestmt_sound (p0 : state) :
  well_placed p0 -> tokens_left p0 + 1 < fuel ->
  sound true p0 (gives complete_stmt p0) (whilestmt expression statement p0).
Proof.
  intros W Hf. origin p0 F. unfold whilestmt.
  call matchWithErr_sound as c1 q1 F1 W1 C1 H1.
  call expression_sound as e q2 F2 W2 C2 H2.
  call matchWithErr_sound as c3 q3 F3 W3 C3 H3.
  call loop_statement_sound as s q4 F4 W4 C4 H4.
  returns.
Qed.

Lemma optional_expression_sound (b : bool) (p0 : state) :
  well_placed p0 -> tokens_left p0 < fuel ->
  sound true p0 (gives (or_null is_null complete_expr) p0)
    ((if b then ret NullExpr else expression) p0).
Proof.
  intros W Hf. destruct b; [stays|].
  eapply sound_post; [apply expression_sound; assumption|].
  cbv beta. intros a _ _ [_ Ha]. intros Hq. apply or_null_complete_expr.
  exact (Ha Hq).
Qed.

Lemma forstmt_rest_sound (init : Expr) (p0 : state) :
  well_placed p0 -> tokens_left p0 + 1 < fuel ->
  sound true p0
    (fun s p' => quiet p0 p' -> or_null is_null complete_expr init = true ->
                 complete_stmt s = true)
    (forstmt_rest expression statement init p0).
Proof.
  intros W Hf. origin p0 F. unfold forstmt_rest.
  call isNextType_sound as b1 q Fp Wp Cp Ep. destruct Ep as [-> _].
  call optional_expression_sound as c q1 F1 W1 C1 H1.
  call matchWithErr_sound as c2 q2 F2 W2 C2 H2.
  call isNextType_sound as b3 q Fq Wq Cq Eq. destruct Eq as [-> _].
  call optional_expression_sound as u q3 F3 W3 C3 H3.
  call matchWithErr_sound as c4 q4 F4 W4 C4 H4.
  call loop_statement_sound as s q5 F5 W5 C5 H5.
  apply sound_ret; [assumption|assumption|].
  cursor_facts. intros Hq Hinit. premises. cbn [complete_stmt].
  rewrite Hinit.
  repeat match goal with H : _ = true |- _ => rewrite H end.
  match goal with H : or_null is_null complete_expr c = true |- _ =>
    unfold or_null in H; destruct c; cbn in H |- *;
    first [reflexivity | exact H | rewrite H; reflexivity]
  end.
Qed.

Lemma forstmt_sound (p0 : state) :
  well_placed p0 -> tokens_left p0 + 1 < fuel ->
  sound true p0 (gives complete_stmt p0) (forstmt expression statement p0).
Proof.
  intros W Hf. origin p0 F. unfold forstmt.
  call matchWithErr_sound as c1 q1 F1 W1 C1 H1.
  call match_sound as b q2 F2 W2 C2 H2.
  destruct b; [leave with forstmt_rest_sound|].
  unfold moved_if in H2. subst q2.
  call expression_sound as init q3 F3 W3 C3 H3.
  assert (Hrest : sound true p0 (gives complete_stmt p0)
            ((matchWithErr TokenType.SEMICOLON
                "Expected a ';' after for-loop initialization clause." ;;;
              forstmt_rest expression statement init)%parse q3)).
  { call matchWithErr_sound as c4 q4 F4 W4 C4 H4.
    leave with forstmt_rest_sound. }
  destruct init; try exact Hrest.
  call matchWithErr_sound as c4 q4 F4 W4 C4 H4.
  call loop_statement_sound as s q5 F5 W5 C5 H5.
  returns.
Qed.

Lemma jump_sound (msg1 msg2 : string) (s : Stmt) (p0 : state) :
  complete_stmt s = true ->
  well_placed p0 -> 1 <= m_current p0 ->
  sound true p0 (gives complete_stmt p0)
    ((d <- get m_loopDepth ;;
      (if Nat.eqb d 0
       then t <- previous ;; error t msg1 ;;; ret tt
       else ret tt) ;;;
      matchWithErr TokenType.SEMICOLON msg2 ;;;
      ret s)%parse p0).
Proof.
  intros Hs W H1. origin p0 F.
  call sound_get as d q Fp Wp Cp Ep. destruct Ep as [-> _].
  eapply sound_bind with (Q1 := fun _ _ => True);
    [eassumption| |cbv beta; intros u q1 F1 W1 C1 _].
  { destruct (Nat.eqb d 0); [|stays].
    clear F. origin p0 F.
    call previous_sound as t q Fq Wq Cq Eq. subst q.
    call error_sound as er qe Fe We Ce He. returns. }
  call matchWithErr_sound as c q2 F2 W2 C2 H2.
  apply sound_ret; [assumption|assumption|]. intros _. exact Hs.
Qed.

Lemma exprstmt_sound (p0 : state) :
  well_placed p0 -> tokens_left p0 < fuel ->
  sound true p0 (parsed complete_stmt p0) (exprstmt expression p0).
Proof.
  intros W Hf. origin p0 F. unfold exprstmt.
  call expression_sound as e q1 F1 W1 C1 H1.
  call sound_get as allow q Fp Wp Cp Ep. destruct Ep as [-> Ea].
  eapply sound_bind with
    (Q1 := fun r p' => p' = q1 /\ (r = true -> m_allowExpr q1 = true));
    [eassumption| |cbv beta; intros r q Fq Wq Cq [-> Hr]].
  { destruct allow.
    - eapply sound_post; [apply isAtEnd_sound; assumption|].
      cbn [snd]. intros a _ _ [Hq _]. split; [exact Hq|auto].
    - apply sound_ret; [apply follows_refl|assumption|].
      split; [reflexivity|discriminate]. }
  eapply sound_bind with (Q1 := fun _ _ => True);
    [eassumption| |cbv beta; intros u q2 F2 W2 C2 _; returns].
  destruct r.
  - split; [|split; [|exact I]]; unfold modify; cbn [fst snd].
    + unfold follows. cbn. repeat split; auto.
      intros E. rewrite Hr in E by reflexivity. discriminate E.
    + exact (well_placed_same q1 _ eq_refl eq_refl W1).
  - clear F. origin q1 F.
    call matchWithErr_sound as c q3 F3 W3 C3 H3. returns.
Qed.

Lemma fndefn_sound (p0 : state) :
  well_placed p0 -> tokens_left p0 + 1 < fuel ->
  sound true p0 (gives complete_stmt p0) (fndefn statement fuel p0).
Proof.
  intros W Hf. origin p0 F. unfold fndefn.
  call matchWithErr_sound as c1 q1 F1 W1 C1 H1.
  call previous_sound as name q Fp Wp Cp Ep. subst q.
  call matchWithErr_sound as c2 q2 F2 W2 C2 H2.
  call isNextType_sound as r q Fq Wq Cq Eq. destruct Eq as [-> _].
  eapply sound_bind with (Q1 := fun _ _ => True);
    [eassumption| |cbv beta; intros ps q3 F3 W3 C3 _].
  { destruct r; [stays|].
    apply params_loop_sound; [assumption|cursors]. }
  call matchWithErr_sound as c4 q4 F4 W4 C4 H4.
  call matchWithErr_sound as c5 q5 F5 W5 C5 H5.
  call block_sound as body q6 F6 W6 C6 H6.
  returns.
Qed.

Lemma returnstmt_sound (p0 : state) :
  well_placed p0 -> 1 <= m_current p0 -> tokens_left p0 < fuel ->
  sound true p0 (gives complete_stmt p0) (returnstmt expression p0).
Proof.
  intros W H1 Hf. origin p0 F. unfold returnstmt.
  call previous_sound as kw q Fp Wp Cp Ep. subst q.
  call isNextType_sound as r q Fq Wq Cq Eq. destruct Eq as [-> _].
  call optional_expression_sound as v q1 F1 W1 C1 H2.
  call matchWithErr_sound as c q2 F2 W2 C2 H3.
  returns.
Qed.

Lemma sync_loop_sound (n : nat) :
  forall p0 : state,
    well_placed p0 -> 1 <= m_current p0 -> tokens_left p0 <= n ->
    sound false p0 (fun _ _ => True) (sync_loop n p0).
Proof.
  induction n as [|n IH]; intros p0 W H1 Hn; [exfalso; cursors|].
  origin p0 F. cbn [sync_loop].
  call isAtEnd_sound as e q Fp Wp Cp Ep. destruct Ep as [-> ->].
  destruct (at_end p0) eqn:E; [returns|].
  call previous_sound as prev q Fq Wq Cq Eq. subst q.
  destruct (TokenType.eqb (getType prev) TokenType.SEMICOLON); [returns|].
  call peek_sound as t q Fr Wr Cr Er. subst q.
  assert (Hnext : sound false p0 (fun _ _ => True)
                    ((advance ;;; sync_loop n)%parse p0)).
  { call advance_sound as u q1 F1 W1 C1 H2. destruct H2 as [H2 H3].
    specialize (H3 E).
    eapply sound_from; [eassumption| |auto].
    apply IH; [assumption|assumption|cursors]. }
  destruct (getType t); first [exact Hnext | returns].
Qed.

Lemma sync_sound (n : nat) (p0 : state) :
  well_placed p0 -> tokens_left p0 <= n ->
  sound false p0 (advanced p0) (sync n p0).
Proof.
  intros W Hn. origin p0 F. unfold sync.
  call advance_sound as u q1 F1 W1 C1 H1. destruct H1 as [H1 H2].
  eapply sound_from; [eassumption| |].
  - apply sync_loop_sound; [assumption|assumption|cursors].
  - cbv beta. intros _ F2 _ _ E. specialize (H2 E). cursors.
Qed.

Lemma catch_sound {A} (p0 : state) (body handler : P A)
  (Q : A -> state -> Prop) :
  sound true p0 Q (body p0) ->
  (forall p', follows p0 p' -> well_placed p' ->
              length (errors p0) < length (errors p') ->
              sound false p0 Q (handler p')) ->
  sound false p0 Q (catch_ParseError body handler p0).
Proof.
  intros (a1 & a2 & a3) H. unfold catch_ParseError.
  destruct (body p0) as [[a|[msg|k]] p']; cbn [fst snd] in *.
  - split; [exact a1|]. split; [exact a2|exact a3].
  - destruct a3 as [_ a3]. apply H; assumption.
  - contradiction.
Qed.

Lemma statement_rule_sound (p0 : state) :
  well_placed p0 -> tokens_left p0 + 1 <= fuel ->
  sound false p0 (parsed_statement p0)
    (statement_rule expression statement fuel p0).
Proof.
  intros W Hf. unfold statement_rule. apply catch_sound.
  - eapply sound_post with (Q := parsed complete_stmt p0);
      [|unfold parsed, parsed_statement, moved, advanced;
        intros a _ _ [Ha Hb]; split; [intros _; exact Ha|exact Hb]].
    origin p0 F.
    call match_sound as b1 q1 F1 W1 C1 H1.
    destruct b1; [leave with returnstmt_sound|].
    unfold moved_if in H1. subst q1.
    call isNextType_sound as b2 q Fp Wp Cp Ep. destruct Ep as [-> E2].
    eapply sound_bind with
      (Q1 := fun r p' => p' = p0 /\ (r = true -> at_end p0 = false));
      [eassumption| |cbv beta; intros b3 q Fq Wq Cq [-> E3]].
    { destruct b2.
      - eapply sound_post; [apply isNextNextType_sound; assumption|].
        cbn [snd]. intros a _ _ Hq. split; [exact Hq|auto].
      - apply sound_ret; [apply follows_refl|assumption|].
        split; [reflexivity|discriminate]. }
    destruct b3.
    { call advance_sound as u q2 F2 W2 C2 H2. destruct H2 as [H2 H3].
      specialize (H3 (E3 eq_refl)).
      leave with fndefn_sound. }
    call match_sound as b4 q4 F4 W4 C4 H4.
    destruct b4.
    { call block_sound as ss q5 F5 W5 C5 H5. returns. }
    unfold moved_if in H4. subst q4.
    call match_sound as b5 q5 F5 W5 C5 H5.
    destruct b5; [leave with ifstmt_sound|].
    unfold moved_if in H5. subst q5.
    call match_sound as b6 q6 F6 W6 C6 H6.
    destruct b6; [leave with whilestmt_sound|].
    unfold moved_if in H6. subst q6.
    call match_sound as b7 q7 F7 W7 C7 H7.
    destruct b7; [leave with forstmt_sound|].
    unfold moved_if in H7. subst q7.
    call match_sound as b8 q8 F8 W8 C8 H8.
    destruct b8.
    { eapply sound_from;
        [ eassumption
        | eapply jump_sound; [reflexivity|assumption|cursors]
        | cbv beta; intros; settle ]. }
    unfold moved_if in H8. subst q8.
    call match_sound as b9 q9 F9 W9 C9 H9.
    destruct b9.
    { eapply sound_from;
        [ eassumption
        | eapply jump_sound; [reflexivity|assumption|cursors]
        | cbv beta; intros; settle ]. }
    unfold moved_if in H9. subst q9.
    apply exprstmt_sound; [assumption|lia].
  - intros p' F' W' Herr.
    eapply sound_bind with (Q1 := advanced p');
      [eassumption
      |apply sync_sound; [assumption|cursors]
      |cbv beta; intros u q F1 W1 C1 H1].
    apply sound_ret; [assumption|assumption|].
    unfold parsed_statement, advanced, gives, quiet in *. split.
    + intros E.
      destruct (Nat.eq_dec (m_current p') (m_current p0)) as [Ec|Ec].
      * assert (Ee : at_end p' = false).
        { rewrite (at_end_same p0 p'); [exact E| |exact Ec].
          destruct F' as (Ht & _). exact Ht. }
        specialize (H1 Ee). lia.
      * cursors.
    + intros Hq. exfalso. cursors.
Qed.

End Rules.

(** *** The two rules the others come back to *)

Lemma rules_sound (n : nat) :
  (forall p, well_placed p -> tokens_left p < n ->
             sound true p (parsed complete_expr p) (expression n p)) /\
  (forall b p, well_placed p -> tokens_left p + 1 < n ->
               sound b p (parsed_statement p) (statement n p)).
Proof.
  induction n as [|n [IHe IHs]]; [split; intros; lia|].
  split.
  - intros p W Hn. cbn [expression].
    apply expression_rule_sound; [exact IHe|exact IHs|assumption|lia].
  - intros b p W Hn. cbn [statement]. apply sound_weaken.
    apply statement_rule_sound; [exact IHe|exact IHs|assumption|lia].
Qed.

(** *** [Parser::parse] *)

Lemma parse_loop_total (fuel : nat) (n : nat) :
  forall (acc : Stmts) (p0 : state),
    well_placed p0 -> tokens_left p0 <= n -> tokens_left p0 + 1 < fuel ->
    exists (r : Res (Stmts + Expr)) (p' : state),
      parse_loop n fuel acc p0 = (r, p') /\
      m_tokens p' = m_tokens p0 /\
      length (errors p0) <= length (errors p') /\
      (r = Throw (Fatal BadCast) \/ exists v, r = Ok v) /\
      (m_allowExpr p0 = false -> m_foundExpr p0 = false ->
       exists stmts, r = Ok (inl stmts) /\ at_end p' = true) /\
      (quiet p0 p' -> forallb complete_stmt acc = true ->
       match r with
       | Ok (inl stmts) => forallb complete_stmt stmts = true
       | Ok (inr e) => complete_expr e = true
       | Throw _ => True
       end).
Proof.
  induction n as [|n IH]; intros acc p0 W Hn Hf; [exfalso; cursors|].
  cbn [parse_loop]. unfold bind at 1. rewrite (isAtEnd_eq p0 W).
  destruct (at_end p0) eqn:E.
  { exists (Ok (inl acc)), p0. split; [reflexivity|]. split; [reflexivity|].
    split; [lia|]. split; [right; eexists; reflexivity|].
    split; [intros _ _; exists acc; auto|]. intros _ H. exact H. }
  unfold bind at 1.
  destruct (proj2 (rules_sound fuel) false p0 W Hf) as (a1 & a2 & a3).
  destruct (statement fuel p0) as [[s|[msg|k]] q]; cbn [fst snd] in *;
    [|destruct a3 as [a3 _]; discriminate a3|contradiction].
  destruct a3 as [a3 a4]. specialize (a3 E). unfold bind at 1. unfold get at 1.
  destruct (follows_facts p0 q a1) as (Hlen & Hcur & Herr).
  pose proof (well_placed_cursor q a2) as Hq0.
  assert (Hq : well_placed (set_allowExpr false q))
    by exact (well_placed_same q _ eq_refl eq_refl a2).
  assert (Hl : tokens_left (set_allowExpr false q) <= n).
  { unfold tokens_left in *. cbn. lia. }
  assert (Hg : tokens_left (set_allowExpr false q) + 1 < fuel).
  { unfold tokens_left in *. cbn. lia. }
  destruct (IH (acc ++ [s])%list _ Hq Hl Hg)
    as (r & p' & R1 & R2 & R3 & R4 & R5 & R6).
  cbn [errors set_allowExpr m_tokens] in R2, R3.
  assert (Hnext :
    exists (r : Res (Stmts + Expr)) (p' : state),
      (modify (set_allowExpr false) ;;; parse_loop n fuel (acc ++ [s])%list)%parse q
      = (r, p') /\
      m_tokens p' = m_tokens p0 /\
      length (errors p0) <= length (errors p') /\
      (r = Throw (Fatal BadCast) \/ exists v, r = Ok v) /\
      (m_allowExpr p0 = false -> m_foundExpr p0 = false ->
       exists stmts, r = Ok (inl stmts) /\ at_end p' = true) /\
      (quiet p0 p' -> forallb complete_stmt acc = true ->
       match r with
       | Ok (inl stmts) => forallb complete_stmt stmts = true
       | Ok (inr e) => complete_expr e = true
       | Throw _ => True
       end)).
  { exists r, p'. split; [exact R1|]. split.
    { rewrite R2. destruct a1 as (Ht & _). exact Ht. }
    split; [lia|]. split; [exact R4|]. split.
    - intros Ha Hb. apply R5; [reflexivity|].
      cbn. destruct a1 as (_ & _ & _ & _ & _ & Hfound).
      rewrite Hfound; assumption.
    - unfold gives, quiet in *. cbn [errors set_allowExpr] in R6.
      intros Hquiet Hacc. apply R6; [lia|].
      rewrite forallb_app, Hacc. cbn [forallb]. rewrite a4 by lia. reflexivity. }
  destruct (m_foundExpr q) eqn:Efound; [|exact Hnext].
  destruct s; try exact Hnext;
    (eexists; eexists; split; [reflexivity|];
     split; [destruct a1 as (Ht & _); exact Ht|];
     split; [exact Herr|];
     split; [first [left; reflexivity | right; eexists; reflexivity]|];
     split;
     [ intros Ha Hb; destruct a1 as (_ & _ & _ & _ & _ & Hfound);
       rewrite Hfound in Efound by assumption; congruence
     | try (intros; exact I) ]).
  unfold gives, quiet in *. intros Hquiet _. exact (a4 Hquiet).
Qed.

Lemma parse_total (tokens : list Token) (parseRepl : bool) (fuel : nat) :
  ends_with_EOF tokens = true ->
  length tokens + 1 < fuel ->
  exists (r : Res (Stmts + Expr)) (p' : state),
    parse fuel (new tokens parseRepl) = (r, p') /\
    m_tokens p' = tokens /\
    (r = Throw (Fatal BadCast) \/ exists v, r = Ok v) /\
    (parseRepl = false ->
     exists stmts, r = Ok (inl stmts) /\ at_end p' = true) /\
    (errors p' = [] ->
     match r with
     | Ok (inl stmts) => forallb complete_stmt stmts = true
     | Ok (inr e) => complete_expr e = true
     | Throw _ => True
     end).
Proof.
  intros He Hf. unfold parse.
  destruct (at_end (new tokens parseRepl)) eqn:E.
  - destruct tokens as [|t ts]; [discriminate He|].
    destruct fuel as [|fuel]; [lia|].
    cbn [parse_loop]. unfold bind, isAtEnd, peek, get, token_at, ret.
    unfold at_end in E. cbn in E |- *. rewrite E.
    eexists. eexists. split; [reflexivity|]. split; [reflexivity|].
    split; [right; eexists; reflexivity|]. split; [|reflexivity].
    intros _. eexists. split; [reflexivity|]. unfold at_end. cbn. exact E.
  - assert (W : well_placed (new tokens parseRepl)).
    { split; [exact He|]. split; [|intros _; exact E].
      cbn. destruct tokens; [discriminate He|cbn; lia]. }
    assert (H1 : tokens_left (new tokens parseRepl) <= fuel)
      by (unfold tokens_left; cbn; lia).
    assert (H2 : tokens_left (new tokens parseRepl) + 1 < fuel)
      by (unfold tokens_left; cbn; lia).
    destruct (parse_loop_total fuel fuel [] _ W H1 H2)
      as (r & p' & R1 & R2 & R3 & R4 & R5 & R6).
    exists r, p'. split; [exact R1|]. split; [exact R2|]. split; [exact R4|].
    split; [intros ->; apply R5; reflexivity|].
    intros Hnil. apply R6; [|reflexivity].
    unfold quiet. rewrite Hnil. reflexivity.
Qed.

(** [Parser::parse] always comes back. On a token vector that ends
    with [EOF_], and with steps for every token, it reads no token
    outside the vector and leaves the vector as it was; it returns a
    value, unless it casts a statement that is no expression
    statement; and in script mode it returns statements, with the
    cursor on [EOF_]. *)
Theorem parse_is_total :
  forall (tokens : list Token) (parseRepl : bool) (fuel : nat),
    ends_with_EOF tokens = true ->
    length tokens + 1 < fuel ->
    exists (r : Res (Stmts + Expr)) (p' : state),
      parse fuel (new tokens parseRepl) = (r, p') /\
      m_tokens p' = tokens /\
      (r = Throw (Fatal BadCast) \/ exists v, r = Ok v) /\
      (parseRepl = false ->
       exists stmts, r = Ok (inl stmts) /\ at_end p' = true).
Proof.
  intros tokens parseRepl fuel He Hf.
  destruct (parse_total tokens parseRepl fuel He Hf)
    as (r & p' & R1 & R2 & R3 & R4 & _).
  exists r, p'. auto.
Qed.

Lemma parse_is_total_witness :
  ends_with_EOF Sample.compound_tokens = true /\
  exists (r : Res (Stmts + Expr)) (p' : state),
    parse 9 (new Sample.compound_tokens false) = (r, p') /\
    m_tokens p' = Sample.compound_tokens /\
    (r = Throw (Fatal BadCast) \/ exists v, r = Ok v) /\
    (false = false -> exists stmts, r = Ok (inl stmts) /\ at_end p' = true).
Proof.
  split; [reflexivity|].
  apply (parse_is_total Sample.compound_tokens false 9 eq_refl).
  cbn. lia.
Defined.

(** A parse that reports nothing returns complete trees: no statement
    is null, and no pointer the evaluator follows without a test is
    null anywhere below. *)
Theorem quiet_parse_is_complete :
  forall (tokens : list Token) (parseRepl : bool) (fuel : nat)
         (v : Stmts + Expr) (p' : state),
    ends_with_EOF tokens = true ->
    length tokens + 1 < fuel ->
    parse fuel (new tokens parseRepl) = (Ok v, p') ->
    errors p' = [] ->
    match v with
    | inl stmts => forallb complete_stmt stmts = true
    | inr e => complete_expr e = true
    end.
Proof.
  intros tokens parseRepl fuel v p' He Hf Hp Hnil.
  destruct (parse_total tokens parseRepl fuel He Hf)
    as (r & q & R1 & _ & _ & _ & R5).
  rewrite Hp in R1. injection R1 as <- <-. exact (R5 Hnil).
Qed.

Lemma quiet_parse_is_complete_witness :
  errors (snd (parse 9 (new Sample.compound_tokens false))) = [] /\
  forallb complete_stmt
    match fst (parse 9 (new Sample.compound_tokens false)) with
    | Ok (inl stmts) => stmts
    | _ => []
    end = true.
Proof.
  split; [reflexivity|].
  apply (quiet_parse_is_complete Sample.compound_tokens false 9
           (inl match fst (parse 9 (new Sample.compound_tokens false)) with
                | Ok (inl stmts) => stmts
                | _ => []
                end)
           (snd (parse 9 (new Sample.compound_tokens false))));
    [reflexivity | cbn; lia | reflexivity | reflexivity].
Defined.

(** *** The cursor on an [EOF_] that is the first token *)

Lemma first_token_EOF (p : state) :
  at_end p = true -> m_current p = 0 ->
  exists s ln lt rest a f d h es,
    p = mkParser (mkToken TokenType.EOF_ s ln lt :: rest) 0 a f d h es.
Proof.
  destruct p as [toks c a f d h es]. unfold at_end. cbn. intros H ->.
  destruct toks as [|[ty s ln lt] rest]; [discriminate H|]. cbn in H.
  destruct ty; try discriminate H.
  eauto 12.
Qed.

(** [advance] stays on [EOF_] and asks [previous] for the token before
    the first. *)
Lemma sync_at_first_EOF (n : nat) (p : state) :
  at_end p = true -> m_current p = 0 ->
  sync n p = (Throw (Fatal OutOfRange), p).
Proof.
  intros H1 H2.
  destruct (first_token_EOF p H1 H2)
    as (s & ln & lt & rest & a & f & d & h & es & ->).
  reflexivity.
Qed.

Lemma expression_at_first_EOF (n : nat) (p : state) :
  at_end p = true -> m_current p = 0 -> 1 < n ->
  exists t : Token,
    m_tokens p !! 0 = Some t /\
    expression n p
    = (Throw (ParseError "Invalid Syntax."),
       Proto_error (getLine t) "Invalid Syntax." p).
Proof.
  intros H1 H2 Hn.
  destruct (first_token_EOF p H1 H2)
    as (s & ln & lt & rest & a & f & d & h & es & ->).
  eexists. split; [reflexivity|].
  do 2 (destruct n as [|n]; [lia|]).
  vm_compute. reflexivity.
Qed.

(** No rule matches, [primary] reports, and the handler of [statement]
    calls [sync]. *)
Lemma statement_at_first_EOF (n : nat) (p : state) :
  at_end p = true -> m_current p = 0 -> 2 < n ->
  exists t : Token,
    m_tokens p !! 0 = Some t /\
    statement n p
    = (Throw (Fatal OutOfRange),
       Proto_error (getLine t) "Invalid Syntax." p).
Proof.
  intros H1 H2 Hn.
  destruct (first_token_EOF p H1 H2)
    as (s & ln & lt & rest & a & f & d & h & es & ->).
  eexists. split; [reflexivity|].
  do 3 (destruct n as [|n]; [lia|]).
  vm_compute. reflexivity.
Qed.

(** A cursor inside a vector that ends with [EOF_] is well placed
    unless it is on an [EOF_] that is the first token. *)
Lemma well_placed_unless (p : state) :
  ends_with_EOF (m_tokens p) = true ->
  m_current p < length (m_tokens p) ->
  at_end p && (m_current p =? 0) = false ->
  well_placed p.
Proof.
  intros He Hc E0. split; [exact He|]. split; [exact Hc|]. intros Hz.
  apply andb_false_iff in E0 as [E0|E0]; [exact E0|].
  apply Nat.eqb_neq in E0. contradiction.
Qed.

(** The two rules every other rule comes back to, from a state whose
    tokens end with [EOF_] and whose cursor is inside them, with steps
    for the tokens left. [expression] returns only after it consumed a
    token, and throws only after a diagnostic, and only [ParseError].
    [statement] returns, a parse error included, from every such state
    but one: with the cursor on an [EOF_] that is the first token
    (where [parse] never calls it) it reports "Invalid Syntax." and
    its handler's [sync] asks for the token before the first, so
    [std::out_of_range] escapes. When it returns it has consumed a
    token unless the cursor was on [EOF_], and it leaves the tokens,
    the loop depth and the mode as they were. Whatever the two return
    without a diagnostic is complete. *)
Theorem rules_return_or_report :
  forall (n : nat) (p : state),
    ends_with_EOF (m_tokens p) = true ->
    m_current p < length (m_tokens p) ->
    tokens_left p + 1 < n ->
    match expression n p with
    | (Ok e, p') =>
        m_current p < m_current p' /\ (quiet p p' -> complete_expr e = true)
    | (Throw (ParseError _), p') => length (errors p) < length (errors p')
    | (Throw (Fatal _), _) => False
    end /\
    if at_end p && (m_current p =? 0)
    then
      exists t : Token,
        m_tokens p !! 0 = Some t /\
        statement n p
        = (Throw (Fatal OutOfRange),
           Proto_error (getLine t) "Invalid Syntax." p)
    else
      exists (s : Stmt) (p' : state),
        statement n p = (Ok s, p') /\
        follows p p' /\
        (at_end p = false -> m_current p < m_current p') /\
        (quiet p p' -> complete_stmt s = true).
Proof.
  intros n p He Hc Hn.
  assert (Hleft : 1 <= tokens_left p) by (unfold tokens_left; lia).
  destruct (at_end p && (m_current p =? 0)) eqn:E0.
  { apply andb_true_iff in E0 as [E1 E2]. apply Nat.eqb_eq in E2. split.
    - destruct (expression_at_first_EOF n p E1 E2 ltac:(lia))
        as (t & _ & ->).
      cbn. rewrite length_app. cbn. lia.
    - apply statement_at_first_EOF; [assumption|assumption|lia]. }
  pose proof (well_placed_unless p He Hc E0) as W. split.
  - assert (Hlt : tokens_left p < n) by lia.
    destruct (proj1 (rules_sound n) p W Hlt) as (_ & _ & a3).
    destruct (expression n p) as [[e|[msg|k]] p']; cbn [fst snd] in *.
    + exact a3.
    + destruct a3 as [_ a3]. exact a3.
    + exact a3.
  - destruct (proj2 (rules_sound n) false p W Hn) as (a1 & _ & a3).
    destruct (statement n p) as [[s|[msg|k]] p']; cbn [fst snd] in *.
    + exists s, p'. destruct a3 as [a3 a4]. auto.
    + destruct a3 as [a3 _]. discriminate a3.
    + contradiction.
Qed.

Lemma rules_return_or_report_witness :
  ends_with_EOF (m_tokens (new Sample.stray_tokens false)) = true /\
  exists (s : Stmt) (p' : state),
    statement 7 (new Sample.stray_tokens false) = (Ok s, p') /\
    follows (new Sample.stray_tokens false) p' /\
    (at_end (new Sample.stray_tokens false) = false ->
     m_current (new Sample.stray_tokens false) < m_current p') /\
    (quiet (new Sample.stray_tokens false) p' -> complete_stmt s = true).
Proof.
  split; [reflexivity|].
  apply (rules_return_or_report 7 (new Sample.stray_tokens false) eq_refl);
    cbn; lia.
Defined.

(** *** [Parser::sync] *)

Lemma set_current_twice (c c' : nat) (p : state) :
  set_current c (set_current c' p) = set_current c p.
Proof. reflexivity. Qed.

Lemma set_current_same (p : state) : p = set_current (m_current p) p.
Proof. destruct p. reflexivity. Qed.

Lemma sync_loop_boundary (n : nat) :
  forall p0 : state,
    well_placed p0 -> 1 <= m_current p0 -> tokens_left p0 <= n ->
    exists p' : state,
      sync_loop n p0 = (Ok tt, p') /\
      statement_boundary p' = true /\
      m_current p0 <= m_current p' /\
      p' = set_current (m_current p') p0.
Proof.
  induction n as [|n IH]; intros p0 W H1 Hn; [exfalso; cursors|].
  cbn [sync_loop]. unfold bind at 1. rewrite (isAtEnd_eq p0 W).
  destruct (at_end p0) eqn:E.
  { exists p0. split; [reflexivity|]. unfold statement_boundary. rewrite E.
    split; [reflexivity|]. split; [lia|apply set_current_same]. }
  unfold bind at 1. destruct (previous_eq p0 W H1) as (prev & Hprev & Ep).
  rewrite Ep.
  destruct (TokenType.eqb (getType prev) TokenType.SEMICOLON) eqn:Esemi.
  { exists p0. split; [reflexivity|]. unfold statement_boundary.
    rewrite Hprev, Esemi, orb_true_r.
    split; [reflexivity|]. split; [lia|apply set_current_same]. }
  unfold bind at 1. destruct (well_placed_token p0 W) as [t Ht].
  rewrite (peek_eq p0 t Ht).
  assert (Hnext :
    begins_statement (getType t) = false ->
    exists p' : state,
      (advance ;;; sync_loop n)%parse p0 = (Ok tt, p') /\
      statement_boundary p' = true /\
      m_current p0 <= m_current p' /\
      p' = set_current (m_current p') p0).
  { intros _. unfold bind. destruct (advance_eq p0 W) as [u Eu].
    rewrite Eu, E.
    destruct (IH (set_current (S (m_current p0)) p0)) as (p' & R1 & R2 & R3 & R4).
    - exact (well_placed_next p0 W E).
    - cbn. lia.
    - unfold tokens_left in *. cbn. pose proof (at_end_room p0 W E). lia.
    - exists p'. split; [exact R1|]. split; [exact R2|].
      split; [cbn in R3; lia|]. rewrite R4 at 1. apply set_current_twice. }
  assert (Hstop :
    begins_statement (getType t) = true ->
    exists p' : state,
      ret tt p0 = (Ok tt, p') /\
      statement_boundary p' = true /\
      m_current p0 <= m_current p' /\
      p' = set_current (m_current p') p0).
  { intros Hb. exists p0. split; [reflexivity|]. unfold statement_boundary.
    rewrite Ht, Hb, orb_true_r.
    split; [reflexivity|]. split; [lia|apply set_current_same]. }
  destruct (getType t);
    first [exact (Hnext eq_refl) | exact (Hstop eq_refl)].
Qed.

(** [Parser::sync], from a state whose tokens end with [EOF_] and
    whose cursor is inside them, with steps for the tokens left. With
    the cursor on an [EOF_] that is the first token, its [advance]
    asks for the token before the first and [std::out_of_range]
    escapes. From every other such state it returns, and where parsing
    can resume: at the end, behind a semicolon, or in front of a token
    that begins a statement; it moves the cursor, by at least one
    token unless the cursor was on [EOF_], and does nothing else. *)
Theorem sync_stops_at_a_statement_boundary :
  forall (n : nat) (p0 : state),
    ends_with_EOF (m_tokens p0) = true ->
    m_current p0 < length (m_tokens p0) ->
    tokens_left p0 <= n ->
    if at_end p0 && (m_current p0 =? 0)
    then sync n p0 = (Throw (Fatal OutOfRange), p0)
    else
      exists p' : state,
        sync n p0 = (Ok tt, p') /\
        statement_boundary p' = true /\
        (at_end p0 = false -> m_current p0 < m_current p') /\
        p' = set_current (m_current p') p0.
Proof.
  intros n p0 He Hc Hn.
  destruct (at_end p0 && (m_current p0 =? 0)) eqn:E0.
  { apply andb_true_iff in E0 as [E1 E2]. apply Nat.eqb_eq in E2.
    exact (sync_at_first_EOF n p0 E1 E2). }
  pose proof (well_placed_unless p0 He Hc E0) as W.
  unfold sync, bind.
  destruct (advance_eq p0 W) as [u Eu]. rewrite Eu.
  destruct (at_end p0) eqn:E.
  - assert (H1 : 1 <= m_current p0).
    { destruct W as (_ & _ & W).
      destruct (Nat.eq_dec (m_current p0) 0) as [Ez|Ez]; [|lia].
      rewrite (W Ez) in E. discriminate E. }
    destruct (sync_loop_boundary n p0 W H1 Hn) as (p' & R1 & R2 & R3 & R4).
    exists p'. split; [exact R1|]. split; [exact R2|].
    split; [discriminate|exact R4].
  - destruct (sync_loop_boundary n (set_current (S (m_current p0)) p0))
      as (p' & R1 & R2 & R3 & R4).
    + exact (well_placed_next p0 W E).
    + cbn. lia.
    + unfold tokens_left in *. cbn. pose proof (at_end_room p0 W E). lia.
    + exists p'. split; [exact R1|]. split; [exact R2|].
      split; [intros _; cbn in R3; lia|].
      rewrite R4 at 1. apply set_current_twice.
Qed.

Lemma sync_stops_at_a_statement_boundary_witness :
  ends_with_EOF (m_tokens (new Sample.stray_tokens false)) = true /\
  exists p' : state,
    sync 5 (new Sample.stray_tokens false) = (Ok tt, p') /\
    statement_boundary p' = true /\
    (at_end (new Sample.stray_tokens false) = false ->
     m_current (new Sample.stray_tokens false) < m_current p') /\
    p' = set_current (m_current p') (new Sample.stray_tokens false).
Proof.
  split; [reflexivity|].
  apply (sync_stops_at_a_statement_boundary 5
           (new Sample.stray_tokens false) eq_refl);
    cbn; lia.
Defined.

(** In the mode that allows a trailing expression, [parse] takes an
    [if] or a [while] for an expression statement when its body is an
    expression that ends the input: [exprstmt] sets [m_foundExpr] for
    the body, and [parse] then casts the statement it got, which is
    the [if] or the [while]. *)
Theorem repl_statement_taken_for_an_expression :
  forall (kw lp c rp v eof : Token) (fuel : nat),
    getType kw = TokenType.IF \/ getType kw = TokenType.WHILE ->
    getType lp = TokenType.LPAREN ->
    getType c = TokenType.IDENTIFIER ->
    getType rp = TokenType.RPAREN ->
    getType v = TokenType.NUMBER ->
    getType eof = TokenType.EOF_ ->
    7 < fuel ->
    fst (parse fuel (new [kw; lp; c; rp; v; eof] true))
    = Throw (Fatal BadCast).
Proof.
  intros [k1 s1 l1 t1] [k2 s2 l2 t2] [k3 s3 l3 t3] [k4 s4 l4 t4]
         [k5 s5 l5 t5] [k6 s6 l6 t6] fuel Hkw H2 H3 H4 H5 H6 Hf.
  cbn [getType] in *. subst k2 k3 k4 k5 k6.
  do 8 (destruct fuel as [|fuel]; [lia|]).
  destruct Hkw as [-> | ->]; vm_compute; reflexivity.
Qed.

Lemma repl_statement_taken_for_an_expression_witness :
  fst (parse 8 (new Sample.if_without_semicolon true))
  = Throw (Fatal BadCast).
Proof.
  apply (repl_statement_taken_for_an_expression
           (Sample.tok TokenType.IF "if") (Sample.tok TokenType.LPAREN "(")
           (Sample.ident "x") (Sample.tok TokenType.RPAREN ")")
           (mkToken TokenType.NUMBER "1" 1 LiteralType.NUM)
           (Sample.tok TokenType.EOF_ EmptyString) 8);
    first [reflexivity | left; reflexivity | lia].
Defined.

End ParserTotality.

(** ** Operators and assignment targets *)

(** Binding strength and associativity of the binary operators. The
    statement [x o1 y o2 z;] is parsed as [(x o1 y) o2 z], unless [o2]
    binds tighter than [o1] or both are [^]: then it is parsed as
    [x o1 (y o2 z)]. So every binary operator but [^] associates to
    the left, and the operators bind, from loose to tight: [or];
    [and]; [!=] and [==]; the four comparisons; [+] and [-]; [*] and
    [/]; [^]. *)
Theorem binary_operators_by_binding_strength :
  forall (x o1 y o2 z semi eof : Token) (l1 l2 fuel : nat),
    getType x = TokenType.IDENTIFIER ->
    getType y = TokenType.IDENTIFIER ->
    getType z = TokenType.IDENTIFIER ->
    binding (getType o1) = Some l1 ->
    binding (getType o2) = Some l2 ->
    getType semi = TokenType.SEMICOLON ->
    getType eof = TokenType.EOF_ ->
    (8 < fuel)%nat ->
    fst (Parser.parse fuel (Parser.new [x; o1; y; o2; z; semi; eof] false))
    = Parser.Ok
        (inl [Expression
                (if right_first l1 l2
                 then binary_node (Variable_ x) o1
                        (binary_node (Variable_ y) o2 (Variable_ z))
                 else binary_node
                        (binary_node (Variable_ x) o1 (Variable_ y)) o2
                        (Variable_ z))]).
Proof.
  intros [kx sx lx tx] [k1 s1 n1 t1] [ky sy ly ty] [k2 s2 n2 t2]
         [kz sz lz tz] [ks ss ls ts] [ke se le te] l1 l2 fuel
         Hx Hy Hz H1 H2 Hs He Hf.
  cbn [getType] in *. subst kx ky kz ks ke.
  do 9 (destruct fuel as [|fuel]; [lia|]).
  destruct k1; try discriminate H1; injection H1 as <-;
    (destruct k2; try discriminate H2; injection H2 as <-;
     vm_compute; reflexivity).
Qed.

Lemma binary_operators_by_binding_strength_witness :
  fst (Parser.parse 9
         (Parser.new
            [Sample.ident "a"; Sample.tok TokenType.PLUS "+";
             Sample.ident "b"; Sample.tok TokenType.PRODUCT "*";
             Sample.ident "c"; Sample.tok TokenType.SEMICOLON ";";
             Sample.tok TokenType.EOF_ EmptyString] false))
  = Parser.Ok
      (inl [Expression
              (Binary (Sample.var "a") (Sample.tok TokenType.PLUS "+")
                 (Binary (Sample.var "b") (Sample.tok TokenType.PRODUCT "*")
                    (Sample.var "c")))]).
Proof.
  exact (binary_operators_by_binding_strength
           (Sample.ident "a") (Sample.tok TokenType.PLUS "+")
           (Sample.ident "b") (Sample.tok TokenType.PRODUCT "*")
           (Sample.ident "c") (Sample.tok TokenType.SEMICOLON ";")
           (Sample.tok TokenType.EOF_ EmptyString) 5 6 9
           eq_refl eq_refl eq_refl eq_refl eq_refl eq_refl eq_refl (le_n 9)).
Defined.

(** The prefix operators [-] and [!] bind tighter than every binary
    operator but [^]: [-x * y] is [(-x) * y] and [-x ^ y] is
    [-(x ^ y)]. On the right of a binary operator a prefix operator is
    an operand, [x * -y], but not on the right of [^], whose exponent
    is parsed by [exponentiation] itself: [x ^ -y] is reported as
    "Invalid Syntax." at the prefix operator, and the statement is
    lost. *)
Theorem prefix_operators_bind_below_exponent :
  forall (m x o y semi eof : Token) (l fuel : nat),
    getType m = TokenType.MINUS \/ getType m = TokenType.NOT ->
    getType x = TokenType.IDENTIFIER ->
    getType y = TokenType.IDENTIFIER ->
    binding (getType o) = Some l ->
    getType semi = TokenType.SEMICOLON ->
    getType eof = TokenType.EOF_ ->
    (7 < fuel)%nat ->
    fst (Parser.parse fuel (Parser.new [m; x; o; y; semi; eof] false))
    = Parser.Ok
        (inl [Expression
                (if (l =? 7)%nat
                 then Unary m (binary_node (Variable_ x) o (Variable_ y))
                 else binary_node (Unary m (Variable_ x)) o (Variable_ y))]) /\
    Parser.parse fuel (Parser.new [x; o; m; y; semi; eof] false)
    = if (l =? 7)%nat
      then (Parser.Ok (inl [NullStmt]),
            Parser.mkParser [x; o; m; y; semi; eof] 5 false false 0 true
              [(getLine m, "Invalid Syntax.")])
      else (Parser.Ok
              (inl [Expression
                      (binary_node (Variable_ x) o (Unary m (Variable_ y)))]),
            Parser.mkParser [x; o; m; y; semi; eof] 5 false false 0 false []).
Proof.
  intros [km sm lm tm] [kx sx lx tx] [k1 s1 n1 t1] [ky sy ly ty]
         [ks ss ls ts] [ke se le te] l fuel Hm Hx Hy H1 Hs He Hf.
  cbn [getType getLine] in *. subst kx ky ks ke.
  do 8 (destruct fuel as [|fuel]; [lia|]).
  destruct Hm as [-> | ->];
    (destruct k1; try discriminate H1; injection H1 as <-;
     split; vm_compute; reflexivity).
Qed.

Lemma prefix_operators_bind_below_exponent_witness :
  Parser.parse 8
    (Parser.new
       [Sample.ident "a"; Sample.tok TokenType.EXPONENTATION "^";
        Sample.tok TokenType.MINUS "-"; Sample.ident "b";
        Sample.tok TokenType.SEMICOLON ";";
        Sample.tok TokenType.EOF_ EmptyString] false)
  = (Parser.Ok (inl [NullStmt]),
     Parser.mkParser
       [Sample.ident "a"; Sample.tok TokenType.EXPONENTATION "^";
        Sample.tok TokenType.MINUS "-"; Sample.ident "b";
        Sample.tok TokenType.SEMICOLON ";";
        Sample.tok TokenType.EOF_ EmptyString] 5 false false 0 true
       [(1%nat, "Invalid Syntax.")]).
Proof.
  exact (proj2 (prefix_operators_bind_below_exponent
                  (Sample.tok TokenType.MINUS "-") (Sample.ident "a")
                  (Sample.tok TokenType.EXPONENTATION "^") (Sample.ident "b")
                  (Sample.tok TokenType.SEMICOLON ";")
                  (Sample.tok TokenType.EOF_ EmptyString) 7 8
                  (or_introl eq_refl) eq_refl eq_refl eq_refl eq_refl eq_refl
                  (le_n 8))).
Defined.

(** An invalid assignment target is reported and not thrown. After a
    literal, each of the six assignment operators reports "Invalid
    assignment location." on the operator, and the statement that is
    returned is the literal alone: the right-hand side is parsed and
    dropped. The same happens to a compound assignment into an
    indexed element, [x[1] += y]: only [=] and [`=] assign through an
    index. *)
Theorem invalid_assignment_target_is_reported_not_thrown :
  forall (t op x lb i rb y semi eof : Token) (fuel : nat),
    literal_token (getType t) = true ->
    assigns (getType op) = true ->
    getType x = TokenType.IDENTIFIER ->
    getType lb = TokenType.LSQRBRKT ->
    getType i = TokenType.NUMBER ->
    getType rb = TokenType.RSQRBRKT ->
    getType y = TokenType.IDENTIFIER ->
    getType semi = TokenType.SEMICOLON ->
    getType eof = TokenType.EOF_ ->
    (10 < fuel)%nat ->
    Parser.parse fuel (Parser.new [t; op; y; semi; eof] false)
    = (Parser.Ok (inl [Expression (Literal t)]),
       Parser.mkParser [t; op; y; semi; eof] 4 false false 0 true
         [(getLine op, "Invalid assignment location.")]) /\
    Parser.parse fuel (Parser.new [x; lb; i; rb; op; y; semi; eof] false)
    = if compound (getType op)
      then (Parser.Ok (inl [Expression (Index lb (Variable_ x) (Literal i))]),
            Parser.mkParser [x; lb; i; rb; op; y; semi; eof] 7 false false 0
              true [(getLine op, "Invalid assignment location.")])
      else (Parser.Ok
              (inl [Expression
                      (IndexAssign (Variable_ x) (Literal i) lb op
                         (Variable_ y))]),
            Parser.mkParser [x; lb; i; rb; op; y; semi; eof] 7 false false 0
              false []).
Proof.
  intros [kt st lt tt] [ko so lo to] [kx sx lx tx] [kl sl ll tl]
         [ki si li ti] [kr sr lr tr] [ky sy ly ty] [ks ss ls ts]
         [ke se le te] fuel Ht Ho Hx Hl Hi Hr Hy Hs He Hf.
  cbn [getType getLine] in *. subst kx kl ki kr ky ks ke.
  do 11 (destruct fuel as [|fuel]; [lia|]).
  destruct ko; try discriminate Ho;
    (split; [destruct kt; try discriminate Ht|]; vm_compute; reflexivity).
Qed.

Lemma invalid_assignment_target_is_reported_not_thrown_witness :
  Parser.parse 11
    (Parser.new
       [mkToken TokenType.NUMBER "1" 1 LiteralType.NUM;
        Sample.tok TokenType.EQUAL "="; Sample.ident "y";
        Sample.tok TokenType.SEMICOLON ";";
        Sample.tok TokenType.EOF_ EmptyString] false)
  = (Parser.Ok (inl [Expression (Sample.number "1")]),
     Parser.mkParser
       [mkToken TokenType.NUMBER "1" 1 LiteralType.NUM;
        Sample.tok TokenType.EQUAL "="; Sample.ident "y";
        Sample.tok TokenType.SEMICOLON ";";
        Sample.tok TokenType.EOF_ EmptyString] 4 false false 0 true
       [(1%nat, "Invalid assignment location.")]).
Proof.
  exact (proj1 (invalid_assignment_target_is_reported_not_thrown
                  (mkToken TokenType.NUMBER "1" 1 LiteralType.NUM)
                  (Sample.tok TokenType.EQUAL "=") (Sample.ident "x")
                  (Sample.tok TokenType.LSQRBRKT "[")
                  (mkToken TokenType.NUMBER "1" 1 LiteralType.NUM)
                  (Sample.tok TokenType.RSQRBRKT "]") (Sample.ident "y")
                  (Sample.tok TokenType.SEMICOLON ";")
                  (Sample.tok TokenType.EOF_ EmptyString) 11
                  eq_refl eq_refl eq_refl eq_refl eq_refl eq_refl eq_refl
                  eq_refl eq_refl (le_n 11))).
Defined.
